(** * Codicum Drive sync: a shallow embedding of [sync_parchment_data.py]
      and of the legacy album variant [sync_parchment_data_FIXED.py].

    The Python scripts are glue around external collaborators (OpenCV,
    pyzbar, PIL, zipfile, the Drive / Photos / Sheets clients, the local
    file system).  Those collaborators are the fields of the class
    [Platform]; every function of the repository that the properties
    below talk about is translated on top of them.

    Conventions of the embedding:
    - a Python exception is the constructor [Raise] of [outcome]; state
      mutated before the exception stays mutated, as in Python;
    - the in-process mapping dict is an association list in insertion
      order with Python's [d[k] = v] semantics ([dict_set]); an entry
      (the inner dict) is a [gmap string jval];
    - effects on the outside world that the run never reads back are
      recorded, newest first, in the trace of the [world]. *)

From Stdlib Require Import ZArith Lia Ascii String.
From Stdlib Require Import Sorting.Permutation Sorting.Sorted.
From stdpp Require Import base option list strings gmap.

(* ===================================================================== *)
(** ** Python values that the scripts move around *)
(* ===================================================================== *)

(** Raw byte strings ([bytes], [BytesIO] contents). *)
Abbreviation bytes := string (only parsing).

(** A JSON scalar as stored in an entry: [None] or a [str]. *)
Inductive jval := JNull | JStr (s : string).

#[global] Instance jval_eq_dec : EqDecision jval.
Proof. solve_decision. Defined.

(** Python truthiness of such a value: [None] and [''] are falsy. *)
Definition truthy (v : jval) : bool :=
  match v with
  | JNull => false
  | JStr s => negb (String.eqb s "")
  end.

Definition jopt (o : option string) : jval :=
  match o with
  | Some s => JStr s
  | None => JNull
  end.

(** One MappingEntry: the inner dict of photo_mapping.json. *)
Abbreviation entry := (gmap string jval) (only parsing).

(** [item.get(k)]: an absent key reads as [None]. *)
Definition get (k : string) (e : entry) : jval := default JNull (e !! k).

(** [item.get(k, dflt)]: the default only replaces an absent key. *)
Definition get_or (k : string) (dflt : jval) (e : entry) : jval :=
  default dflt (e !! k).

(** The Mapping Store: identifier -> entry, in insertion order. *)
Abbreviation store := (list (string * entry)) (only parsing).

Section Dict.
Context {V : Type}.

Fixpoint dict_get (k : string) (d : list (string * V)) : option V :=
  match d with
  | [] => None
  | (k', v) :: d' => if decide (k' = k) then Some v else dict_get k d'
  end.

(** [d[k] = v]: an existing key keeps its position, a new key is
    appended. *)
Fixpoint dict_set (k : string) (v : V) (d : list (string * V))
  : list (string * V) :=
  match d with
  | [] => [(k, v)]
  | (k', v') :: d' =>
      if decide (k' = k) then (k, v) :: d' else (k', v') :: dict_set k v d'
  end.

Definition dict_keys (d : list (string * V)) : list string := d.*1.
Definition dict_values (d : list (string * V)) : list V := d.*2.
Definition dict_has (k : string) (d : list (string * V)) : bool :=
  bool_decide (is_Some (dict_get k d)).
End Dict.

(** pyzbar's [Rect] and [Decoded]. *)
Record Rect := mkRect { r_left : Z; r_top : Z; r_width : Z; r_height : Z }.
Record Decoded := mkDecoded { d_data : bytes; d_rect : Rect }.

(** The result of a call that may raise. *)
Inductive outcome (A : Type) := Ok (a : A) | Raise.
Arguments Ok {A} a.
Arguments Raise {A}.

(** What PIL hands back for an image with EXIF: make, model and, when the
    four GPS fields are present, the location already formatted by
    [get_decimal_from_dms] and the [.5f] format (floating point, kept
    behind the interface). *)
Record exif_details :=
  mkExif { ex_make : string; ex_model : string; ex_gps : option string }.

(** An item of a ZIP archive as [infolist()] lists it.  [z_body] is what
    reading this very member yields ([Raise]: bad CRC, encrypted, ...). *)
Record zentry := mkZ { z_name : string; z_body : outcome bytes }.

(** A file descriptor of the Drive listing. *)
Record drive_item := mkItem {
  f_id : string;
  f_name : string;
  f_mime : string;
  f_created : jval;
  f_owners : list (option string)   (* displayName of each owner *)
}.

(** A media item of the legacy Photos listing. *)
Record media_item := mkMedia {
  p_filename : string;
  p_base_url : string;
  p_id : string;
  p_created : jval
}.

(* ===================================================================== *)
(** ** External collaborators *)
(* ===================================================================== *)

Class Platform := {
  image : Type;
  (** [cv2.imdecode(np.frombuffer(data, np.uint8), IMREAD_COLOR)]:
      [Ok None] for bytes that are no image, [Raise] e.g. for b''. *)
  cv_imdecode : bytes -> outcome (option image);
  (** [img.shape[:2]] = (height, width). *)
  img_shape : image -> Z * Z;
  (** [img[y1:y2, x1:x2]]. *)
  img_crop : image -> Z -> Z -> Z -> Z -> image;
  (** [cv2.cvtColor(img, COLOR_BGR2GRAY)]. *)
  cv_gray : image -> outcome image;
  (** [cv2.resize(img, (w, h), INTER_AREA)]. *)
  cv_resize : image -> Z -> Z -> outcome image;
  (** [int(h * (300.0 / w))], a floating-point computation. *)
  scaled_height : Z -> Z -> Z;
  (** whether [cv2.imwrite(path, img)] returns without raising. *)
  cv_imwrite_ok : string -> image -> bool;
  (** [pyzbar.decode]. *)
  zbar_decode : image -> outcome (list Decoded);
  (** [data.decode('utf-8')]. *)
  utf8_decode : bytes -> outcome string;
  (** [Image.open(BytesIO(data))._getexif()], digested. *)
  pil_exif : bytes -> outcome (option exif_details);
  (** [zipfile.ZipFile(fh).infolist()] / the bytes of a written archive. *)
  zip_parse : bytes -> outcome (list zentry);
  zip_build : list zentry -> bytes;
  (** the local file system as the run reads it. *)
  fs_exists : string -> bool;
  fs_read : string -> outcome bytes;
  (** whether [open(path, 'wb'/'w'/'a')] and the write succeed. *)
  fs_write_ok : string -> bool;
  (** whether [os.makedirs(path, exist_ok=True)] succeeds. *)
  fs_mkdir_ok : string -> bool;
  (** whether [files().update(fileId, media_body)] succeeds. *)
  drive_update_ok : string -> bytes -> bool;
  (** [files().create] + [permissions().create]: the new id, or [Raise]. *)
  drive_create : string -> string -> outcome jval;
  (** [files().get(fileId, fields=owners(displayName))]. *)
  drive_owners : string -> outcome (list (option string));
  (** [files().list(q = name = z_name ...)]: per file found, its owners. *)
  drive_find_by_name : string -> outcome (list (option (list (option string))));
  (** [requests.get(url)]: the content on status 200. *)
  http_get : string -> outcome (option bytes);
  (** [os.getcwd()], [datetime.now()] in its two formats. *)
  cwd : string;
  now_iso : string;
  now_minute : string;
  (** [THUMBS_FOLDER_ID] once [main] has looked it up. *)
  thumbs_folder_id : option string
}.

(* ===================================================================== *)
(** ** The world the run acts on *)
(* ===================================================================== *)

(** Effects the run leaves behind. *)
Inductive event :=
| EvDownload (file_id : string)                (* Drive get_media *)
| EvHttpGet (url : string)                     (* requests.get *)
| EvWriteFile (path : string) (data : bytes)   (* open(path,'wb').write *)
| EvImwrite (path : string)                    (* cv2.imwrite *)
| EvUpdate (file_id : string) (data : bytes)   (* files().update *)
| EvCreate (name : string) (path : string)     (* files().create *)
| EvSave (m : store)                           (* json.dump(mapping) *)
| EvSaveFailed                                 (* a save that raised *)
| EvFailLog (line : string).                   (* failed_scans.txt *)

Record world := mkWorld {
  w_mapping : store;                  (* the in-process mapping dict *)
  w_drive : list (string * bytes);    (* remote objects: file id -> bytes *)
  w_trace : list event                (* newest first *)
}.

(** Stateful code that may raise: the state survives the exception. *)
Definition M (A : Type) : Type := world -> outcome A * world.

Definition ret {A} (a : A) : M A := fun w => (Ok a, w).
Definition throw {A} : M A := fun w => (Raise, w).
Definition bind {A B} (m : M A) (k : A -> M B) : M B :=
  fun w =>
    match m w with
    | (Ok a, w') => k a w'
    | (Raise, w') => (Raise, w')
    end.

(** [try: m except Exception: h]. *)
Definition try_except {A} (m : M A) (h : M A) : M A :=
  fun w =>
    match m w with
    | (Ok a, w') => (Ok a, w')
    | (Raise, w') => h w'
    end.

Definition lift {A} (o : outcome A) : M A := fun w => (o, w).
Definition emit (e : event) : M unit :=
  fun w => (Ok tt, mkWorld (w_mapping w) (w_drive w) (e :: w_trace w)).
Definition emits (es : list event) : M unit :=
  fun w => (Ok tt, mkWorld (w_mapping w) (w_drive w) (es ++ w_trace w)).
Definition get_mapping : M store := fun w => (Ok (w_mapping w), w).
Definition set_mapping (m : store) : M unit :=
  fun w => (Ok tt, mkWorld m (w_drive w) (w_trace w)).
Definition get_drive : M (list (string * bytes)) :=
  fun w => (Ok (w_drive w), w).

(** The remote object [file_id] gets new contents. *)
Definition replace_remote (file_id : string) (data : bytes) : M unit :=
  fun w =>
    (Ok tt, mkWorld (w_mapping w) (dict_set file_id data (w_drive w)) (w_trace w)).

(** [mapping[k] = v], in place. *)
Definition assign (k : string) (v : entry) : M unit :=
  fun w => (Ok tt, mkWorld (dict_set k v (w_mapping w)) (w_drive w) (w_trace w)).

Declare Scope py_scope.
Delimit Scope py_scope with py.
Notation "'let*' x ':=' m 'in' k" := (bind m (fun x => k))
  (at level 10, x pattern, m at level 100, k at level 200) : py_scope.
Notation "m ';;' k" := (bind m (fun _ => k))
  (at level 100, k at level 200, right associativity) : py_scope.

(** [a, b = v] where [v] may be a bare [None]: TypeError. *)
Definition unpack2 {A B} (v : option (A * B)) : outcome (A * B) :=
  match v with
  | Some p => Ok p
  | None => Raise
  end.

(* ===================================================================== *)
(** ** String helpers of the Python standard library *)
(* ===================================================================== *)

Definition quote : string := String (ascii_of_nat 34) EmptyString.

Definition lower_ascii (c : ascii) : ascii :=
  let n := nat_of_ascii c in
  if (65 <=? n)%nat && (n <=? 90)%nat then ascii_of_nat (n + 32) else c.

(** [s.lower()], on the ASCII range (enough to decide an ASCII suffix). *)
Fixpoint lower (s : string) : string :=
  match s with
  | EmptyString => EmptyString
  | String c s' => String (lower_ascii c) (lower s')
  end.

Fixpoint starts_with (p s : string) : bool :=
  match p, s with
  | EmptyString, _ => true
  | String a p', String b s' => Ascii.eqb a b && starts_with p' s'
  | String _ _, EmptyString => false
  end.

(** [s.endswith(suf)]. *)
Definition ends_with (suf s : string) : bool :=
  starts_with (String.rev suf) (String.rev s).

(** [p in s] for strings. *)
Fixpoint contains (p s : string) : bool :=
  starts_with p s ||
  match s with
  | EmptyString => false
  | String _ s' => contains p s'
  end.

(** [os.path.basename] (POSIX): what follows the last slash. *)
Fixpoint basename_aux (acc s : string) : string :=
  match s with
  | EmptyString => acc
  | String c s' =>
      if Ascii.eqb c "/" then basename_aux EmptyString s'
      else basename_aux (acc ++ String c EmptyString) s'
  end.
Definition basename (s : string) : string := basename_aux EmptyString s.

(** [os.path.join(a, b)] (POSIX, two components). *)
Definition path_join (a b : string) : string :=
  if starts_with "/" b then b
  else if String.eqb a "" || ends_with "/" a then a ++ b
  else a ++ "/" ++ b.

Definition is_space (c : ascii) : bool :=
  let n := nat_of_ascii c in
  ((9 <=? n)%nat && (n <=? 13)%nat) || ((28 <=? n)%nat && (n <=? 32)%nat).

Fixpoint lstrip (s : string) : string :=
  match s with
  | EmptyString => EmptyString
  | String c s' => if is_space c then lstrip s' else s
  end.

(** [s.strip()]. *)
Definition strip (s : string) : string :=
  String.rev (lstrip (String.rev (lstrip s))).

(* ===================================================================== *)
(** ** Reporting Sink: the spreadsheet mirror ([log_to_gsheet]) *)
(* ===================================================================== *)

(** The values of a sheet: ragged rows of cells. *)
Abbreviation row := (list jval) (only parsing).
Abbreviation sheet := (list (list jval)) (only parsing).

Definition headers : list string :=
  ["Parchment ID"; "Original Filename"; "Captured Date"; "Sync Date";
   "Creator"; "Camera"; "Location"; "Image Preview"; "QR Preview"].

(** [for h in headers: if h not in current_headers: append(h)]. *)
Definition ensure_headers (current_headers : row) : row :=
  fold_left
    (fun hs h => if bool_decide (JStr h ∈ hs) then hs else hs ++ [JStr h])
    headers current_headers.

(** The index a dict comprehension over [enumerate] keeps for a key:
    the last one. *)
Fixpoint last_index {A} (p : A -> bool) (l : list A) : option nat :=
  match l with
  | [] => None
  | x :: l' =>
      match last_index p l' with
      | Some i => Some (S i)
      | None => if p x then Some 0%nat else None
      end
  end.

(** [col_map.get(name)]. *)
Definition col_of (header : row) (name : string) : option nat :=
  last_index (fun c => bool_decide (c = JStr name)) header.

(** [existing_ids.get(qid)], with
    [existing_ids = {row[id_col]: i for i, row in enumerate(rows)
                     if len(row) > id_col}]. *)
Definition row_of (rows : sheet) (id_col : nat) (qid : string) : option nat :=
  last_index (fun r => bool_decide (r !! id_col = Some (JStr qid))) rows.

(** [while len(row) <= target_col: row.append("")]
    [row[target_col] = val]. *)
Definition set_cell (target_col : nat) (val : jval) (r : row) : row :=
  <[target_col := val]>
    (r ++ replicate (S target_col - length r) (JStr "")).

Definition image_formula (id : jval) : jval :=
  match id with
  | JStr i =>
      if String.eqb i "" then JStr ""
      else JStr ("=IMAGE(" ++ quote ++ "https://drive.google.com/uc?id="
                 ++ i ++ quote ++ ")")
  | JNull => JStr ""
  end.

(** [row_data], in the order of the dict literal. *)
Definition row_data (sync_date : string) (qid : string) (item : entry)
  : list (string * jval) :=
  [("Parchment ID", JStr qid);
   ("Original Filename", get_or "filename" (JStr "Unknown") item);
   ("Captured Date", get_or "timestamp" (JStr "Unknown") item);
   ("Sync Date", JStr sync_date);
   ("Creator", get_or "creator" (JStr "Unknown") item);
   ("Camera", get_or "camera" (JStr "Unknown") item);
   ("Location", get_or "location" (JStr "Unknown") item);
   ("Image Preview", image_formula (get "drive_thumb_id" item));
   ("QR Preview", image_formula (get "drive_qr_id" item))].

(** [for col_name, val in row_data.items():
       if col_name in col_map: r[col_map[col_name]] = val]
    ([pad]: the existing-row branch pads a short row first). *)
Definition write_row (header : row) (data : list (string * jval)) (r : row)
  : row :=
  fold_left
    (fun r cv =>
       match col_of header (fst cv) with
       | Some target_col => set_cell target_col (snd cv) r
       | None => r
       end)
    data r.

(** One turn of [for qid in sorted(mapping.keys())]; [header] and
    [existing] are [rows[0]] and the rows as they were when [col_map] and
    [existing_ids] were built. *)
Definition mirror_entry (sync_date : string) (header : row) (existing : sheet)
    (id_col : nat) (rows : sheet) (qi : string * entry) : sheet :=
  let data := row_data sync_date (fst qi) (snd qi) in
  match row_of existing id_col (fst qi) with
  | Some row_idx =>
      match rows !! row_idx with
      | Some r => <[row_idx := write_row header data r]> rows
      | None => rows
      end
  | None =>
      rows ++ [write_row header data (replicate (length header) (JStr ""))]
  end.

(** Python's stable [sorted] with a string key, as an insertion sort. *)
Fixpoint insert_by {A} (key : A -> string) (x : A) (l : list A) : list A :=
  match l with
  | [] => [x]
  | y :: l' =>
      if String.leb (key x) (key y) then x :: y :: l'
      else y :: insert_by key x l'
  end.

Definition sorted_by {A} (key : A -> string) (l : list A) : list A :=
  foldr (insert_by key) [] l.

(** [x[id_col]] as a sort key.  A short row is an IndexError of the
    key function, which [sorted] calls on every row before it compares
    anything.  The cells that [values().get] returns are texts; a
    [None] cell in the identifier column cannot be compared with any
    key (a TypeError of [sorted] as soon as there are two data rows)
    and is taken as an exception for any number of rows. *)
Definition id_key (id_col : nat) (r : row) : option string :=
  match r !! id_col with
  | Some (JStr s) => Some s
  | _ => None
  end.

Definition id_key_or_empty (id_col : nat) (r : row) : string :=
  default "" (id_key id_col r).

(** [sorted(rows[1:], key=lambda x: x[id_col])]. *)
Definition sort_rows (id_col : nat) (data_rows : sheet) : outcome sheet :=
  if forallb (fun r => bool_decide (is_Some (id_key id_col r))) data_rows
  then Ok (sorted_by (id_key_or_empty id_col) data_rows)
  else Raise.

(** The entries in the order of [sorted(mapping.keys())]. *)
Definition sorted_items (mapping : store) : store :=
  sorted_by fst mapping.

(** Steps 1 to 4 of [log_to_gsheet] between the read of the sheet and
    the final write: the values written, or the exception. *)
Definition mirror (sync_date : string) (rows : sheet) (mapping : store)
  : outcome sheet :=
  let rows :=
    match rows with
    | [] => [map JStr headers]
    | current_headers :: data => ensure_headers current_headers :: data
    end in
  let header := default [] (head rows) in
  let id_col := default 0%nat (col_of header "Parchment ID") in
  let rows' :=
    fold_left (mirror_entry sync_date header rows id_col)
              (sorted_items mapping) rows in
  match sort_rows id_col (tail rows') with
  | Raise => Raise
  | Ok data_rows => Ok (default [] (head rows') :: data_rows)
  end.

Section Code.
Context `{P : Platform}.

Definition ASSETS_DIR : string := path_join cwd "assets".
Definition IMAGES_DIR : string := path_join ASSETS_DIR "images".
Definition THUMBS_DIR : string := path_join ASSETS_DIR "thumbnails".
Definition MAPPING_FILE : string := path_join ASSETS_DIR "photo_mapping.json".

(* =================================================================== *)
(** ** QR Matcher *)
(* =================================================================== *)

(** [detect_qr] of sync_parchment_data.py: the [try] block ... *)
Definition detect_qr_try (image_data : bytes)
  : outcome (option string * option Rect) :=
  match cv_imdecode image_data with
  | Raise => Raise
  | Ok None => Ok (None, None)
  | Ok (Some img) =>
      match zbar_decode img with
      | Raise => Raise
      | Ok [] => Ok (None, None)
      | Ok (q :: _) =>
          match utf8_decode (d_data q) with
          | Raise => Raise
          | Ok s => Ok (Some s, Some (d_rect q))
          end
      end
  end.

(** ... and its [except Exception: return None, None]. *)
Definition detect_qr (image_data : bytes) : option string * option Rect :=
  match detect_qr_try image_data with
  | Ok r => r
  | Raise => (None, None)
  end.

(** [int(x * 0.45)] for a pixel count [x]: the double 0.45 lies just
    above 9/20, so the product truncates to [9x / 20]. *)
Definition crop45 (x : Z) : Z := Z.quot (x * 45) 100.

(** The top-left region the legacy variant scans:
    [img[0:int(height * 0.45), 0:int(width * 0.45)]]. *)
Definition top_left_45 (img : image) : image :=
  img_crop img 0 (crop45 (fst (img_shape img))) 0 (crop45 (snd (img_shape img))).

(** [detect_qr] of the legacy variant: top-left 45% x 45%, a single
    return value, no exception handler. *)
Definition detect_qr_crop (image_bytes : bytes) : outcome (option string) :=
  match cv_imdecode image_bytes with
  | Raise => Raise
  | Ok None => Ok None
  | Ok (Some img) =>
      let '(height, width) := img_shape img in
      let crop := img_crop img 0 (crop45 height) 0 (crop45 width) in
      match cv_gray crop with
      | Raise => Raise
      | Ok gray =>
          match zbar_decode gray with
          | Raise => Raise
          | Ok [] => Ok None
          | Ok (q :: _) =>
              match utf8_decode (d_data q) with
              | Raise => Raise
              | Ok s => Ok (Some s)
              end
          end
      end
  end.

(* =================================================================== *)
(** ** Metadata Extractor *)
(* =================================================================== *)

Definition extract_exif (image_data : bytes) : string * string :=
  match pil_exif image_data with
  | Raise => ("Unknown", "Unknown")
  | Ok None => ("Unknown", "Unknown")
  | Ok (Some details) =>
      let camera := strip (ex_make details ++ " " ++ ex_model details) in
      let camera := if String.eqb camera "" then "Unknown" else camera in
      let location := default "Unknown" (ex_gps details) in
      (camera, location)
  end.

(* =================================================================== *)
(** ** Thumbnail Generator *)
(* =================================================================== *)

(** [int(x * 0.2)] for a pixel count [x]: the double 0.2 lies just
    above 1/5, so the product truncates to [x / 5]. *)
Definition pad20 (x : Z) : Z := Z.quot x 5.

(** The crop box [(y1, y2, x1, x2)] around a rectangle. *)
Definition qr_box (img_h img_w : Z) (rect : Rect) : Z * Z * Z * Z :=
  let l := r_left rect in
  let t := r_top rect in
  let w := r_width rect in
  let h := r_height rect in
  let pad_w := pad20 w in
  let pad_h := pad20 h in
  let y1 := Z.max 0 (t - pad_h) in
  let y2 := Z.min img_h (t + h + pad_h) in
  let x1 := Z.max 0 (l - pad_w) in
  let x2 := Z.min img_w (l + w + pad_w) in
  (y1, y2, x1, x2).

Definition thumb_path_of (qr_id : string) : string :=
  path_join THUMBS_DIR (qr_id ++ "_thumb.jpg").
Definition qr_path_of (qr_id : string) : string :=
  path_join THUMBS_DIR (qr_id ++ "_qr.jpg").

(** The body of the [try] of [generate_thumbnails]: [Ok None] is the
    bare [return], [Ok (Some _)] the [return thumb_path, qr_path],
    [Ok ... ] falling out of the [try] is [fall]; the files written so
    far come second. *)
Inductive thumbs_try :=
| TReturnNone                         (* return *)
| TReturn (t q : string)              (* return thumb_path, qr_path *)
| TFall                               (* end of try reached, or except *).

Definition generate_thumbnails_try (qr_id : string) (image_data : bytes)
    (rect : option Rect) : thumbs_try * list event :=
  match cv_imdecode image_data with
  | Raise => (TFall, [])
  | Ok None => (TReturnNone, [])
  | Ok (Some img) =>
      if negb (fs_mkdir_ok THUMBS_DIR) then (TFall, []) else
      let '(h, w) := img_shape img in
      if (w =? 0)%Z then (TFall, []) else          (* 300.0 / w *)
      match cv_resize img 300 (scaled_height h w) with
      | Raise => (TFall, [])
      | Ok thumb =>
          let thumb_path := thumb_path_of qr_id in
          if negb (cv_imwrite_ok thumb_path thumb) then (TFall, []) else
          match rect with
          | None => (TFall, [EvImwrite thumb_path])
          | Some r =>
              let '(y1, y2, x1, x2) := qr_box h w r in
              let qr_crop := img_crop img y1 y2 x1 x2 in
              let qr_path := qr_path_of qr_id in
              if negb (cv_imwrite_ok qr_path qr_crop)
              then (TFall, [EvImwrite thumb_path])
              else (TReturn thumb_path qr_path,
                    [EvImwrite qr_path; EvImwrite thumb_path])
          end
      end
  end.

(** [generate_thumbnails]: [None] is Python's bare [None]; whatever
    leaves the [try] without a [return] ends in [return None, None]. *)
Definition generate_thumbnails (qr_id : string) (image_data : bytes)
    (rect : option Rect)
  : option (option string * option string) * list event :=
  match generate_thumbnails_try qr_id image_data rect with
  | (TReturnNone, evs) => (None, evs)
  | (TReturn t q, evs) => (Some (Some t, Some q), evs)
  | (TFall, evs) => (Some (None, None), evs)
  end.

(* =================================================================== *)
(** ** Sync Orchestrator: the ZIP container variant *)
(* =================================================================== *)

Definition image_exts : list string :=
  [".jpg"; ".jpeg"; ".png"; ".tiff"; ".webp"].

(** [img_name.lower().endswith(image_exts)]. *)
Definition is_image_name (img_name : string) : bool :=
  existsb (fun e => ends_with e (lower img_name)) image_exts.

(** [z_item.is_dir()]. *)
Definition is_dir_name (img_name : string) : bool := ends_with "/" img_name.

(** [z_old.open(name)] / [z_old.read(name)]: the member is looked up by
    NAME, and zipfile's name table keeps the last member of that name. *)
Definition zip_read (z_old : list zentry) (name : string) : outcome bytes :=
  match last (filter (fun e => z_name e = name) z_old) with
  | Some e => z_body e
  | None => Raise
  end.

(** [any(m.get('filename') == os.path.basename(img_name)
        for m in mapping.values())]. *)
Definition already_captured (mapping : store) (img_name : string) : bool :=
  existsb (fun m => bool_decide (get "filename" m = JStr (basename img_name)))
          (dict_values mapping).

(** [service.files().get_media(fileId=...)] and the chunk loop. *)
Definition download (file_id : string) : M bytes :=
  (emit (EvDownload file_id) ;;
   let* drive := get_drive in
   match dict_get file_id drive with
   | Some data => ret data
   | None => throw
   end)%py.

(** [open(path, 'wb').write(data)]. *)
Definition write_local (path : string) (data : bytes) : M unit :=
  if fs_write_ok path then emit (EvWriteFile path data) else throw.

(** [t_path, q_path = generate_thumbnails(qr_id, img_data, rect)]. *)
Definition thumbnails (qr_id : string) (img_data : bytes)
    (rect : option Rect) : M (option string * option string) :=
  (let '(r, evs) := generate_thumbnails qr_id img_data rect in
   emits evs ;; lift (unpack2 r))%py.

Definition is_match (qr_id : option string) : option string :=
  match qr_id with
  | Some s => if String.eqb s "" then None else Some s
  | None => None
  end.

Definition zip_entry (img_name file_name local_path : string)
    (t_path q_path : option string) (creator cam loc : string) : entry :=
  list_to_map
    [("filename", JStr (basename img_name));
     ("source_zip", JStr file_name);
     ("timestamp", JStr now_iso);
     ("local_path", JStr local_path);
     ("thumb_path", jopt t_path);
     ("qr_path", jopt q_path);
     ("creator", JStr creator);
     ("camera", JStr cam);
     ("location", JStr loc)].

(** The loop variables of [process_zip]. *)
Record zip_acc := mkAcc {
  a_new : list zentry;        (* members written to z_new, in order *)
  a_matches : nat;            (* new_matches *)
  a_removed : bool            (* duplicates_removed *)
}.

Definition writestr (z_item : zentry) (data : bytes) (acc : zip_acc)
  : zip_acc :=
  mkAcc (a_new acc ++ [mkZ (z_name z_item) (Ok data)])
        (a_matches acc) (a_removed acc).

(** One turn of [for z_item in z_old.infolist()]. *)
Definition process_zip_item (z_old : list zentry) (file_name creator : string)
    (z_item : zentry) (acc : zip_acc) : M zip_acc :=
  (let img_name := z_name z_item in
   if is_dir_name img_name then ret (writestr z_item "" acc)
   else if is_image_name img_name then
     let* mapping := get_mapping in
     if negb (already_captured mapping img_name) then
       let* img_data := lift (zip_read z_old img_name) in
       let '(qr, rect) := detect_qr img_data in
       match is_match qr with
       | Some qr_id =>
           let local_path := path_join IMAGES_DIR (qr_id ++ ".jpg") in
           write_local local_path img_data ;;
           let* tq := thumbnails qr_id img_data rect in
           let '(cam, loc) := extract_exif img_data in
           assign qr_id
             (zip_entry img_name file_name local_path (fst tq) (snd tq)
                        creator cam loc) ;;
           ret (mkAcc (a_new acc) (S (a_matches acc)) true)
       | None => ret (writestr z_item img_data acc)
       end
     else ret (mkAcc (a_new acc) (a_matches acc) true)
   else
     let* data := lift (zip_read z_old img_name) in
     ret (writestr z_item data acc))%py.

Fixpoint process_zip_items (z_old : list zentry) (file_name creator : string)
    (items : list zentry) (acc : zip_acc) : M zip_acc :=
  match items with
  | [] => ret acc
  | z_item :: rest =>
      (let* acc' := process_zip_item z_old file_name creator z_item acc in
       process_zip_items z_old file_name creator rest acc')%py
  end.

(** [service.files().update(fileId=file_id, media_body=media)]. *)
Definition drive_update (file_id : string) (data : bytes) : M unit :=
  if drive_update_ok file_id data then
    (replace_remote file_id data ;; emit (EvUpdate file_id data))%py
  else throw.

(** The [try] block of [process_zip]. *)
Definition process_zip_body (file_id file_name creator : string) : M nat :=
  (let* fh := download file_id in
   let* z_old := lift (zip_parse fh) in
   let* acc := process_zip_items z_old file_name creator z_old
                                 (mkAcc [] 0 false) in
   (if a_removed acc then drive_update file_id (zip_build (a_new acc))
    else ret tt) ;;
   ret (a_matches acc))%py.

Definition process_zip (file_id file_name creator : string) : M nat :=
  try_except (process_zip_body file_id file_name creator) (ret 0%nat).

(* =================================================================== *)
(** ** Sync Orchestrator: the folder loop *)
(* =================================================================== *)

(** [owners[0].get('displayName', 'Unknown') if owners else 'Unknown']. *)
Definition creator_of (owners : list (option string)) : string :=
  match owners with
  | [] => "Unknown"
  | o :: _ => default "Unknown" o
  end.

(** [any(m.get('drive_id') == file_id for m in mapping.values())]. *)
Definition already_synced (mapping : store) (file_id : string) : bool :=
  existsb (fun m => bool_decide (get "drive_id" m = JStr file_id))
          (dict_values mapping).

Definition drive_entry (item : drive_item) (local_path : string)
    (t_path q_path : option string) (creator cam loc : string) : entry :=
  list_to_map
    [("filename", JStr (f_name item));
     ("drive_id", JStr (f_id item));
     ("timestamp", f_created item);
     ("local_path", JStr local_path);
     ("thumb_path", jopt t_path);
     ("qr_path", jopt q_path);
     ("creator", JStr creator);
     ("camera", JStr cam);
     ("location", JStr loc)].

(** The [try] block around one image of the folder. *)
Definition process_image (item : drive_item) (creator : string)
    (match_count : nat) : M nat :=
  (let* img_data := download (f_id item) in
   let '(qr, rect) := detect_qr img_data in
   match is_match qr with
   | Some qr_id =>
       let local_path := path_join IMAGES_DIR (qr_id ++ ".jpg") in
       write_local local_path img_data ;;
       let* tq := thumbnails qr_id img_data rect in
       let '(cam, loc) := extract_exif img_data in
       assign qr_id
         (drive_entry item local_path (fst tq) (snd tq) creator cam loc) ;;
       ret (S match_count)
   | None => ret match_count
   end)%py.

(** One turn of [for item in items]. *)
Definition process_item (item : drive_item) (match_count : nat) : M nat :=
  (let creator := creator_of (f_owners item) in
   if contains "zip" (f_mime item) then
     let* n := process_zip (f_id item) (f_name item) creator in
     ret (match_count + n)%nat
   else
     let* mapping := get_mapping in
     if already_synced mapping (f_id item) then ret match_count
     else try_except (process_image item creator match_count)
                     (ret match_count))%py.

Fixpoint process_items (items : list drive_item) (match_count : nat)
  : M nat :=
  match items with
  | [] => ret match_count
  | item :: rest =>
      (let* c := process_item item match_count in process_items rest c)%py
  end.

(** [process_folder]: the listing arrives page by page; an empty page
    ends the loop, and so does a page without a next-page token (the
    last one of [pages]). *)
Fixpoint process_pages (pages : list (list drive_item)) (match_count : nat)
  : M nat :=
  match pages with
  | [] => ret match_count
  | [] :: _ => ret match_count
  | items :: rest =>
      (let* c := process_items items match_count in process_pages rest c)%py
  end.

Definition process_folder (pages : list (list drive_item)) : M nat :=
  process_pages pages 0%nat.

(* =================================================================== *)
(** ** Healing pass (step 3 of [main]) *)
(* =================================================================== *)

(** Which re-computation a healing turn performed. *)
Inductive heal_step := RegenThumbs | ReadExif | LookupCreator.

(** The loop state of one turn: the entry being healed (mutated in
    place), [needs_heal], the files written and the steps taken. *)
Record heal_st := mkHeal {
  hs_item : entry;
  hs_needs : bool;
  hs_events : list event;
  hs_steps : list heal_step
}.

(** [os.path.exists(local_img)]: a [None] path is a TypeError. *)
Definition path_exists (local_img : jval) : outcome bool :=
  match local_img with
  | JNull => Raise
  | JStr p => Ok (fs_exists p)
  end.

(** 3b, first [if] of the [try]: thumbnails.  [None] is an exception
    (the unpacking of a bare [None]). *)
Definition heal_thumbs (qid : string) (img_data : bytes) (st : heal_st)
  : option heal_st :=
  if negb (truthy (get "thumb_path" (hs_item st))) then
    let '(_, rect) := detect_qr img_data in
    let '(r, evs) := generate_thumbnails qid img_data rect in
    match unpack2 r with
    | Raise => None
    | Ok (t_path, q_path) =>
        Some (mkHeal (<["qr_path" := jopt q_path]>
                        (<["thumb_path" := jopt t_path]> (hs_item st)))
                     true (evs ++ hs_events st)
                     (RegenThumbs :: hs_steps st))
    end
  else Some st.

(** 3b, second [if] of the [try]: camera and location. *)
Definition heal_exif (img_data : bytes) (st : heal_st) : heal_st :=
  let camera := get "camera" (hs_item st) in
  if negb (truthy camera) || bool_decide (camera = JStr "Unknown") then
    let '(cam, loc) := extract_exif img_data in
    mkHeal (<["location" := JStr loc]>
              (<["camera" := JStr cam]> (hs_item st)))
           true (hs_events st) (ReadExif :: hs_steps st)
  else st.

(** 3a/3b for an entry whose local image exists. *)
Definition heal_media (qid : string) (local_img : string) (st : heal_st)
  : heal_st :=
  let item := hs_item st in
  if negb (truthy (get "thumb_path" item)) || negb (truthy (get "camera" item))
  then
    match fs_read local_img with
    | Raise => st
    | Ok img_data =>
        match heal_thumbs qid img_data st with
        | None => st
        | Some st' => heal_exif img_data st'
        end
    end
  else st.

(** [zip_owners[z_name]], filled on first use. *)
Definition zip_owner (z_name : string) (zip_owners : list (string * string))
  : outcome (string * list (string * string)) :=
  match dict_get z_name zip_owners with
  | Some c => Ok (c, zip_owners)
  | None =>
      match drive_find_by_name z_name with
      | Raise => Raise
      | Ok [] => Ok ("Unknown", dict_set z_name "Unknown" zip_owners)
      | Ok (None :: _) =>              (* no 'owners' key: [{}][0] *)
          Ok ("Unknown", dict_set z_name "Unknown" zip_owners)
      | Ok (Some [] :: _) => Raise     (* [][0] *)
      | Ok (Some (o :: _) :: _) =>
          let c := default "Unknown" o in
          Ok (c, dict_set z_name c zip_owners)
      end
  end.

(** The [try] block of 3c: the creator found and the cache. *)
Definition find_creator (item : entry) (zip_owners : list (string * string))
  : outcome (string * list (string * string)) :=
  if truthy (get "drive_id" item) then
    match get "drive_id" item with
    | JStr drive_id =>
        match drive_owners drive_id with
        | Raise => Raise
        | Ok owners => Ok (creator_of owners, zip_owners)
        end
    | JNull => Raise
    end
  else if truthy (get "source_zip" item) then
    match get "source_zip" item with
    | JStr z_name => zip_owner z_name zip_owners
    | JNull => Raise
    end
  else Ok ("Unknown", zip_owners).

(** 3c. *)
Definition heal_creator (zip_owners : list (string * string)) (st : heal_st)
  : heal_st * list (string * string) :=
  let creator := get "creator" (hs_item st) in
  if negb (truthy creator) || bool_decide (creator = JStr "Unknown") then
    match find_creator (hs_item st) zip_owners with
    | Raise => (mkHeal (hs_item st) (hs_needs st) (hs_events st)
                       (LookupCreator :: hs_steps st), zip_owners)
    | Ok (c, zip_owners') =>
        if negb (String.eqb c "Unknown") then
          (mkHeal (<["creator" := JStr c]> (hs_item st)) true (hs_events st)
                  (LookupCreator :: hs_steps st), zip_owners')
        else
          (mkHeal (hs_item st) (hs_needs st) (hs_events st)
                  (LookupCreator :: hs_steps st), zip_owners')
    end
  else (st, zip_owners).

(** One turn of [for qid, item in mapping.items()]. *)
Definition heal_entry (zip_owners : list (string * string)) (qid : string)
    (item : entry) : outcome (heal_st * list (string * string)) :=
  let st := mkHeal item false [] [] in
  match path_exists (get_or "local_path" (JStr "") item) with
  | Raise => Raise
  | Ok ex =>
      let st :=
        if ex then
          match get_or "local_path" (JStr "") item with
          | JStr local_img => heal_media qid local_img st
          | JNull => st
          end
        else st in
      Ok (heal_creator zip_owners st)
  end.

(** The whole loop.  [hp_raised] tells that a turn raised: the entries
    before it are healed, the others are as they were, and the
    exception leaves [main]. *)
Record heal_pass_result := mkPass {
  hp_store : store;
  hp_healed : nat;
  hp_events : list event;
  hp_steps : list (string * heal_step);
  hp_raised : bool
}.

Fixpoint heal_loop (zip_owners : list (string * string)) (todo : store)
  : heal_pass_result :=
  match todo with
  | [] => mkPass [] 0 [] [] false
  | (qid, item) :: rest =>
      match heal_entry zip_owners qid item with
      | Raise => mkPass ((qid, item) :: rest) 0 [] [] true
      | Ok (st, zip_owners') =>
          let r := heal_loop zip_owners' rest in
          mkPass ((qid, hs_item st) :: hp_store r)
                 ((if hs_needs st then 1 else 0) + hp_healed r)
                 (hp_events r ++ hs_events st)
                 (hp_steps r ++ map (pair qid) (hs_steps st))
                 (hp_raised r)
      end
  end.

Definition heal_pass (mapping : store) : heal_pass_result :=
  heal_loop [] mapping.

(** The pass as a step of [main]. *)
Definition heal : M nat :=
  (let* mapping := get_mapping in
   let r := heal_pass mapping in
   set_mapping (hp_store r) ;;
   emits (hp_events r) ;;
   if hp_raised r then throw else ret (hp_healed r))%py.

(** *** The healing pass seen from the entries alone *)

(** What 3b does to the entry. *)
Definition media_of (qid local_img : string) (item : entry) : entry :=
  hs_item (heal_media qid local_img (mkHeal item false [] [])).

(** What 3c does to the entry when nothing is cached. *)
Definition creator_fix (item : entry) : entry :=
  hs_item (fst (heal_creator [] (mkHeal item false [] []))).

(** What one turn does to the entry. *)
Definition entry_fix (qid : string) (item : entry) : entry :=
  creator_fix
    match get_or "local_path" (JStr "") item with
    | JStr local_img =>
        if fs_exists local_img then media_of qid local_img item else item
    | JNull => item
    end.

(** What the pass does to the store: it stops at the first entry whose
    [local_path] is [None]. *)
Fixpoint heal_store (mapping : store) : store :=
  match mapping with
  | [] => []
  | (qid, item) :: rest =>
      match get_or "local_path" (JStr "") item with
      | JNull => (qid, item) :: rest
      | JStr _ => (qid, entry_fix qid item) :: heal_store rest
      end
  end.

(** Whether the pass raises: some entry has a [None] [local_path]. *)
Definition heal_raises (mapping : store) : bool :=
  existsb (fun qi => bool_decide (get_or "local_path" (JStr "") (snd qi) = JNull))
          mapping.

(** A cache of ZIP owners that only holds what the lookup returns. *)
Definition cache_ok (zip_owners : list (string * string)) : Prop :=
  forall z_name c,
    dict_get z_name zip_owners = Some c ->
    exists zip_owners', zip_owner z_name [] = Ok (c, zip_owners').

(** A field that needs no healing: present, non-empty and not the
    sentinel. *)
Definition populated_field (v : jval) : bool :=
  truthy v && negb (bool_decide (v = JStr "Unknown")).

Definition healed_fields : list string :=
  ["local_path"; "thumb_path"; "qr_path"; "camera"; "location"; "creator"].

Definition fully_populated (item : entry) : bool :=
  forallb (fun k => populated_field (get k item)) healed_fields.

(* =================================================================== *)
(** ** Upload backfill and save (steps 4 and 5 of [main]) *)
(* =================================================================== *)

(** [upload_thumbnail]; the events are the uploads performed. *)
Definition upload_thumbnail (local_path : jval) (qr_id thumb_type : string)
  : jval * list event :=
  if negb (truthy (jopt thumbs_folder_id)) then (JNull, [])
  else
    match local_path with
    | JNull => (JNull, [])                        (* io.FileIO(None) *)
    | JStr path =>
        let name := (qr_id ++ "_" ++ thumb_type ++ ".jpg")%string in
        match drive_create name path with
        | Raise => (JNull, [])
        | Ok id => (id, [EvCreate name path])
        end
    end.

Definition backfill_entry (qid : string) (item : entry)
  : entry * list event :=
  let '(item1, ev1) :=
    if truthy (get "thumb_path" item) && negb (truthy (get "drive_thumb_id" item))
    then let '(id, ev) := upload_thumbnail (get "thumb_path" item) qid "thumb" in
         (<["drive_thumb_id" := id]> item, ev)
    else (item, []) in
  let '(item2, ev2) :=
    if truthy (get "qr_path" item1) && negb (truthy (get "drive_qr_id" item1))
    then let '(id, ev) := upload_thumbnail (get "qr_path" item1) qid "qr" in
         (<["drive_qr_id" := id]> item1, ev)
    else (item1, []) in
  (item2, ev2 ++ ev1).

Fixpoint backfill_loop (todo : store) : store * list event :=
  match todo with
  | [] => ([], [])
  | (qid, item) :: rest =>
      let '(item', ev) := backfill_entry qid item in
      let '(rest', evs) := backfill_loop rest in
      ((qid, item') :: rest', evs ++ ev)
  end.

Definition backfill : M unit :=
  (let* mapping := get_mapping in
   let '(mapping', evs) := backfill_loop mapping in
   set_mapping mapping' ;; emits evs)%py.

(** [with open(path, 'w') as f: json.dump(mapping, f)].  [open]
    empties the file before [json.dump] writes to it: a save that
    raises may leave the file as it was (when [open] itself raised),
    empty, or with a part of the text. *)
Definition save_json (path : string) : M unit :=
  (let* mapping := get_mapping in
   if fs_write_ok path then emit (EvSave mapping)
   else emit EvSaveFailed ;; throw)%py.

Fixpoint sync_folders (folders : list (list (list drive_item)))
    (total_matches : nat) : M nat :=
  match folders with
  | [] => ret total_matches
  | pages :: rest =>
      (let* n := process_folder pages in
       sync_folders rest (total_matches + n)%nat)%py
  end.

(** [main] from step 2 (the folders of TARGET_FOLDERS, each with its
    listing) to step 5 (save). *)
Definition main_sync (folders : list (list (list drive_item))) : M nat :=
  (let* total_matches := sync_folders folders 0%nat in
   let* _ := heal in
   backfill ;;
   try_except (save_json MAPPING_FILE) (ret tt) ;;
   ret total_matches)%py.

(* =================================================================== *)
(** ** The legacy album loop ([sync_album] of the Photos variant) *)
(* =================================================================== *)

Definition FAILED_LOG : string := path_join cwd "failed_scans.txt".

(** [download_image(url)]: the content, or [None]. *)
Definition download_image (url : string) : M (option bytes) :=
  (emit (EvHttpGet url) ;;
   match http_get url with
   | Ok (Some content) => ret (Some content)
   | _ => ret None
   end)%py.

(** [download_image(url, save_path=...)] with a non-empty [save_path]:
    [True], or [None] (a failed write is caught inside). *)
Definition download_image_to (url save_path : string) : M bool :=
  (emit (EvHttpGet url) ;;
   match http_get url with
   | Ok (Some content) =>
       if fs_write_ok save_path
       then emit (EvWriteFile save_path content) ;; ret true
       else ret false
   | _ => ret false
   end)%py.

(** [for qr_data, meta in mapping.items():
       if meta.get('google_id') == google_id: ...]. *)
Definition already_scanned (mapping : store) (google_id : string) : bool :=
  existsb (fun m => bool_decide (get "google_id" m = JStr google_id))
          (dict_values mapping).

Definition album_entry (item : media_item) (archive_name local_path_rel : string)
  : entry :=
  list_to_map
    [("filename", JStr (p_filename item));
     ("google_url", JStr (p_base_url item));
     ("google_id", JStr (p_id item));
     ("timestamp", p_created item);
     ("archive", JStr archive_name);
     ("local_path", JStr local_path_rel)].

(** One turn of [for item in items] of [sync_album] (the batch report,
    which never touches the mapping, is left out). *)
Definition sync_album_item (archive_name : string) (item : media_item)
  : M unit :=
  (let* mapping := get_mapping in
   if already_scanned mapping (p_id item) then ret tt
   else
     let* img := download_image (p_base_url item ++ "=w1000") in
     match img with
     | None => ret tt
     | Some "" => ret tt
     | Some img_bytes =>
         let* qr := lift (detect_qr_crop img_bytes) in
         match is_match qr with
         | Some qr_code =>
             let local_filename := (qr_code ++ ".jpg")%string in
             let local_path_rel :=
               path_join (path_join "assets" "images") local_filename in
             let local_path_abs := path_join IMAGES_DIR local_filename in
             let* ok := download_image_to (p_base_url item ++ "=d")
                                          local_path_abs in
             if ok then
               assign qr_code
                 (album_entry item archive_name local_path_rel) ;;
               save_json MAPPING_FILE
             else ret tt
         | None =>
             if fs_write_ok FAILED_LOG then
               emit (EvFailLog (p_filename item ++ " | " ++ archive_name
                                ++ " | " ++ p_base_url item))
             else throw
         end
     end)%py.

Fixpoint sync_album_items (archive_name : string) (items : list media_item)
  : M unit :=
  match items with
  | [] => ret tt
  | item :: rest =>
      (sync_album_item archive_name item ;;
       sync_album_items archive_name rest)%py
  end.

Fixpoint sync_album (archive_name : string) (pages : list (list media_item))
  : M unit :=
  match pages with
  | [] => ret tt
  | [] :: _ => ret tt
  | items :: rest =>
      (sync_album_items archive_name items ;;
       sync_album archive_name rest)%py
  end.

(** [log_to_gsheet]: the values of the sheet after the call, given the
    values read.  A placeholder id skips the call; an exception is
    logged and leaves what had been written before it. *)
Definition log_to_gsheet (sheet_id : string) (rows : sheet) (mapping : store)
  : sheet :=
  if String.eqb sheet_id "" || contains "PASTE" sheet_id then rows
  else
    match mirror now_minute rows mapping with
    | Ok final_rows => final_rows
    | Raise =>
        match rows with
        | [] => [map JStr headers]
        | _ => rows
        end
    end.
End Code.

(* ===================================================================== *)
(** ** A small concrete platform, to run the code on examples *)
(* ===================================================================== *)

(** A picture is its size and the codes visible in it. *)
Record toy_image := mkToy {
  ti_height : Z;
  ti_width : Z;
  ti_codes : list Decoded
}.

Definition rect_inside (y2 x2 : Z) (q : Decoded) : bool :=
  let r := d_rect q in
  ((0 <=? r_left r) && (0 <=? r_top r) &&
   (r_left r + r_width r <=? x2) && (r_top r + r_height r <=? y2))%Z.

Definition toy_crop (img : toy_image) (y1 y2 x1 x2 : Z) : toy_image :=
  mkToy (Z.max 0 (Z.min y2 (ti_height img) - y1))
        (Z.max 0 (Z.min x2 (ti_width img) - x1))
        (filter (fun q => rect_inside y2 x2 q = true) (ti_codes img)).

Definition toy_nonempty (img : toy_image) : bool :=
  ((0 <? ti_height img) && (0 <? ti_width img))%Z.

(** The platform in which [pictures] are the byte strings that decode to
    an image, [archives] those that open as a ZIP, [files] the local
    files, and every write succeeds.  As with OpenCV, decoding an empty
    buffer and converting an empty crop raise. *)
Definition toy_platform (pictures : list (string * toy_image))
    (archives : list (string * list zentry))
    (files : list (string * string)) : Platform :=
  {| image := toy_image;
     cv_imdecode := fun data =>
       if String.eqb data "" then Raise else Ok (dict_get data pictures);
     img_shape := fun img => (ti_height img, ti_width img);
     img_crop := toy_crop;
     cv_gray := fun img => if toy_nonempty img then Ok img else Raise;
     cv_resize := fun img w h =>
       if ((0 <? w) && (0 <? h))%Z then Ok (mkToy h w (ti_codes img))
       else Raise;
     scaled_height := fun h w => (h * 300 / w)%Z;
     cv_imwrite_ok := fun _ img => toy_nonempty img;
     zbar_decode := fun img => Ok (ti_codes img);
     utf8_decode := fun data => Ok data;
     pil_exif := fun _ => Ok None;
     zip_parse := fun data =>
       match dict_get data archives with
       | Some z => Ok z
       | None => Raise
       end;
     zip_build := fun z =>
       String.concat "|"
         ("ZIP" :: map (fun e => (z_name e ++ "=" ++
                                  match z_body e with
                                  | Ok data => data
                                  | Raise => "?"
                                  end)%string) z);
     fs_exists := fun path => dict_has path files;
     fs_read := fun path =>
       match dict_get path files with
       | Some data => Ok data
       | None => Raise
       end;
     fs_write_ok := fun _ => true;
     fs_mkdir_ok := fun _ => true;
     drive_update_ok := fun _ _ => true;
     drive_create := fun name _ => Ok (JStr ("id-" ++ name));
     drive_owners := fun _ => Ok [];
     drive_find_by_name := fun _ => Ok [];
     http_get := fun url => Ok (dict_get url files);
     cwd := "/srv";
     now_iso := "2026-01-01T00:00:00";
     now_minute := "2026-01-01 00:00";
     thumbs_folder_id := None |}.

Definition run {A} (m : M A) (w : world) : outcome A * world := m w.

(** What a computation may do to the world, whatever its input: a
    relation between the world before and the world after. *)
Definition always {A} (R : world -> world -> Prop) (m : M A) : Prop :=
  forall w, R w (snd (m w)).

(** Neither a save of the store nor an attempt at one. *)
Definition not_save (e : event) : Prop :=
  match e with
  | EvSave _ | EvSaveFailed => False
  | _ => True
  end.

(** The trace grew by events that satisfy [allowed]. *)
Definition trace_ext (allowed : event -> Prop) (w w' : world) : Prop :=
  exists new, w_trace w' = new ++ w_trace w /\ Forall allowed new.

(** The remote objects are what they were. *)
Definition keeps_drive (w w' : world) : Prop := w_drive w' = w_drive w.

(** The store changed by assignments under non-empty keys only. *)
Inductive store_steps (m : store) : store -> Prop :=
| steps_refl : store_steps m m
| steps_assign m' k v :
    store_steps m m' -> k <> "" -> store_steps m (dict_set k v m').

Definition assigns_only (w w' : world) : Prop :=
  store_steps (w_mapping w) (w_mapping w').

(** The store last written in full to the mapping file by the run, if
    any. *)
Fixpoint saved_store (trace : list event) : option store :=
  match trace with
  | [] => None
  | EvSave m :: _ => Some m
  | _ :: rest => saved_store rest
  end.

(** What is known of the mapping file. *)
Inductive file_state :=
| NoFile                (* [os.path.exists(MAPPING_FILE)] is false *)
| Holds (m : store)     (* the text [json.dump] wrote for [m], in full *)
| Broken.               (* a save raised: as before, empty or partial *)

(** The mapping file after the events of [trace] (newest first), for a
    process that found it as [initial]. *)
Fixpoint mapping_file (initial : file_state) (trace : list event)
  : file_state :=
  match trace with
  | [] => initial
  | EvSave m :: _ => Holds m
  | EvSaveFailed :: _ => Broken
  | _ :: rest => mapping_file initial rest
  end.

(** [load_json(MAPPING_FILE)] is sure to return [m]: an absent file
    loads as the empty store; nothing is sure of a file a save broke. *)
Definition loads_as (f : file_state) (m : store) : Prop :=
  match f with
  | NoFile => m = []
  | Holds m' => m = m'
  | Broken => False
  end.

(** The mapping file loads as the store in memory. *)
Definition file_up_to_date (initial : file_state) (w : world) : Prop :=
  loads_as (mapping_file initial (w_trace w)) (w_mapping w).

(** The last thing the run did is a save that raised, of a store one
    assignment ahead of what the file loaded as until then. *)
Definition save_cut_short (initial : file_state) (w : world) : Prop :=
  exists k v m trace,
    w_trace w = EvSaveFailed :: trace /\
    loads_as (mapping_file initial trace) m /\
    w_mapping w = dict_set k v m.


(** Sample data: a 600 x 400 photograph showing the code P1. *)
Definition photo_A : toy_image :=
  mkToy 400 600 [mkDecoded "P1" (mkRect 10 10 50 50)].

(** A platform with that photograph, also stored as the local image of
    P1, and no archive. *)
Definition studio : Platform :=
  toy_platform [("photo-A", photo_A)] []
               [("/srv/assets/images/P1.jpg", "photo-A")].

(** A second photograph of the same specimen: it shows P1 too. *)
Definition photo_B : toy_image :=
  mkToy 300 450 [mkDecoded "P1" (mkRect 20 15 40 40)].

(** A photograph with no code in it. *)
Definition photo_C : toy_image := mkToy 300 450 [].

(** A photograph of another specimen, P2. *)
Definition photo_D : toy_image :=
  mkToy 300 450 [mkDecoded "P2" (mkRect 5 5 60 60)].

Definition gallery : Platform :=
  toy_platform [("photo-A", photo_A); ("photo-B", photo_B);
                ("photo-C", photo_C); ("photo-D", photo_D)]
               [] [("https://photos/a=w1000", "photo-A");
                   ("https://photos/a=d", "photo-A");
                   ("https://photos/d=w1000", "photo-D");
                   ("https://photos/d=d", "photo-D")].

Definition item_a : drive_item :=
  mkItem "id-a" "IMG_1.jpg" "image/jpeg" (JStr "2026-01-01T10:00:00Z") [Some "Ann"].
Definition item_b : drive_item :=
  mkItem "id-b" "IMG_2.jpg" "image/jpeg" (JStr "2026-01-01T10:01:00Z") [Some "Bob"].
Definition item_c : drive_item :=
  mkItem "id-c" "IMG_3.jpg" "image/jpeg" (JStr "2026-01-01T10:02:00Z") [].

Definition item_d : drive_item :=
  mkItem "id-d" "IMG_4.jpg" "image/jpeg" (JStr "2026-01-01T10:03:00Z") [Some "Ann"].

(** A Drive folder holding the four photographs, and an empty store. *)
Definition fresh_world : world :=
  mkWorld [] [("id-a", "photo-A"); ("id-b", "photo-B"); ("id-c", "photo-C");
              ("id-d", "photo-D")] [].

(** An archive a contributor uploaded: a directory, a text file, a
    photograph of P1 and a photograph without a code. *)
Definition archive_1 : list zentry :=
  [mkZ "docs/" (Ok ""); mkZ "docs/notes.txt" (Ok "first draft");
   mkZ "scans/scan1.jpg" (Ok "photo-A"); mkZ "scans/blank.jpg" (Ok "photo-C")].

(** An archive with two members of the same name. *)
Definition archive_dup : list zentry :=
  [mkZ "notes.txt" (Ok "first"); mkZ "notes.txt" (Ok "second");
   mkZ "scan1.jpg" (Ok "photo-A")].

(** An archive with a member that cannot be read. *)
Definition archive_bad : list zentry :=
  [mkZ "scan1.jpg" (Ok "photo-A"); mkZ "broken.bin" Raise].

Definition bundle : Platform :=
  toy_platform [("photo-A", photo_A); ("photo-C", photo_C)]
               [("zip-bytes-1", archive_1); ("zip-bytes-dup", archive_dup);
                ("zip-bytes-bad", archive_bad)] [].

Definition zip_world : world :=
  mkWorld [] [("zip-1", "zip-bytes-1"); ("zip-2", "zip-bytes-dup");
              ("zip-3", "zip-bytes-bad")] [].


(** The same photographs as media items of a Photos album. *)
Definition media_a : media_item :=
  mkMedia "IMG_1.jpg" "https://photos/a" "gid-a" (JStr "2026-01-01T10:00:00Z").
Definition media_d : media_item :=
  mkMedia "IMG_4.jpg" "https://photos/d" "gid-d" (JStr "2026-01-01T10:03:00Z").

(** An entry with a known location and no camera yet. *)
Definition entry_without_camera : entry :=
  list_to_map
    [("filename", JStr "IMG_1.jpg");
     ("drive_id", JStr "id-1");
     ("local_path", JStr "/srv/assets/images/P1.jpg");
     ("thumb_path", JStr "/srv/assets/thumbnails/P1_thumb.jpg");
     ("qr_path", JStr "/srv/assets/thumbnails/P1_qr.jpg");
     ("creator", JStr "Ann");
     ("location", JStr "51.50000, -0.12000")].

(** The same with every field populated. *)
Definition entry_complete : entry :=
  <["camera" := JStr "Canon EOS"]> entry_without_camera.

Definition sample_store : store :=
  [("P1", entry_without_camera); ("P2", entry_complete)].

(** The platform [P] with Drive answering the owners lookup as
    [owners]; the local files are those of [P]. *)
Definition with_drive_owners (P : Platform)
    (owners : string -> outcome (list (option string))) : Platform :=
  {| image := @image P;
     cv_imdecode := @cv_imdecode P;
     img_shape := @img_shape P;
     img_crop := @img_crop P;
     cv_gray := @cv_gray P;
     cv_resize := @cv_resize P;
     scaled_height := @scaled_height P;
     cv_imwrite_ok := @cv_imwrite_ok P;
     zbar_decode := @zbar_decode P;
     utf8_decode := @utf8_decode P;
     pil_exif := @pil_exif P;
     zip_parse := @zip_parse P;
     zip_build := @zip_build P;
     fs_exists := @fs_exists P;
     fs_read := @fs_read P;
     fs_write_ok := @fs_write_ok P;
     fs_mkdir_ok := @fs_mkdir_ok P;
     drive_update_ok := @drive_update_ok P;
     drive_create := @drive_create P;
     drive_owners := owners;
     drive_find_by_name := @drive_find_by_name P;
     http_get := @http_get P;
     cwd := @cwd P;
     now_iso := @now_iso P;
     now_minute := @now_minute P;
     thumbs_folder_id := @thumbs_folder_id P |}.

(** The studio while Drive cannot be reached, and once it answers. *)
Definition studio_offline : Platform :=
  with_drive_owners studio (fun _ => Raise).
Definition studio_online : Platform :=
  with_drive_owners studio (fun _ => Ok [Some "Ann"]).

(** An entry complete but for its creator. *)
Definition entry_unknown_creator : entry :=
  <["creator" := JStr "Unknown"]> entry_complete.

(** A store that already holds an entry for P1, made from another
    asset. *)
Definition store_with_P1 : store := [("P1", entry_complete)].

(* ===================================================================== *)
(** ** The spreadsheet mirror, step by step *)
(* ===================================================================== *)

(** The order [sorted] puts two elements in. *)
Definition key_le {A} (key : A -> string) (a b : A) : Prop :=
  String.leb (key a) (key b) = true.

(** Two rows of the same length that agree outside the columns [A]. *)
Definition agree_off (A : nat -> Prop) (r r' : list jval) : Prop :=
  length r = length r' /\ forall j, ~ A j -> r !! j = r' !! j.

(** One turn of the header loop of step 1. *)
Definition add_header (hs : list jval) (h : string) : list jval :=
  if bool_decide (JStr h ∈ hs) then hs else hs ++ [JStr h].

(** A header that names every managed column. *)
Definition header_ok (header : list jval) : Prop :=
  forall n, n ∈ headers -> JStr n ∈ header.

(** [[""] * len(rows[0])]. *)
Definition blank_row (header : list jval) : list jval :=
  replicate (length header) (JStr "").

(** What the loop leaves at index [i], where [r0] was. *)
Definition updated_row (sync_date : string) (header : list jval)
    (existing : list (list jval)) (id_col : nat)
    (items : list (string * gmap string jval)) (i : nat) (r0 : list jval)
  : list jval :=
  match id_key id_col r0 with
  | Some q =>
      match dict_get q items with
      | Some e =>
          if decide (row_of existing id_col q = Some i)
          then write_row header (row_data sync_date q e) r0
          else r0
      | None => r0
      end
  | None => r0
  end.

(** The rows the loop appends. *)
Definition appended_rows (sync_date : string) (header : list jval)
    (existing : list (list jval)) (id_col : nat)
    (items : list (string * gmap string jval)) : list (list jval) :=
  omap (fun qi =>
          match row_of existing id_col qi.1 with
          | None => Some (write_row header (row_data sync_date qi.1 qi.2)
                                    (blank_row header))
          | Some _ => None
          end) items.

(** The rows once the header row is in place (step 1). *)
Definition sheet_with_header (rows : list (list jval)) : list (list jval) :=
  match rows with
  | [] => [map JStr headers]
  | current_headers :: data => ensure_headers current_headers :: data
  end.

(** [rows[0]] after step 1, and [id_col] of step 2. *)
Definition header_of (rows : list (list jval)) : list jval :=
  default [] (head (sheet_with_header rows)).

Definition id_col_of (rows : list (list jval)) : nat :=
  default 0%nat (col_of (header_of rows) "Parchment ID").

(** The rows when the loop over the store ends (step 3). *)
Definition loop_rows (sync_date : string) (rows : list (list jval))
    (mapping : list (string * gmap string jval)) : list (list jval) :=
  imap (updated_row sync_date (header_of rows) (sheet_with_header rows)
          (id_col_of rows) (sorted_items mapping))
       (sheet_with_header rows)
  ++ appended_rows sync_date (header_of rows) (sheet_with_header rows)
       (id_col_of rows) (sorted_items mapping).

(** The test of [row_of]. *)
Definition has_id (id_col : nat) (qid : string) (r : list jval) : bool :=
  bool_decide (r !! id_col = Some (JStr qid)).

(** The column a field of an entry is shown in. *)
Definition header_of_field (field : string) : option string :=
  if decide (field = "filename") then Some "Original Filename"
  else if decide (field = "timestamp") then Some "Captured Date"
  else if decide (field = "creator") then Some "Creator"
  else if decide (field = "camera") then Some "Camera"
  else if decide (field = "location") then Some "Location"
  else if decide (field = "drive_thumb_id") then Some "Image Preview"
  else if decide (field = "drive_qr_id") then Some "QR Preview"
  else None.

(** The columns of a row with identifier [q] that a run may change when
    field [field] of entry [q0] changed: the sync date, and for [q0] the
    column of the field. *)
Definition changed_cols (header : list jval) (q0 field q : string) (j : nat)
  : Prop :=
  col_of header "Sync Date" = Some j \/
  (q = q0 /\
   match header_of_field field with
   | Some n => col_of header n = Some j
   | None => False
   end).

(** A sheet as read: a column of the curator's own, a row for P2 and a
    row for a parchment the store does not hold. *)
Definition sheet_seen : list (list jval) :=
  [[JStr "Notes"; JStr "Parchment ID"; JStr "Creator"];
   [JStr "torn corner"; JStr "P2"; JStr "Bea"];
   [JStr "keep"; JStr "P9"]].

(** A sheet with a blank row between two data rows. *)
Definition sheet_with_blank_row : list (list jval) :=
  [[JStr "Parchment ID"; JStr "Creator"]; [JStr "P2"; JStr "Bea"]; [];
   [JStr "P9"]].

(** What the first run writes for [sheet_seen] and [sample_store]. *)
Definition sheet_after : list (list jval) :=
  Eval vm_compute in
    match mirror "2026-01-01 00:00" sheet_seen sample_store with
    | Ok out => out
    | Raise => []
    end.


(** A sheet in which two rows carry the identifier P2. *)
Definition sheet_with_duplicates : list (list jval) :=
  [[JStr "Parchment ID"; JStr "Creator"];
   [JStr "P2"; JStr "first copy"];
   [JStr "P2"; JStr "second copy"]].

(* ===================================================================== *)
(** ** More sample data *)
(* ===================================================================== *)

(** The platform [P] once step 1 of [main] has found or created the
    thumbnail folder. *)
Definition with_thumbs_folder (P : Platform) (folder : string) : Platform :=
  {| image := @image P;
     cv_imdecode := @cv_imdecode P;
     img_shape := @img_shape P;
     img_crop := @img_crop P;
     cv_gray := @cv_gray P;
     cv_resize := @cv_resize P;
     scaled_height := @scaled_height P;
     cv_imwrite_ok := @cv_imwrite_ok P;
     zbar_decode := @zbar_decode P;
     utf8_decode := @utf8_decode P;
     pil_exif := @pil_exif P;
     zip_parse := @zip_parse P;
     zip_build := @zip_build P;
     fs_exists := @fs_exists P;
     fs_read := @fs_read P;
     fs_write_ok := @fs_write_ok P;
     fs_mkdir_ok := @fs_mkdir_ok P;
     drive_update_ok := @drive_update_ok P;
     drive_create := @drive_create P;
     drive_owners := @drive_owners P;
     drive_find_by_name := @drive_find_by_name P;
     http_get := @http_get P;
     cwd := @cwd P;
     now_iso := @now_iso P;
     now_minute := @now_minute P;
     thumbs_folder_id := Some folder |}.

Definition studio_with_folder : Platform := with_thumbs_folder studio "folder-1".

(** The fields the healing pass may write. *)
Definition derived_fields : list string :=
  ["thumb_path"; "qr_path"; "camera"; "location"; "creator"].

(** A store loaded from a mapping file in which an entry has
    ["local_path": null]. *)
Definition world_with_null_path : world :=
  mkWorld [("P1", entry_complete);
           ("P2", <["local_path" := JNull]> entry_complete);
           ("P3", entry_without_camera)] [] [].

(** A code found well inside a 400 x 600 picture. *)
Definition rect_inside_picture : Rect := mkRect 10 10 50 50.

(** A member as [process_zip] writes it back when it keeps it: a
    directory entry is written with empty contents, any other member
    with the contents read. *)
Definition written_back (z_item : zentry) : zentry :=
  if is_dir_name (z_name z_item) then mkZ (z_name z_item) (Ok "")
  else z_item.

(** An archive holding one photograph named like the file of P1, on a
    Drive whose store already has P1. *)
Definition archive_known : list zentry :=
  [mkZ "scans/IMG_1.jpg" (Ok "another photograph")].

Definition depot : Platform :=
  toy_platform [] [("zip-bytes-known", archive_known)] [].

Definition depot_world : world :=
  mkWorld [("P1", entry_without_camera)] [("zip-9", "zip-bytes-known")] [].

(* ===================================================================== *)
(** ** Reporting Sink: gap analysis ([run_gap_analysis]) *)
(* ===================================================================== *)

(** The character classes of the pattern [([A-Za-z-]+)(\d+)], on the
    ASCII range (the identifiers are ASCII texts). *)
Definition is_alpha_dash (c : ascii) : bool :=
  let n := nat_of_ascii c in
  ((65 <=? n)%nat && (n <=? 90)%nat) || ((97 <=? n)%nat && (n <=? 122)%nat)
  || (n =? 45)%nat.

Definition is_digit (c : ascii) : bool :=
  let n := nat_of_ascii c in (48 <=? n)%nat && (n <=? 57)%nat.

(** The ways a greedy [+] over the class [p] can read the start of [s],
    in the order in which backtracking tries them (longest first): the
    run read and what is left. *)
Fixpoint runs (p : ascii -> bool) (s : string) : list (string * string) :=
  match s with
  | EmptyString => []
  | String c s' =>
      if p c then
        map (fun ar => (String c (fst ar), snd ar)) (runs p s')
          ++ [(String c EmptyString, s')]
      else []
  end.

(** The pattern tried at the start of [s]: the groups of the first
    success in backtracking order. *)
Definition match_here (s : string) : option (string * string) :=
  head (flat_map (fun pr => map (fun nr => (fst pr, fst nr))
                                (runs is_digit (snd pr)))
                 (runs is_alpha_dash s)).

(** [re.search(r'([A-Za-z-]+)(\d+)', qid)]: the leftmost start that
    succeeds; [match.groups()]. *)
Fixpoint re_search (qid : string) : option (string * string) :=
  match match_here qid with
  | Some g => Some g
  | None =>
      match qid with
      | EmptyString => None
      | String _ rest => re_search rest
      end
  end.

(** The number a text of decimal digits denotes: what [int(num)]
    returns when it returns. *)
Definition digit_value (c : ascii) : Z := Z.of_nat (nat_of_ascii c) - 48.

Definition decimal_value (num : string) : Z :=
  fold_left (fun acc c => 10 * acc + digit_value c)%Z
            (list_ascii_of_string num) 0%Z.

(** What a turn of the first loop does to [prefixes] when it completes:
    [if pref not in prefixes: prefixes[pref] = []]
    [prefixes[pref].append(int(num))]. *)
Definition add_number (prefixes : list (string * list Z)) (qid : string)
  : list (string * list Z) :=
  match re_search qid with
  | Some (pref, num) =>
      dict_set pref (default [] (dict_get pref prefixes) ++ [decimal_value num])
               prefixes
  | None => prefixes
  end.

(** [prefixes] after a first loop over [ids = sorted(mapping.keys())]
    that completes. *)
Definition prefixes_of (mapping : list (string * gmap string jval))
  : list (string * list Z) :=
  fold_left add_number (sorted_by (fun qid => qid) (dict_keys mapping)) [].

(** [min(nums)] and [max(nums)]: a ValueError on an empty list. *)
Definition py_min (nums : list Z) : outcome Z :=
  match nums with
  | [] => Raise
  | n :: rest => Ok (fold_left Z.min rest n)
  end.

Definition py_max (nums : list Z) : outcome Z :=
  match nums with
  | [] => Raise
  | n :: rest => Ok (fold_left Z.max rest n)
  end.

(** Python's [sorted] on integers, as an insertion sort. *)
Fixpoint insert_int (x : Z) (l : list Z) : list Z :=
  match l with
  | [] => [x]
  | y :: l' => if (x <=? y)%Z then x :: y :: l' else y :: insert_int x l'
  end.

Definition sorted_ints (l : list Z) : list Z := foldr insert_int [] l.

(** What the second loop logs for a prefix. *)
Inductive gap_line :=
| GapsDetected (pref : string) (preview : list Z)   (* missing[:10] *)
| NoGaps (pref : string).

Section Interpreter.
(** [sys.get_int_max_str_digits()]: the longest text of digits that
    [int] converts (4300 by default since CPython 3.11); 0 is no
    limit. *)
Variable int_max_str_digits : nat.
(** Whether [set(range(lo, hi + 1))] can be built in the memory at
    hand; otherwise it is a MemoryError. *)
Variable range_fits : Z -> Z -> bool.

Definition over_digit_limit (num : string) : bool :=
  (0 <? int_max_str_digits)%nat && (int_max_str_digits <? String.length num)%nat.

(** [int(num)] for a text of decimal digits: a ValueError past the
    limit. *)
Definition int_of (num : string) : outcome Z :=
  if over_digit_limit num then Raise else Ok (decimal_value num).

(** Whether the number the pattern finds in [qid] is past the limit. *)
Definition id_over_limit (qid : string) : bool :=
  match re_search qid with
  | Some (_, num) => over_digit_limit num
  | None => false
  end.

(** One turn of the first loop. *)
Definition first_loop_turn (prefixes : list (string * list Z)) (qid : string)
  : outcome (list (string * list Z)) :=
  match re_search qid with
  | Some (pref, num) =>
      match int_of num with
      | Raise => Raise
      | Ok n =>
          Ok (dict_set pref (default [] (dict_get pref prefixes) ++ [n])
                       prefixes)
      end
  | None => Ok prefixes
  end.

Fixpoint first_loop (ids : list string) (prefixes : list (string * list Z))
  : outcome (list (string * list Z)) :=
  match ids with
  | [] => Ok prefixes
  | qid :: rest =>
      match first_loop_turn prefixes qid with
      | Raise => Raise
      | Ok prefixes' => first_loop rest prefixes'
      end
  end.

(** [sorted(list(set(range(lo, hi + 1)) - set(nums)))]. *)
Definition missing_between (lo hi : Z) (nums : list Z) : outcome (list Z) :=
  if range_fits lo hi then
    Ok (sorted_ints
          (elements ((list_to_set (seqZ lo (hi + 1 - lo)) : gset Z)
                     ∖ list_to_set nums)))
  else Raise.

Definition gap_line_of (pref : string) (nums : list Z) : outcome gap_line :=
  match py_min nums, py_max nums with
  | Ok lo, Ok hi =>
      match missing_between lo hi nums with
      | Raise => Raise
      | Ok [] => Ok (NoGaps pref)
      | Ok missing => Ok (GapsDetected pref (take 10 missing))
      end
  | _, _ => Raise
  end.

(** The second loop: the lines logged, and whether an exception ended
    the loop. *)
Fixpoint gap_lines (prefixes : list (string * list Z))
  : list gap_line * bool :=
  match prefixes with
  | [] => ([], false)
  | (pref, nums) :: rest =>
      match gap_line_of pref nums with
      | Raise => ([], true)
      | Ok line =>
          let '(lines, skipped) := gap_lines rest in (line :: lines, skipped)
      end
  end.

(** [run_gap_analysis]: the lines logged for the prefixes, and whether
    the [except] branch was taken (it then logs that the analysis was
    skipped). *)
Definition run_gap_analysis (mapping : list (string * gmap string jval))
  : list gap_line * bool :=
  match first_loop (sorted_by (fun qid => qid) (dict_keys mapping)) [] with
  | Raise => ([], true)
  | Ok prefixes => gap_lines prefixes
  end.
(** The least and the greatest number of a group. *)
Definition bounds_of (nums : list Z) (lo hi : Z) : Prop :=
  lo ∈ nums /\ hi ∈ nums /\ forall n, n ∈ nums -> (lo <= n <= hi)%Z.

(** The line for a group whose range fits in memory. *)
Definition line_shows (pn : string * list Z) (line : gap_line) : Prop :=
  exists lo hi,
    bounds_of pn.2 lo hi /\ range_fits lo hi = true /\
    line = match filter (fun n => n ∉ pn.2) (seqZ lo (hi + 1 - lo)) with
           | [] => NoGaps pn.1
           | missing => GapsDetected pn.1 (take 10 missing)
           end.

(** A group whose range does not fit in memory. *)
Definition range_too_wide (pn : string * list Z) : Prop :=
  exists lo hi, bounds_of pn.2 lo hi /\ range_fits lo hi = false.
End Interpreter.

(** The greedy reading of the pattern, without backtracking: the
    longest run of the class at the start of [s], and the rest. *)
Fixpoint span (p : ascii -> bool) (s : string) : string * string :=
  match s with
  | EmptyString => (EmptyString, EmptyString)
  | String c s' =>
      if p c then (String c (fst (span p s')), snd (span p s'))
      else (EmptyString, s)
  end.

Definition match_greedy (s : string) : option (string * string) :=
  let '(pref, rest) := span is_alpha_dash s in
  let '(num, _) := span is_digit rest in
  if bool_decide (pref <> EmptyString /\ num <> EmptyString)
  then Some (pref, num) else None.

(** Whether some letter or hyphen of [s] is directly followed by a
    digit. *)
Fixpoint letter_then_digit (s : string) : bool :=
  match s with
  | EmptyString => false
  | String c s' =>
      match s' with
      | EmptyString => false
      | String d _ => (is_alpha_dash c && is_digit d) || letter_then_digit s'
      end
  end.


(** A store whose identifiers are A-1, A-2, A-4, B7 and a text without
    number. *)
Definition numbered_store : list (string * gmap string jval) :=
  [("A-4", ∅); ("B7", ∅); ("A-1", ∅); ("misc", ∅); ("A-2", ∅)].

(** An interpreter that holds up to a million integers in a set. *)
Definition small_memory (lo hi : Z) : bool := (hi - lo <? 1000000)%Z.

(* ===================================================================== *)
(** ** The batch report of the legacy variant ([update_batch_report]) *)
(* ===================================================================== *)

(** What the batch report reads of a media item: [filename], [id],
    [mediaMetadata.creationTime] and, under [mediaMetadata.photo], the
    camera model and the aperture ([None]: the key is absent). *)
Record batch_item := mkBatchItem {
  b_filename : jval;
  b_id : jval;
  b_created : jval;
  b_camera : option jval;
  b_aperture : option jval
}.

(** The summary appended to a batch. *)
Record batch_summary := mkSummary {
  s_filename : jval;
  s_id : jval;
  s_created : string;
  s_camera : jval;
  s_aperture : jval
}.

Definition summary_of (item : batch_item) (creation_time_str : string)
  : batch_summary :=
  mkSummary (b_filename item) (b_id item) creation_time_str
            (default (JStr "Unknown") (b_camera item))
            (default (JStr "Unknown") (b_aperture item)).

Section BatchReport.
(** [parser.parse(s).strftime("%Y-%m-%d %H:%M")] of dateutil: the minute
    the text denotes, or the exception. *)
Variable parse_minute : string -> outcome string.

(** The batch an item goes to, if any: no creation time, or one that
    does not parse, and the item is not recorded. *)
Definition batch_key_of (item : batch_item) : option (string * string) :=
  match b_created item with
  | JNull => None
  | JStr creation_time_str =>
      if String.eqb creation_time_str "" then None
      else
        match parse_minute creation_time_str with
        | Raise => None
        | Ok batch_key => Some (batch_key, creation_time_str)
        end
  end.

(** [update_batch_report(item, batch_data)]: [batch_data] afterwards. *)
Definition update_batch_report (item : batch_item)
    (batch_data : list (string * list batch_summary))
  : list (string * list batch_summary) :=
  match batch_key_of item with
  | None => batch_data
  | Some (batch_key, creation_time_str) =>
      dict_set batch_key
        (default [] (dict_get batch_key batch_data)
           ++ [summary_of item creation_time_str])
        batch_data
  end.

(** The calls of [sync_album] for the items it goes through, in order. *)
Definition update_batch_reports (items : list batch_item)
    (batch_data : list (string * list batch_summary))
  : list (string * list batch_summary) :=
  fold_left (fun bd item => update_batch_report item bd) items batch_data.

(** The summaries the items [items] add to the batch [batch_key]. *)
Definition summaries_at (batch_key : string) (items : list batch_item)
  : list batch_summary :=
  omap (fun item =>
          match batch_key_of item with
          | Some (k, t) =>
              if decide (k = batch_key) then Some (summary_of item t) else None
          | None => None
          end) items.
End BatchReport.

(** A parser for texts that start with [YYYY-MM-DDTHH:MM]. *)
Definition toy_parse_minute (s : string) : outcome string :=
  if (String.length s <? 16)%nat then Raise
  else Ok (substring 0 10 s ++ " " ++ substring 11 5 s)%string.

Definition batch_item_a : batch_item :=
  mkBatchItem (JStr "IMG_1.jpg") (JStr "gid-a") (JStr "2026-01-01T10:00:07Z")
              (Some (JStr "Canon EOS")) None.

Definition batch_item_b : batch_item :=
  mkBatchItem (JStr "IMG_2.jpg") (JStr "gid-b") (JStr "2026-01-01T10:00:41Z")
              None None.

(* ===================================================================== *)
(** * Properties *)
(* ===================================================================== *)

(* ===================================================================== *)
(** ** QR Matcher *)
(* ===================================================================== *)

Section QrMatcher.
Context `{P : Platform}.

Lemma detect_qr_crop_unfold (data : bytes) :
  detect_qr_crop data =
  match cv_imdecode data with
  | Raise => Raise
  | Ok None => Ok None
  | Ok (Some img) =>
      match cv_gray (top_left_45 img) with
      | Raise => Raise
      | Ok gray =>
          match zbar_decode gray with
          | Raise => Raise
          | Ok [] => Ok None
          | Ok (q :: _) =>
              match utf8_decode (d_data q) with
              | Raise => Raise
              | Ok s => Ok (Some s)
              end
          end
      end
  end.
Proof.
  unfold detect_qr_crop, top_left_45.
  destruct (cv_imdecode data) as [[img|]|]; try reflexivity.
  destruct (img_shape img) as [h w]. reflexivity.
Qed.

Ltac is_plain_call c :=
  lazymatch c with
  | context [match _ with Ok _ => _ | Raise => _ end] => fail
  | _ => idtac
  end.

Ltac split_calls :=
  repeat match goal with
         | |- context [match ?c with Ok _ => _ | Raise => _ end] =>
             is_plain_call c; let E := fresh "E" in destruct c eqn:E
         | |- context [match ?c with Some _ => _ | None => _ end] =>
             is_plain_call c; let E := fresh "E" in destruct c eqn:E
         | |- context [match ?c with [] => _ | _ :: _ => _ end] =>
             is_plain_call c; let E := fresh "E" in destruct c eqn:E
         end.

(** C7 (amended).  The full-frame matcher always returns a pair: the text
    and rectangle of the first value the decoder lists, and otherwise
    (None, None).  The 45% crop matcher returns one value only: the text
    of the first value decoded in the top-left crop, or None when the
    bytes are no image or the crop shows no code; an exception of a
    library call is not handled and leaves the function. *)
Theorem detect_qr_variants_contract (data : bytes) :
  (forall s r,
      detect_qr data = (Some s, Some r) <->
      exists img q rest,
        cv_imdecode data = Ok (Some img) /\
        zbar_decode img = Ok (q :: rest) /\
        utf8_decode (d_data q) = Ok s /\ d_rect q = r) /\
  (detect_qr data = (None, None) \/
   exists s r, detect_qr data = (Some s, Some r)) /\
  (forall s,
      detect_qr_crop data = Ok (Some s) <->
      exists img gray q rest,
        cv_imdecode data = Ok (Some img) /\
        cv_gray (top_left_45 img) = Ok gray /\
        zbar_decode gray = Ok (q :: rest) /\
        utf8_decode (d_data q) = Ok s) /\
  (detect_qr_crop data = Ok None <->
   cv_imdecode data = Ok None \/
   exists img gray,
     cv_imdecode data = Ok (Some img) /\
     cv_gray (top_left_45 img) = Ok gray /\ zbar_decode gray = Ok []) /\
  (detect_qr_crop data = Raise <->
   cv_imdecode data = Raise \/
   exists img,
     cv_imdecode data = Ok (Some img) /\
     (cv_gray (top_left_45 img) = Raise \/
      exists gray,
        cv_gray (top_left_45 img) = Ok gray /\
        (zbar_decode gray = Raise \/
         exists q rest,
           zbar_decode gray = Ok (q :: rest) /\
           utf8_decode (d_data q) = Raise))).
Proof.
  rewrite detect_qr_crop_unfold. unfold detect_qr, detect_qr_try.
  repeat split.
  - split_calls; intros H; inversion H; subst; eauto 10.
  - intros (img & q & rest & -> & -> & -> & <-). reflexivity.
  - split_calls; eauto.
  - split_calls; intros H; inversion H; subst; eauto 10.
  - intros (img & gray & q & rest & -> & -> & -> & ->). reflexivity.
  - split_calls; intros H; inversion H; subst; eauto 10.
  - intros [-> | (img & gray & -> & -> & ->)]; reflexivity.
  - split_calls; intros H; inversion H; subst; eauto 12.
  - intros [-> | (img & -> & [-> | (gray & -> & [-> | (q & rest & -> & ->)])])];
      reflexivity.
Qed.
End QrMatcher.

(** C7 (as stated), refuted: on the empty byte string, for which image
    decoding raises, the crop matcher lets the exception through, and
    on bytes that are no image it returns a single None, not a pair. *)
Lemma detect_qr_crop_raises_on_empty_buffer :
  @detect_qr_crop (toy_platform [] [] []) "" = Raise /\
  @detect_qr (toy_platform [] [] []) "" = (None, None) /\
  ~ (forall (P : Platform) (data : bytes),
        exists r, @detect_qr_crop P data = Ok r).
Proof.
  split; [reflexivity|]. split; [reflexivity|].
  intros H. destruct (H (toy_platform [] [] []) "") as [r Hr].
  discriminate Hr.
Qed.

(* ===================================================================== *)
(** ** Entries and the store as Python dicts *)
(* ===================================================================== *)

Lemma get_insert (k : string) (v : jval) (e : gmap string jval) :
  get k (<[k := v]> e) = v.
Proof. unfold get. by rewrite lookup_insert_eq. Qed.

Lemma get_insert_ne (k k' : string) (v : jval) (e : gmap string jval) :
  k <> k' -> get k (<[k' := v]> e) = get k e.
Proof. intros Hne. unfold get. by rewrite lookup_insert_ne. Qed.

Lemma get_or_insert_ne (k k' : string) (d v : jval) (e : gmap string jval) :
  k <> k' -> get_or k d (<[k' := v]> e) = get_or k d e.
Proof. intros Hne. unfold get_or. by rewrite lookup_insert_ne. Qed.

Ltac simpl_get :=
  repeat first
    [ rewrite get_insert in *
    | rewrite get_insert_ne in * by discriminate
    | rewrite get_or_insert_ne in * by discriminate ].

(** Boolean tests back to propositions, then congruence. *)
Ltac bool_props :=
  repeat match goal with
         | H : _ || _ = true |- _ => apply orb_true_iff in H
         | H : _ || _ = false |- _ => apply orb_false_iff in H
         | H : _ && _ = true |- _ => apply andb_true_iff in H
         | H : _ && _ = false |- _ => apply andb_false_iff in H
         | H : bool_decide _ = true |- _ => apply bool_decide_eq_true in H
         | H : bool_decide _ = false |- _ => apply bool_decide_eq_false in H
         | H : negb _ = true |- _ => apply negb_true_iff in H
         | H : negb _ = false |- _ => apply negb_false_iff in H
         end.

(* ===================================================================== *)
(** ** Thumbnail Generator *)
(* ===================================================================== *)

Section Thumbnails.
Context `{P : Platform}.

(** The crop box never leaves the image. *)
Lemma qr_box_clamped (img_h img_w : Z) (rect : Rect) :
  let '(y1, y2, x1, x2) := qr_box img_h img_w rect in
  (0 <= y1 /\ y2 <= img_h /\ 0 <= x1 /\ x2 <= img_w)%Z.
Proof. unfold qr_box. cbv zeta. lia. Qed.

(** With a rectangle and no failing step both paths come back, and the
    crop written is the padded, clamped box. *)
Lemma generate_thumbnails_with_rect (qr_id : string) (data : bytes)
    (rect : Rect) (img thumb : image) :
  cv_imdecode data = Ok (Some img) ->
  fs_mkdir_ok THUMBS_DIR = true ->
  snd (img_shape img) <> 0%Z ->
  cv_resize img 300 (scaled_height (fst (img_shape img)) (snd (img_shape img)))
    = Ok thumb ->
  cv_imwrite_ok (thumb_path_of qr_id) thumb = true ->
  (let '(y1, y2, x1, x2) :=
     qr_box (fst (img_shape img)) (snd (img_shape img)) rect in
   cv_imwrite_ok (qr_path_of qr_id) (img_crop img y1 y2 x1 x2) = true) ->
  generate_thumbnails qr_id data (Some rect) =
  (Some (Some (thumb_path_of qr_id), Some (qr_path_of qr_id)),
   [EvImwrite (qr_path_of qr_id); EvImwrite (thumb_path_of qr_id)]).
Proof.
  intros Hdec Hdir Hw Hres Hwr Hcrop.
  unfold generate_thumbnails, generate_thumbnails_try.
  rewrite Hdec, Hdir. destruct (img_shape img) as [h w]. simpl in *.
  apply Z.eqb_neq in Hw. rewrite Hw, Hres, Hwr. simpl.
  destruct (qr_box h w rect) as [[[y1 y2] x1] x2]. by rewrite Hcrop.
Qed.

(** C6 (the code at the failing input).  For bytes that decode to an
    image and no rectangle, the width-300 preview is resized and
    written, and yet the call returns (None, None): the only
    [return thumb_path, ...] sits inside [if rect:]. *)
Theorem generate_thumbnails_without_rect_drops_path (qr_id : string)
    (data : bytes) (img thumb : image) :
  cv_imdecode data = Ok (Some img) ->
  fs_mkdir_ok THUMBS_DIR = true ->
  snd (img_shape img) <> 0%Z ->
  cv_resize img 300 (scaled_height (fst (img_shape img)) (snd (img_shape img)))
    = Ok thumb ->
  cv_imwrite_ok (thumb_path_of qr_id) thumb = true ->
  generate_thumbnails qr_id data None =
  (Some (None, None), [EvImwrite (thumb_path_of qr_id)]).
Proof.
  intros Hdec Hdir Hw Hres Hwr.
  unfold generate_thumbnails, generate_thumbnails_try.
  rewrite Hdec, Hdir. destruct (img_shape img) as [h w]. simpl in *.
  apply Z.eqb_neq in Hw. by rewrite Hw, Hres, Hwr.
Qed.
End Thumbnails.

Lemma generate_thumbnails_without_rect_witness :
  @generate_thumbnails (toy_platform [("photo-A", photo_A)] [] [])
    "P1" "photo-A" None =
  (Some (None, None), [EvImwrite "/srv/assets/thumbnails/P1_thumb.jpg"]).
Proof.
  apply (@generate_thumbnails_without_rect_drops_path
           (toy_platform [("photo-A", photo_A)] [] [])
           "P1" "photo-A" photo_A (mkToy 200 300 (ti_codes photo_A)));
    [reflexivity | reflexivity | discriminate | reflexivity | reflexivity].
Defined.

(* ===================================================================== *)
(** ** The dict operations *)
(* ===================================================================== *)

Section DictFacts.
Context {V : Type}.
Implicit Types (d : list (string * V)) (k : string) (v : V).

Lemma dict_get_set_eq k v d : dict_get k (dict_set k v d) = Some v.
Proof.
  induction d as [|[k' v'] d IH]; simpl.
  - by rewrite decide_True.
  - destruct (decide (k' = k)) as [->|Hne]; simpl.
    + by rewrite decide_True.
    + by rewrite decide_False.
Qed.

Lemma dict_get_set_ne k k' v d :
  k <> k' -> dict_get k' (dict_set k v d) = dict_get k' d.
Proof.
  intros Hne. induction d as [|[k0 v0] d IH]; simpl.
  - by rewrite decide_False.
  - destruct (decide (k0 = k)) as [->|Hne0]; simpl.
    + by rewrite !decide_False.
    + destruct (decide (k0 = k')); [done | apply IH].
Qed.

Lemma dict_get_Some_elem k v d : dict_get k d = Some v -> (k, v) ∈ d.
Proof.
  induction d as [|[k' v'] d IH]; simpl; [done|].
  destruct (decide (k' = k)) as [->|Hne]; intros H.
  - inversion H; subst. apply elem_of_cons. by left.
  - apply elem_of_cons. right. by apply IH.
Qed.

Lemma dict_get_None_keys k d : dict_get k d = None <-> k ∉ dict_keys d.
Proof.
  unfold dict_keys. induction d as [|[k' v'] d IH]; simpl.
  - split; [intros _; apply not_elem_of_nil | done].
  - rewrite not_elem_of_cons.
    destruct (decide (k' = k)) as [->|Hne]; [split; [done | tauto]|].
    rewrite IH. split; [by split | tauto].
Qed.

Lemma dict_keys_set k v d :
  dict_keys (dict_set k v d) =
  if decide (k ∈ dict_keys d) then dict_keys d else dict_keys d ++ [k].
Proof.
  unfold dict_keys. induction d as [|[k' v'] d IH].
  - reflexivity.
  - cbn [dict_set]. rewrite fmap_cons. cbn [fst].
    destruct (decide (k' = k)) as [->|Hne].
    + rewrite fmap_cons. cbn [fst].
      destruct (decide (k ∈ k :: d.*1)) as [_|Hnin]; [done|].
      exfalso. apply Hnin, elem_of_cons. by left.
    + rewrite fmap_cons, IH. cbn [fst].
      destruct (decide (k ∈ d.*1)) as [Hin|Hnin];
        destruct (decide (k ∈ k' :: d.*1)) as [Hin'|Hnin']; try done.
      * exfalso. apply Hnin', elem_of_cons. by right.
      * exfalso. apply elem_of_cons in Hin' as [?|?]; [by subst | done].
Qed.

(** Assigning to a key never produces a second copy of a key. *)
Lemma dict_set_NoDup k v d : NoDup (dict_keys d) -> NoDup (dict_keys (dict_set k v d)).
Proof.
  intros Hnd. rewrite dict_keys_set. destruct (decide _) as [Hin|Hnin]; [done|].
  apply NoDup_app. repeat split; [done | | apply NoDup_singleton].
  intros x Hx Hx'. apply list_elem_of_singleton in Hx'. by subst.
Qed.

Lemma dict_set_length k v d : (length d <= length (dict_set k v d))%nat.
Proof.
  induction d as [|[k' v'] d IH]; simpl; [lia|].
  destruct (decide (k' = k)); simpl; lia.
Qed.
End DictFacts.

(* ===================================================================== *)
(** ** Healing pass *)
(* ===================================================================== *)

Section Healing.
Context `{P : Platform}.
Implicit Types (item : gmap string jval) (qid : string).

Ltac map_eq_inserts :=
  apply map_eq; intros ?;
  rewrite ?lookup_insert; repeat case_decide; simplify_eq; try done.

Ltac heal_cases :=
  repeat (first [ progress simpl_get
                | progress simplify_eq/=
                | case_match ]).

Ltac heal_close :=
  try done; try congruence;
  try (bool_props; intuition congruence);
  try map_eq_inserts.

Lemma heal_media_item qid local_img (st : heal_st) :
  hs_item (heal_media qid local_img st) = media_of qid local_img (hs_item st).
Proof.
  unfold media_of, heal_media, heal_thumbs, heal_exif. destruct st as [it n ev sp].
  heal_cases; try done; congruence.
Qed.

(** 3b only writes the four media keys. *)
Lemma media_of_frame qid local_img item (k : string) :
  k <> "thumb_path" -> k <> "qr_path" -> k <> "camera" -> k <> "location" ->
  media_of qid local_img item !! k = item !! k.
Proof.
  intros H1 H2 H3 H4.
  unfold media_of, heal_media, heal_thumbs, heal_exif.
  heal_cases; rewrite ?lookup_insert_ne by done; done.
Qed.

(** 3b neither reads nor writes the creator. *)
Lemma media_of_creator qid local_img item (v : jval) :
  media_of qid local_img (<["creator" := v]> item) =
  <["creator" := v]> (media_of qid local_img item).
Proof.
  unfold media_of, heal_media, heal_thumbs, heal_exif.
  heal_cases; heal_close.
Qed.

(** 3b, run on its own result, changes nothing. *)
Lemma media_of_idem qid local_img item :
  media_of qid local_img (media_of qid local_img item) =
  media_of qid local_img item.
Proof.
  unfold media_of, heal_media, heal_thumbs, heal_exif.
  heal_cases; heal_close.
Qed.

Lemma cache_ok_nil : cache_ok [].
Proof. intros z c H. discriminate H. Qed.

Lemma cache_ok_set z c zip_owners zip_owners0 :
  cache_ok zip_owners -> zip_owner z [] = Ok (c, zip_owners0) ->
  cache_ok (dict_set z c zip_owners).
Proof.
  intros Hok Hz z' c' Hget. destruct (decide (z = z')) as [<-|Hne].
  - rewrite dict_get_set_eq in Hget. inversion Hget; subst. eauto.
  - rewrite dict_get_set_ne in Hget by done. eauto.
Qed.

(** A cached owner is the owner a fresh lookup finds. *)
Lemma zip_owner_cache z zip_owners :
  cache_ok zip_owners ->
  match zip_owner z zip_owners with
  | Ok (c, zip_owners') =>
      cache_ok zip_owners' /\ exists zo, zip_owner z [] = Ok (c, zo)
  | Raise => zip_owner z [] = Raise
  end.
Proof.
  intros Hok.
  destruct (dict_get z zip_owners) as [c|] eqn:Hget.
  - unfold zip_owner at 1. rewrite Hget. split; [done | by apply Hok].
  - assert (zip_owner z zip_owners =
            match zip_owner z [] with
            | Ok (c, _) => Ok (c, dict_set z c zip_owners)
            | Raise => Raise
            end) as ->.
    { unfold zip_owner. rewrite Hget. simpl.
      by destruct (drive_find_by_name z) as [[|[[|o os]|] fs]|]. }
    destruct (zip_owner z []) as [[c zo]|] eqn:Hz; [|done].
    split; [by eapply cache_ok_set | eauto].
Qed.

Lemma find_creator_cache item zip_owners :
  cache_ok zip_owners ->
  match find_creator item zip_owners with
  | Ok (c, zip_owners') =>
      cache_ok zip_owners' /\ exists zo, find_creator item [] = Ok (c, zo)
  | Raise => find_creator item [] = Raise
  end.
Proof.
  intros Hok. unfold find_creator.
  destruct (truthy (get "drive_id" item)).
  - destruct (get "drive_id" item); [done|].
    destruct (drive_owners s); [eauto | done].
  - destruct (truthy (get "source_zip" item)); [|eauto].
    destruct (get "source_zip" item); [done|]. by apply zip_owner_cache.
Qed.

(** The creator looked up depends on two keys of the entry only. *)
Lemma find_creator_ext item item' zip_owners :
  get "drive_id" item' = get "drive_id" item ->
  get "source_zip" item' = get "source_zip" item ->
  find_creator item' zip_owners = find_creator item zip_owners.
Proof. intros H1 H2. unfold find_creator. by rewrite H1, H2. Qed.

(** 3c with any sound cache does to the entry what [creator_fix] says. *)
Lemma heal_creator_item zip_owners (st : heal_st) :
  cache_ok zip_owners ->
  hs_item (fst (heal_creator zip_owners st)) = creator_fix (hs_item st) /\
  cache_ok (snd (heal_creator zip_owners st)).
Proof.
  intros Hok. unfold creator_fix, heal_creator. simpl.
  destruct (negb (truthy (get "creator" (hs_item st))) || _); [|done].
  pose proof (find_creator_cache (hs_item st) _ Hok) as Hc.
  destruct (find_creator (hs_item st) zip_owners) as [[c zo]|].
  - destruct Hc as [Hok' [zo0 ->]].
    destruct (negb (String.eqb c "Unknown")); done.
  - rewrite Hc. done.
Qed.
Lemma media_of_get qid local_img item (k : string) :
  k <> "thumb_path" -> k <> "qr_path" -> k <> "camera" -> k <> "location" ->
  get k (media_of qid local_img item) = get k item.
Proof. intros. unfold get. by rewrite media_of_frame. Qed.

Lemma creator_fix_unfold item :
  creator_fix item =
  if negb (truthy (get "creator" item))
     || bool_decide (get "creator" item = JStr "Unknown")
  then match find_creator item [] with
       | Ok (c, _) =>
           if negb (String.eqb c "Unknown")
           then <["creator" := JStr c]> item else item
       | Raise => item
       end
  else item.
Proof.
  unfold creator_fix, heal_creator. simpl.
  destruct (_ || _); [|done].
  destruct (find_creator item []) as [[c zo]|]; [|done].
  by destruct (negb _).
Qed.

(** 3c only writes the creator. *)
Lemma creator_fix_frame item (k : string) :
  k <> "creator" -> creator_fix item !! k = item !! k.
Proof.
  intros Hk. rewrite creator_fix_unfold.
  repeat case_match; rewrite ?lookup_insert_ne by done; done.
Qed.

Lemma creator_fix_media qid local_img item :
  creator_fix (media_of qid local_img item) =
  media_of qid local_img (creator_fix item).
Proof.
  rewrite !creator_fix_unfold.
  rewrite media_of_get by discriminate.
  rewrite (find_creator_ext item (media_of qid local_img item))
    by (apply media_of_get; discriminate).
  repeat case_match; try done. by rewrite media_of_creator.
Qed.

Lemma creator_fix_idem item : creator_fix (creator_fix item) = creator_fix item.
Proof.
  rewrite (creator_fix_unfold item).
  destruct (_ || _) eqn:Hneeds; [|by rewrite creator_fix_unfold, Hneeds].
  destruct (find_creator item []) as [[c zo]|] eqn:Hfind;
    [|by rewrite creator_fix_unfold, Hneeds, Hfind].
  destruct (negb (String.eqb c "Unknown")) eqn:Hc;
    [|by rewrite creator_fix_unfold, Hneeds, Hfind, Hc].
  rewrite creator_fix_unfold, get_insert.
  rewrite (find_creator_ext item) by (apply get_insert_ne; discriminate).
  rewrite Hfind, Hc, insert_insert_eq.
  by destruct (negb (truthy (JStr c)) || _).
Qed.

(** No step of a turn writes [local_path]. *)
Lemma entry_fix_local_path qid item :
  get_or "local_path" (JStr "") (entry_fix qid item) =
  get_or "local_path" (JStr "") item.
Proof.
  unfold entry_fix, get_or. rewrite creator_fix_frame by discriminate.
  repeat case_match; try done; by rewrite media_of_frame.
Qed.

(** A turn, run on its own result, changes nothing. *)
Lemma entry_fix_idem qid item :
  entry_fix qid (entry_fix qid item) = entry_fix qid item.
Proof.
  unfold entry_fix at 1. rewrite entry_fix_local_path. unfold entry_fix.
  destruct (get_or "local_path" (JStr "") item) as [|local_img];
    [apply creator_fix_idem|].
  destruct (fs_exists local_img); [|apply creator_fix_idem].
  by rewrite <- creator_fix_media, media_of_idem, creator_fix_idem.
Qed.

(** One turn with any sound cache: it raises exactly on a [None]
    [local_path], and otherwise leaves [entry_fix] of the entry. *)
Lemma heal_entry_spec zip_owners qid item :
  cache_ok zip_owners ->
  match heal_entry zip_owners qid item with
  | Raise => get_or "local_path" (JStr "") item = JNull
  | Ok (st, zip_owners') =>
      get_or "local_path" (JStr "") item <> JNull /\
      hs_item st = entry_fix qid item /\ cache_ok zip_owners'
  end.
Proof.
  intros Hok. unfold heal_entry, entry_fix, path_exists.
  destruct (get_or "local_path" (JStr "") item) as [|local_img]; [done|].
  match goal with
  | |- context [heal_creator zip_owners ?st] =>
      destruct (heal_creator_item zip_owners st Hok) as [Hitem Hok'];
      destruct (heal_creator zip_owners st) as [st' zo'] eqn:Hheal
  end.
  simpl in *. split; [done|]. split; [|done]. rewrite Hitem.
  destruct (fs_exists local_img); [|done]. by rewrite heal_media_item.
Qed.

Lemma heal_loop_store zip_owners (mapping : list (string * gmap string jval)) :
  cache_ok zip_owners ->
  hp_store (heal_loop zip_owners mapping) = heal_store mapping.
Proof.
  revert zip_owners. induction mapping as [|[qid item] rest IH]; intros zo Hok.
  - done.
  - simpl. pose proof (heal_entry_spec zo qid item Hok) as Hspec.
    destruct (heal_entry zo qid item) as [[st zo']|].
    + destruct Hspec as (Hlp & Hst & Hok').
      destruct (get_or "local_path" (JStr "") item); [done|].
      simpl. by rewrite Hst, IH.
    + by rewrite Hspec.
Qed.

Lemma heal_store_idem (mapping : list (string * gmap string jval)) :
  heal_store (heal_store mapping) = heal_store mapping.
Proof.
  induction mapping as [|[qid item] rest IH]; [done|]. simpl.
  destruct (get_or "local_path" (JStr "") item) as [|p] eqn:Hlp; simpl.
  - by rewrite Hlp.
  - rewrite entry_fix_local_path, Hlp. by rewrite entry_fix_idem, IH.
Qed.
Lemma heal_loop_raised zip_owners (mapping : list (string * gmap string jval)) :
  cache_ok zip_owners ->
  hp_raised (heal_loop zip_owners mapping) = heal_raises mapping.
Proof.
  revert zip_owners. induction mapping as [|[qid item] rest IH]; intros zo Hok.
  - done.
  - simpl. pose proof (heal_entry_spec zo qid item Hok) as Hspec.
    destruct (heal_entry zo qid item) as [[st zo']|].
    + destruct Hspec as (Hlp & Hst & Hok'). simpl.
      rewrite bool_decide_eq_false_2 by done. by apply IH.
    + simpl. by rewrite bool_decide_eq_true_2.
Qed.

Lemma heal_store_raises (mapping : list (string * gmap string jval)) :
  heal_raises (heal_store mapping) = heal_raises mapping.
Proof.
  induction mapping as [|[qid item] rest IH]; [done|]. simpl.
  destruct (get_or "local_path" (JStr "") item) as [|p] eqn:Hlp; simpl.
  - by rewrite Hlp.
  - by rewrite entry_fix_local_path, Hlp, IH.
Qed.

Lemma populated_field_get (k : string) item :
  populated_field (get k item) = true ->
  exists s, item !! k = Some (JStr s) /\ s <> "" /\ s <> "Unknown".
Proof.
  unfold populated_field, get. intros H. apply andb_true_iff in H as [Ht Hu].
  destruct (item !! k) as [[|s]|]; simpl in *; try done.
  exists s. split; [done|]. apply negb_true_iff in Ht, Hu.
  apply String.eqb_neq in Ht. apply bool_decide_eq_false in Hu.
  split; [done | congruence].
Qed.

Lemma populated_get (k : string) item :
  populated_field (get k item) = true ->
  truthy (get k item) = true /\
  bool_decide (get k item = JStr "Unknown") = false.
Proof.
  unfold populated_field. intros [Ht Hu]%andb_true_iff.
  by apply negb_true_iff in Hu.
Qed.

(** A turn on a fully populated entry does nothing at all. *)
Lemma heal_entry_populated zip_owners qid item :
  fully_populated item = true ->
  heal_entry zip_owners qid item = Ok (mkHeal item false [] [], zip_owners).
Proof.
  unfold fully_populated, healed_fields. simpl. intros H.
  apply andb_true_iff in H as [Hlp H].
  apply andb_true_iff in H as [[Hth _]%populated_get H].
  apply andb_true_iff in H as [_ H].
  apply andb_true_iff in H as [[Hcam _]%populated_get H].
  apply andb_true_iff in H as [_ H].
  apply andb_true_iff in H as [[Hcr Hcru]%populated_get _].
  apply populated_field_get in Hlp as (p & Hp & _ & _).
  unfold heal_entry, path_exists, get_or. rewrite Hp. simpl.
  assert (heal_media qid p (mkHeal item false [] []) = mkHeal item false [] [])
    as Hmedia.
  { unfold heal_media. simpl. by rewrite Hth, Hcam. }
  assert (forall st, hs_item st = item -> heal_creator zip_owners st = (st, zip_owners))
    as Hcreator.
  { intros st Hst. unfold heal_creator. by rewrite Hst, Hcr, Hcru. }
  destruct (fs_exists p); rewrite ?Hmedia, Hcreator; done.
Qed.

(** C2 (amended).  While the local image files and the answers of Drive
    to the owner lookups are what they were in the first pass (both
    passes run on the same platform), healing is a fixed point: a second
    pass leaves the store (and the fact that the pass raises) as the
    first pass left it; and a turn on an entry whose fields are all
    populated changes nothing, writes nothing, looks nothing up and
    recomputes nothing. *)
Theorem healing_is_a_fixed_point (mapping : list (string * gmap string jval)) :
  hp_store (heal_pass (hp_store (heal_pass mapping))) =
    hp_store (heal_pass mapping) /\
  hp_raised (heal_pass (hp_store (heal_pass mapping))) =
    hp_raised (heal_pass mapping) /\
  (forall zip_owners qid item,
      fully_populated item = true ->
      heal_entry zip_owners qid item =
        Ok (mkHeal item false [] [], zip_owners)).
Proof.
  unfold heal_pass. split; [|split].
  - rewrite !heal_loop_store by apply cache_ok_nil. apply heal_store_idem.
  - rewrite !heal_loop_raised, !heal_loop_store by apply cache_ok_nil.
    apply heal_store_raises.
  - apply heal_entry_populated.
Qed.
(** 3c leaves camera and location alone and adds no EXIF step. *)
Lemma heal_creator_media zip_owners (st : heal_st) :
  let st' := fst (heal_creator zip_owners st) in
  get "camera" (hs_item st') = get "camera" (hs_item st) /\
  get "location" (hs_item st') = get "location" (hs_item st) /\
  (ReadExif ∈ hs_steps st' <-> ReadExif ∈ hs_steps st).
Proof.
  unfold heal_creator. repeat case_match; simpl; simpl_get;
    rewrite ?elem_of_cons; intuition congruence.
Qed.

(** 3b: an EXIF step is taken exactly when camera and location are both
    overwritten with what [extract_exif] returns. *)
Lemma heal_media_exif qid local_img item :
  let st := heal_media qid local_img (mkHeal item false [] []) in
  (ReadExif ∈ hs_steps st ->
   exists data,
     fs_read local_img = Ok data /\
     get "camera" (hs_item st) = JStr (fst (extract_exif data)) /\
     get "location" (hs_item st) = JStr (snd (extract_exif data))) /\
  (ReadExif ∉ hs_steps st ->
   get "camera" (hs_item st) = get "camera" item /\
   get "location" (hs_item st) = get "location" item).
Proof.
  unfold heal_media, heal_thumbs, heal_exif. simpl.
  repeat case_match; simplify_eq/=; simpl_get;
    rewrite ?elem_of_cons, ?elem_of_nil;
    (split; [intros Hin | intros Hnin]);
    try (exfalso; intuition congruence); try done;
    try (eexists; split; [done|]; by rewrite ?H4, ?H5, ?H6, ?H7, ?H8, ?H9);
    try (exfalso; apply Hnin; auto).
Qed.

(** C10.  When a healing turn recomputes the camera, the location is
    overwritten with the freshly extracted value whatever it was before;
    when it does not, the location is left as it was, even if it is
    missing or Unknown: the two fields are never healed apart. *)
Theorem heal_camera_overwrites_location zip_owners qid item
    (st : heal_st) zip_owners' :
  heal_entry zip_owners qid item = Ok (st, zip_owners') ->
  (ReadExif ∈ hs_steps st ->
   exists local_img data,
     get_or "local_path" (JStr "") item = JStr local_img /\
     fs_exists local_img = true /\
     fs_read local_img = Ok data /\
     get "camera" (hs_item st) = JStr (fst (extract_exif data)) /\
     get "location" (hs_item st) = JStr (snd (extract_exif data))) /\
  (ReadExif ∉ hs_steps st ->
   get "camera" (hs_item st) = get "camera" item /\
   get "location" (hs_item st) = get "location" item).
Proof.
  unfold heal_entry, path_exists.
  destruct (get_or "local_path" (JStr "") item) as [|local_img]; [done|].
  intros Heq. inversion Heq as [Hheal]. clear Heq.
  match type of Hheal with
  | heal_creator _ ?s = _ =>
      pose proof (heal_creator_media zip_owners s) as (Hc & Hl & Hs);
      rewrite Hheal in Hc, Hl, Hs; simpl in Hc, Hl, Hs
  end.
  rewrite Hc, Hl, Hs. clear Hheal Hc Hl Hs.
  destruct (fs_exists local_img) eqn:Hex.
  - destruct (heal_media_exif qid local_img item) as [Hyes Hno].
    split; [|done]. intros Hin. destruct (Hyes Hin) as (data & ? & ? & ?).
    by exists local_img, data.
  - simpl. split; [|done]. intros Hin. by apply elem_of_nil in Hin.
Qed.
End Healing.

Lemma healing_is_a_fixed_point_witness :
  hp_store (@heal_pass studio (hp_store (@heal_pass studio sample_store))) =
    hp_store (@heal_pass studio sample_store) /\
  @heal_entry studio [] "P2" entry_complete =
    Ok (mkHeal entry_complete false [] [], []).
Proof.
  destruct (@healing_is_a_fixed_point studio sample_store) as (Hfix & _ & Hpop).
  split; [exact Hfix | apply Hpop; vm_compute; reflexivity].
Defined.

(** C2 (as stated), refuted: the local files are the same in both
    passes, but Drive cannot be reached during the first one.  The
    failed owner lookup is swallowed and the creator stays Unknown; the
    second pass gets an answer and changes the entry. *)
Lemma healing_changes_when_drive_answers :
  let first := @heal_pass studio_offline [("P1", entry_unknown_creator)] in
  let second := @heal_pass studio_online (hp_store first) in
  @fs_exists studio_online = @fs_exists studio_offline /\
  @fs_read studio_online = @fs_read studio_offline /\
  hp_raised first = false /\
  hp_store first = [("P1", entry_unknown_creator)] /\
  hp_raised second = false /\
  get "creator" <$> dict_get "P1" (hp_store first) = Some (JStr "Unknown") /\
  get "creator" <$> dict_get "P1" (hp_store second) = Some (JStr "Ann") /\
  hp_store second <> hp_store first.
Proof.
  repeat split; try (vm_compute; reflexivity).
  intros Heq.
  apply (f_equal (fun s => get "creator" <$> dict_get "P1" s)) in Heq.
  vm_compute in Heq. discriminate Heq.
Qed.

Lemma heal_camera_overwrites_location_witness :
  exists st zip_owners,
    @heal_entry studio [] "P1" entry_without_camera = Ok (st, zip_owners) /\
    get "location" entry_without_camera = JStr "51.50000, -0.12000" /\
    get "camera" (hs_item st) = JStr "Unknown" /\
    get "location" (hs_item st) = JStr "Unknown".
Proof.
  destruct (@heal_entry studio [] "P1" entry_without_camera)
    as [[st zo]|] eqn:E; [|vm_compute in E; discriminate E].
  exists st, zo. split; [reflexivity|]. split; [vm_compute; reflexivity|].
  assert (ReadExif ∈ hs_steps st) as Hin.
  { vm_compute in E. inversion E. apply elem_of_cons. by left. }
  destruct (@heal_camera_overwrites_location studio [] "P1"
              entry_without_camera st zo E) as [Hyes _].
  destruct (Hyes Hin) as (local_img & data & _ & _ & _ & Hcam & Hloc).
  split; [exact Hcam | exact Hloc].
Defined.

(* ===================================================================== *)
(** ** Reasoning about the stateful code *)
(* ===================================================================== *)

Lemma is_match_Some (qr : option string) (qr_id : string) :
  is_match qr = Some qr_id <-> qr = Some qr_id /\ qr_id <> "".
Proof.
  unfold is_match. destruct qr as [s|]; [|naive_solver].
  destruct (String.eqb_spec s ""); naive_solver.
Qed.

Lemma is_match_nonempty (qr : option string) (qr_id : string) :
  is_match qr = Some qr_id -> qr_id <> "".
Proof. intros H. by apply is_match_Some in H as [_ ?]. Qed.

Section Always.
Context `{P : Platform}.
Variable R : world -> world -> Prop.
Hypothesis R_refl : forall w, R w w.
Hypothesis R_trans : forall w1 w2 w3, R w1 w2 -> R w2 w3 -> R w1 w3.

Lemma always_ret {A} (a : A) : always R (ret a).
Proof. intros w. apply R_refl. Qed.

Lemma always_throw {A} : always R (@throw A).
Proof. intros w. apply R_refl. Qed.

Lemma always_lift {A} (o : outcome A) : always R (lift o).
Proof. intros w. apply R_refl. Qed.

Lemma always_get_mapping : always R get_mapping.
Proof. intros w. apply R_refl. Qed.

Lemma always_get_drive : always R get_drive.
Proof. intros w. apply R_refl. Qed.

Lemma always_bind {A B} (m : M A) (k : A -> M B) :
  always R m -> (forall a, always R (k a)) -> always R (bind m k).
Proof.
  intros Hm Hk w. unfold bind. specialize (Hm w).
  destruct (m w) as [[a|] w1]; simpl in *; [|done].
  eapply R_trans; [exact Hm | apply Hk].
Qed.

Lemma always_try {A} (m h : M A) :
  always R m -> always R h -> always R (try_except m h).
Proof.
  intros Hm Hh w. unfold try_except. specialize (Hm w).
  destruct (m w) as [[a|] w1]; simpl in *; [done|].
  eapply R_trans; [exact Hm | apply Hh].
Qed.
End Always.

(** Walks through the code of a computation down to its effects, which
    are left to [leaf]. *)
Ltac always_walk leaf :=
  repeat first
    [ leaf
    | apply always_ret; assumption
    | apply always_throw; assumption
    | apply always_lift; assumption
    | apply always_get_mapping; assumption
    | apply always_get_drive; assumption
    | apply always_bind; [assumption | | intros ?]
    | apply always_try; [assumption | | ]
    | match goal with
      | |- always _ (match ?x with _ => _ end) => destruct x eqn:?
      end ].

Lemma generate_thumbnails_events `{P : Platform} qr_id image_data rect :
  Forall not_save (snd (generate_thumbnails qr_id image_data rect)).
Proof.
  unfold generate_thumbnails, generate_thumbnails_try.
  repeat case_match; simplify_eq/=; repeat constructor.
Qed.

Section Effects.
Context `{P : Platform}.
Variable R : world -> world -> Prop.
Hypothesis R_refl : forall w, R w w.
Hypothesis R_trans : forall w1 w2 w3, R w1 w2 -> R w2 w3 -> R w1 w3.
Hypothesis R_emits : forall es, Forall not_save es -> always R (emits es).
Hypothesis R_assign : forall k v, k <> "" -> always R (assign k v).

Lemma always_emit e : not_save e -> always R (emit e).
Proof. intros He. apply (R_emits [e]). by constructor. Qed.

Lemma always_thumbnails qr_id img_data rect :
  always R (thumbnails qr_id img_data rect).
Proof.
  unfold thumbnails.
  pose proof (generate_thumbnails_events qr_id img_data rect) as Hev.
  destruct (generate_thumbnails qr_id img_data rect) as [r evs].
  apply always_bind; [done | by apply R_emits | intros; by apply always_lift].
Qed.

Ltac emitted := apply always_emit; exact I.

Lemma always_download file_id : always R (download file_id).
Proof. unfold download. always_walk emitted. Qed.

Lemma always_write_local path data : always R (write_local path data).
Proof. unfold write_local. always_walk emitted. Qed.

Ltac effect :=
  first [ apply always_thumbnails
        | apply always_download
        | apply always_write_local
        | emitted
        | apply R_assign; eapply is_match_nonempty; eassumption ].

Lemma always_process_zip_item z_old file_name creator z_item acc :
  always R (process_zip_item z_old file_name creator z_item acc).
Proof. unfold process_zip_item. always_walk effect. Qed.

Lemma always_process_zip_items z_old file_name creator items acc :
  always R (process_zip_items z_old file_name creator items acc).
Proof.
  revert acc. induction items as [|z_item rest IH]; intros acc; simpl.
  - by apply always_ret.
  - apply always_bind; [done | apply always_process_zip_item | done].
Qed.

Lemma always_process_image item creator match_count :
  always R (process_image item creator match_count).
Proof. unfold process_image. always_walk effect. Qed.

Hypothesis R_replace : forall file_id data,
    always R (replace_remote file_id data).

Lemma always_process_zip file_id file_name creator :
  always R (process_zip file_id file_name creator).
Proof.
  unfold process_zip, process_zip_body, drive_update.
  always_walk ltac:(first [ apply always_process_zip_items
                          | apply R_replace | effect ]).
Qed.

Lemma always_process_item item match_count :
  always R (process_item item match_count).
Proof.
  unfold process_item.
  always_walk ltac:(first [ apply always_process_zip
                          | apply always_process_image ]).
Qed.

Lemma always_process_items items match_count :
  always R (process_items items match_count).
Proof.
  revert match_count. induction items as [|item rest IH]; intros c; simpl.
  - by apply always_ret.
  - apply always_bind; [done | apply always_process_item | done].
Qed.

Lemma always_process_folder pages : always R (process_folder pages).
Proof.
  unfold process_folder. generalize 0%nat.
  induction pages as [|[|item items] rest IH]; intros c; simpl;
    try by apply always_ret.
  apply always_bind; [done | | done].
  apply (always_process_items (item :: items)).
Qed.

Lemma always_sync_folders folders total :
  always R (sync_folders folders total).
Proof.
  revert total. induction folders as [|pages rest IH]; intros c; simpl.
  - by apply always_ret.
  - apply always_bind; [done | apply always_process_folder | done].
Qed.
End Effects.

(* ===================================================================== *)
(** ** The relations the orchestrator respects *)
(* ===================================================================== *)

Lemma store_steps_trans (m1 m2 m3 : list (string * gmap string jval)) :
  store_steps m1 m2 -> store_steps m2 m3 -> store_steps m1 m3.
Proof. intros H12 H23. induction H23; [done | by constructor]. Qed.

Lemma store_steps_NoDup (m m' : list (string * gmap string jval)) :
  store_steps m m' -> NoDup (dict_keys m) -> NoDup (dict_keys m').
Proof. induction 1; [done | intros; by apply dict_set_NoDup, IHstore_steps]. Qed.

Lemma store_steps_keys (m m' : list (string * gmap string jval)) (k : string) :
  store_steps m m' -> k ∈ dict_keys m' -> k ∈ dict_keys m \/ k <> "".
Proof.
  induction 1 as [|m' k' v Hsteps IH Hk']; [by left|].
  rewrite dict_keys_set. destruct (decide _) as [_|_]; [done|].
  intros [Hin|Hin%list_elem_of_singleton]%elem_of_app; [by apply IH|].
  right. by subst.
Qed.

(** Assignments never remove a key. *)
Lemma store_steps_keeps (m m' : list (string * gmap string jval)) (k : string) :
  store_steps m m' -> k ∈ dict_keys m -> k ∈ dict_keys m'.
Proof.
  induction 1 as [|m' k' v Hsteps IH Hk']; [done|]. intros Hin.
  rewrite dict_keys_set. destruct (decide _); [by apply IH|].
  apply elem_of_app. left. by apply IH.
Qed.

Section Relations.
Context `{P : Platform}.

Lemma assigns_only_refl w : assigns_only w w.
Proof. constructor. Qed.

Lemma assigns_only_trans w1 w2 w3 :
  assigns_only w1 w2 -> assigns_only w2 w3 -> assigns_only w1 w3.
Proof. apply store_steps_trans. Qed.

Lemma trace_ext_refl allowed w : trace_ext allowed w w.
Proof. by exists []. Qed.

Lemma trace_ext_trans allowed w1 w2 w3 :
  trace_ext allowed w1 w2 -> trace_ext allowed w2 w3 -> trace_ext allowed w1 w3.
Proof.
  intros (n1 & H1 & F1) (n2 & H2 & F2). exists (n2 ++ n1).
  split; [by rewrite H2, H1, app_assoc | by apply Forall_app].
Qed.

Lemma keeps_drive_trans w1 w2 w3 :
  keeps_drive w1 w2 -> keeps_drive w2 w3 -> keeps_drive w1 w3.
Proof. unfold keeps_drive. congruence. Qed.

(** The folder loop only assigns under non-empty keys ... *)
Lemma process_folder_assigns pages : always assigns_only (process_folder pages).
Proof.
  apply always_process_folder;
    [apply assigns_only_refl | apply assigns_only_trans | | | ];
    intros; intros w; try apply steps_refl.
  by apply (steps_assign (w_mapping w)); [apply steps_refl|].
Qed.

(** ... and never writes the mapping file. *)
Lemma process_folder_never_saves pages :
  always (trace_ext not_save) (process_folder pages).
Proof.
  apply always_process_folder;
    [apply trace_ext_refl | apply trace_ext_trans | | | ];
    intros; intros w; first [by exists es | by exists []].
Qed.

(** The loop over the members of an archive leaves the remote alone. *)
Lemma process_zip_items_keeps_drive z_old file_name creator items acc :
  always keeps_drive (process_zip_items z_old file_name creator items acc).
Proof.
  apply always_process_zip_items; [done | apply keeps_drive_trans | | ];
    intros; intros w; done.
Qed.
End Relations.

(* ===================================================================== *)
(** ** Identifiers of the store *)
(* ===================================================================== *)

Section Identifiers.
Context `{P : Platform}.

Lemma sync_album_assigns archive_name pages :
  always assigns_only (sync_album archive_name pages).
Proof.
  pose proof assigns_only_refl as Hrefl.
  pose proof assigns_only_trans as Htrans.
  assert (forall item, always assigns_only (sync_album_item archive_name item))
    as Hitem.
  { intros item. unfold sync_album_item, save_json.
    always_walk ltac:(first
      [ by intros w; apply steps_refl
      | intros w; apply (steps_assign (w_mapping w));
          [apply steps_refl | eapply is_match_nonempty; eassumption] ]). }
  assert (forall items, always assigns_only (sync_album_items archive_name items))
    as Hitems.
  { induction items as [|item rest IH]; simpl.
    - by apply always_ret.
    - apply always_bind; [done | apply Hitem | done]. }
  induction pages as [|[|item items] rest IH]; simpl; try by apply always_ret.
  apply always_bind; [done | apply (Hitems (item :: items)) | done].
Qed.

Lemma heal_loop_keys zip_owners (mapping : list (string * gmap string jval)) :
  dict_keys (hp_store (heal_loop zip_owners mapping)) = dict_keys mapping.
Proof.
  unfold dict_keys. revert zip_owners.
  induction mapping as [|[qid item] rest IH]; intros zo; [done|]. simpl.
  destruct (heal_entry zo qid item) as [[st zo']|]; [|done].
  simpl. by rewrite IH.
Qed.

Lemma backfill_loop_keys (mapping : list (string * gmap string jval)) :
  dict_keys (fst (backfill_loop mapping)) = dict_keys mapping.
Proof.
  unfold dict_keys. induction mapping as [|[qid item] rest IH]; [done|]. simpl.
  destruct (backfill_entry qid item) as [item' ev].
  destruct (backfill_loop rest) as [rest' evs]. simpl in *. by f_equal.
Qed.

Lemma drive_entry_drive_id item local_path t q creator cam loc :
  get "drive_id" (drive_entry item local_path t q creator cam loc)
  = JStr (f_id item).
Proof.
  unfold drive_entry, get. simpl.
  by rewrite lookup_insert_ne, lookup_insert_eq.
Qed.

Lemma zip_entry_fields img_name file_name local_path t q creator cam loc :
  let e := zip_entry img_name file_name local_path t q creator cam loc in
  get "source_zip" e = JStr file_name /\
  get "filename" e = JStr (basename img_name).
Proof.
  unfold zip_entry, get. simpl.
  split; rewrite ?lookup_insert_ne by done; by rewrite ?lookup_insert_eq.
Qed.

Lemma album_entry_google_id item archive_name local_path_rel :
  get "google_id" (album_entry item archive_name local_path_rel)
  = JStr (p_id item).
Proof.
  unfold album_entry, get. simpl.
  rewrite ?lookup_insert_ne by done. by rewrite ?lookup_insert_eq.
Qed.

(** A matched image leaves its own entry under the identifier, whatever
    was stored there before. *)
Lemma process_image_assigns item creator c w n w' data qr_id :
  dict_get (f_id item) (w_drive w) = Some data ->
  is_match (fst (detect_qr data)) = Some qr_id ->
  process_image item creator c w = (Ok n, w') ->
  n = S c /\
  exists e, dict_get qr_id (w_mapping w') = Some e /\
            get "drive_id" e = JStr (f_id item) /\
            w_mapping w' = dict_set qr_id e (w_mapping w).
Proof.
  intros Hdata Hmatch. unfold process_image, download, write_local, thumbnails.
  unfold bind, emit, emits, get_drive, lift, ret, throw, assign. simpl.
  rewrite Hdata. destruct (detect_qr data) as [qr rect]. simpl in Hmatch.
  rewrite Hmatch. destruct (fs_write_ok _); [|done]. simpl.
  destruct (generate_thumbnails qr_id data rect) as [[tq|] evs]; simpl; [|done].
  destruct (extract_exif data) as [cam loc]. intros [= <- <-]. simpl.
  split; [done|]. eexists. split; [apply dict_get_set_eq|].
  split; [apply drive_entry_drive_id | done].
Qed.

(** So does a matched member of an archive that is not skipped by its
    file name. *)
Lemma process_zip_item_assigns z_old file_name creator z_item acc w acc' w'
    data qr_id :
  is_dir_name (z_name z_item) = false ->
  is_image_name (z_name z_item) = true ->
  already_captured (w_mapping w) (z_name z_item) = false ->
  zip_read z_old (z_name z_item) = Ok data ->
  is_match (fst (detect_qr data)) = Some qr_id ->
  process_zip_item z_old file_name creator z_item acc w = (Ok acc', w') ->
  a_matches acc' = S (a_matches acc) /\
  exists e, dict_get qr_id (w_mapping w') = Some e /\
            get "source_zip" e = JStr file_name /\
            get "filename" e = JStr (basename (z_name z_item)) /\
            w_mapping w' = dict_set qr_id e (w_mapping w).
Proof.
  intros Hdir Himg Hcap Hread Hmatch. unfold process_zip_item.
  rewrite Hdir, Himg, Hread.
  change (bind get_mapping ?k w) with (k (w_mapping w) w). cbv beta.
  rewrite Hcap. simpl. unfold bind at 1, lift.
  destruct (detect_qr data) as [qr rect]. simpl in Hmatch. rewrite Hmatch.
  unfold write_local, thumbnails.
  unfold bind, emit, emits, lift, ret, throw, assign. simpl.
  destruct (fs_write_ok _); [|done]. simpl.
  destruct (generate_thumbnails qr_id data rect) as [[tq|] evs]; simpl; [|done].
  destruct (extract_exif data) as [cam loc]. intros [= <- <-]. simpl.
  split; [done|]. eexists. split; [apply dict_get_set_eq|].
  pose proof (zip_entry_fields (z_name z_item) file_name
                (path_join IMAGES_DIR (qr_id ++ ".jpg")) tq.1 tq.2 creator
                cam loc) as [Hzip Hname].
  split; [exact Hzip|]. split; [exact Hname | done].
Qed.

(** And so does a media item of the album loop, once its photograph has
    been fetched and stored; whether the save that follows succeeds
    makes no difference to the store in memory. *)
Lemma sync_album_item_assigns archive_name item w img_bytes qr qr_code
    content :
  already_scanned (w_mapping w) (p_id item) = false ->
  http_get (p_base_url item ++ "=w1000") = Ok (Some img_bytes) ->
  img_bytes <> "" ->
  detect_qr_crop img_bytes = Ok qr ->
  is_match qr = Some qr_code ->
  http_get (p_base_url item ++ "=d") = Ok (Some content) ->
  fs_write_ok (path_join IMAGES_DIR (qr_code ++ ".jpg")) = true ->
  let w' := snd (sync_album_item archive_name item w) in
  exists e, dict_get qr_code (w_mapping w') = Some e /\
            get "google_id" e = JStr (p_id item) /\
            w_mapping w' = dict_set qr_code e (w_mapping w).
Proof.
  intros Hscan Hget Hne Hqr Hmatch Hfull Hwrite.
  unfold sync_album_item, download_image, download_image_to, save_json.
  unfold bind, get_mapping, emit, lift, ret, throw, assign. simpl.
  rewrite Hscan, Hget. simpl.
  destruct img_bytes as [|c rest]; [done|]. simpl.
  rewrite Hqr. simpl. rewrite Hmatch. simpl. rewrite Hfull. simpl.
  rewrite Hwrite. simpl.
  eexists. split; [|split; [apply album_entry_google_id|]].
  - destruct (fs_write_ok MAPPING_FILE); simpl; apply dict_get_set_eq.
  - by destruct (fs_write_ok MAPPING_FILE).
Qed.

(** C5 (amended).  Under the folder loop and under the legacy album loop
    the keys of the store stay pairwise distinct and every new key is a
    non-empty identifier; healing and the upload backfill keep the keys
    as they are; and the latest successful decode wins, in each of the
    three places that create entries: a matched image of the folder
    loop, a matched member of an archive that is not skipped by its
    file name, and a matched media item of the album loop each leave
    their own entry under the identifier, replacing what was there and
    leaving the other entries as they were. *)
Theorem store_identifiers pages archive_name album (w : world) :
  let w1 := snd (process_folder pages w) in
  let w2 := snd (sync_album archive_name album w) in
  (NoDup (dict_keys (w_mapping w)) ->
   NoDup (dict_keys (w_mapping w1)) /\ NoDup (dict_keys (w_mapping w2))) /\
  (forall k, k ∈ dict_keys (w_mapping w1) \/ k ∈ dict_keys (w_mapping w2) ->
             k ∈ dict_keys (w_mapping w) \/ k <> "") /\
  dict_keys (hp_store (heal_pass (w_mapping w))) = dict_keys (w_mapping w) /\
  dict_keys (fst (backfill_loop (w_mapping w))) = dict_keys (w_mapping w) /\
  (forall item creator c w0 n w' data qr_id,
      dict_get (f_id item) (w_drive w0) = Some data ->
      is_match (fst (detect_qr data)) = Some qr_id ->
      process_image item creator c w0 = (Ok n, w') ->
      n = S c /\
      exists e, dict_get qr_id (w_mapping w') = Some e /\
                get "drive_id" e = JStr (f_id item) /\
                w_mapping w' = dict_set qr_id e (w_mapping w0)) /\
  (forall z_old file_name creator z_item acc w0 acc' w' data qr_id,
      is_dir_name (z_name z_item) = false ->
      is_image_name (z_name z_item) = true ->
      already_captured (w_mapping w0) (z_name z_item) = false ->
      zip_read z_old (z_name z_item) = Ok data ->
      is_match (fst (detect_qr data)) = Some qr_id ->
      process_zip_item z_old file_name creator z_item acc w0 = (Ok acc', w') ->
      a_matches acc' = S (a_matches acc) /\
      exists e, dict_get qr_id (w_mapping w') = Some e /\
                get "source_zip" e = JStr file_name /\
                get "filename" e = JStr (basename (z_name z_item)) /\
                w_mapping w' = dict_set qr_id e (w_mapping w0)) /\
  (forall item w0 img_bytes qr qr_code content,
      already_scanned (w_mapping w0) (p_id item) = false ->
      http_get (p_base_url item ++ "=w1000") = Ok (Some img_bytes) ->
      img_bytes <> "" ->
      detect_qr_crop img_bytes = Ok qr ->
      is_match qr = Some qr_code ->
      http_get (p_base_url item ++ "=d") = Ok (Some content) ->
      fs_write_ok (path_join IMAGES_DIR (qr_code ++ ".jpg")) = true ->
      let w' := snd (sync_album_item archive_name item w0) in
      exists e, dict_get qr_code (w_mapping w') = Some e /\
                get "google_id" e = JStr (p_id item) /\
                w_mapping w' = dict_set qr_code e (w_mapping w0)).
Proof.
  pose proof (process_folder_assigns pages w) as H1.
  pose proof (sync_album_assigns archive_name album w) as H2.
  unfold assigns_only in *. cbv zeta.
  split; [|split; [|split; [|split; [|split; [|split]]]]].
  - intros Hnd. split; by eapply store_steps_NoDup.
  - intros k [Hk|Hk];
      [exact (store_steps_keys _ _ _ H1 Hk) | exact (store_steps_keys _ _ _ H2 Hk)].
  - apply heal_loop_keys.
  - apply backfill_loop_keys.
  - intros. eapply process_image_assigns; eassumption.
  - intros. eapply process_zip_item_assigns; eassumption.
  - intros. eapply sync_album_item_assigns; eassumption.
Qed.
End Identifiers.

(** C5 (as stated), refuted: photographs A and B both show the code P1.
    After A the entry of P1 is A's; after B it is B's. *)
Lemma later_decode_replaces_entry :
  let w1 := snd (@process_items gallery [item_a] 0%nat fresh_world) in
  let w2 := snd (@process_items gallery [item_b] 0%nat w1) in
  get "drive_id" <$> dict_get "P1" (w_mapping w1) = Some (JStr "id-a") /\
  get "drive_id" <$> dict_get "P1" (w_mapping w2) = Some (JStr "id-b") /\
  dict_keys (w_mapping w2) = ["P1"].
Proof. vm_compute. done. Qed.

Lemma store_identifiers_witness :
  dict_keys (w_mapping (snd (@process_folder gallery [[item_a; item_b; item_c]]
                               fresh_world))) = ["P1"] /\
  get "drive_id" <$>
    dict_get "P1" (w_mapping (snd (@process_image gallery item_b "Bob" 1%nat
                 (snd (@process_items gallery [item_a] 0%nat fresh_world)))))
  = Some (JStr "id-b") /\
  get "google_id" <$>
    dict_get "P1" (w_mapping (snd (@sync_album_item gallery "album" media_a
                                     (mkWorld store_with_P1 [] []))))
  = Some (JStr "gid-a").
Proof.
  split; [vm_compute; reflexivity|].
  destruct (@store_identifiers gallery [] "album" [] fresh_world)
    as (_ & _ & _ & _ & Hfolder & _ & Halbum).
  split.
  - destruct (@process_image gallery item_b "Bob" 1%nat
                (snd (@process_items gallery [item_a] 0%nat fresh_world)))
      as [[n|] w'] eqn:E; [|vm_compute in E; discriminate E].
    destruct (Hfolder item_b "Bob" 1%nat
                (snd (@process_items gallery [item_a] 0%nat fresh_world))
                n w' "photo-B" "P1") as (_ & e & He & Hid & _);
      [vm_compute; reflexivity | vm_compute; reflexivity | exact E |].
    simpl. rewrite He. simpl. by rewrite Hid.
  - destruct (Halbum media_a (mkWorld store_with_P1 [] []) "photo-A"
                (Some "P1") "P1" "photo-A") as (e & He & Hid & _);
      [vm_compute; reflexivity | vm_compute; reflexivity | discriminate
      | vm_compute; reflexivity | vm_compute; reflexivity
      | vm_compute; reflexivity | vm_compute; reflexivity |].
    rewrite He. simpl. by rewrite Hid.
Defined.

(* ===================================================================== *)
(** ** When the store reaches the mapping file *)
(* ===================================================================== *)

Lemma saved_store_ext (new old : list event) :
  Forall not_save new -> saved_store (new ++ old) = saved_store old.
Proof.
  induction 1 as [|e new He _ IH]; [done|]. simpl.
  by destruct e.
Qed.

Lemma mapping_file_ext (initial : file_state) (new old : list event) :
  Forall not_save new ->
  mapping_file initial (new ++ old) = mapping_file initial old.
Proof.
  induction 1 as [|e new He _ IH]; [done|]. simpl.
  by destruct e.
Qed.

Section Durability.
Context `{P : Platform}.

Lemma heal_media_events qid local_img (st : heal_st) :
  Forall not_save (hs_events st) ->
  Forall not_save (hs_events (heal_media qid local_img st)).
Proof.
  intros Hst. unfold heal_media.
  destruct (_ || _); [|done]. destruct (fs_read local_img) as [data|]; [|done].
  destruct (heal_thumbs qid data st) as [st'|] eqn:E; [|done].
  assert (Forall not_save (hs_events st')) as Hst'.
  { unfold heal_thumbs in E. destruct (negb _); [|by inversion E; subst].
    destruct (detect_qr data) as [qr rect].
    pose proof (generate_thumbnails_events qid data rect) as Hev.
    destruct (generate_thumbnails qid data rect) as [r evs].
    destruct (unpack2 r) as [[t q]|]; [|done].
    inversion E; subst. simpl. by apply Forall_app. }
  unfold heal_exif. destruct (_ || _); [|done]. by destruct (extract_exif data).
Qed.

Lemma heal_creator_events zip_owners (st : heal_st) :
  hs_events (fst (heal_creator zip_owners st)) = hs_events st.
Proof. unfold heal_creator. by repeat case_match. Qed.

Lemma heal_loop_events zip_owners (mapping : list (string * gmap string jval)) :
  Forall not_save (hp_events (heal_loop zip_owners mapping)).
Proof.
  revert zip_owners. induction mapping as [|[qid item] rest IH]; intros zo.
  - constructor.
  - simpl. destruct (heal_entry zo qid item) as [[st zo']|] eqn:E; [|constructor].
    simpl. apply Forall_app. split; [apply IH|].
    unfold heal_entry in E. destruct (path_exists _) as [ex|]; [|done].
    inversion E as [Heq]. apply (f_equal (fun x => hs_events (fst x))) in Heq.
    rewrite heal_creator_events in Heq. simpl in Heq. rewrite <- Heq.
    destruct ex; [|constructor]. destruct (get_or _ _ _); [constructor|].
    apply heal_media_events. constructor.
Qed.

Lemma backfill_loop_events (mapping : list (string * gmap string jval)) :
  Forall not_save (snd (backfill_loop mapping)).
Proof.
  induction mapping as [|[qid item] rest IH]; [constructor|]. simpl.
  destruct (backfill_entry qid item) as [item' ev] eqn:E.
  destruct (backfill_loop rest) as [rest' evs]. simpl in *.
  apply Forall_app. split; [done|].
  unfold backfill_entry, upload_thumbnail in E.
  repeat case_match; simplify_eq/=; repeat constructor.
Qed.
Lemma sync_folders_never_saves folders total :
  always (trace_ext not_save) (sync_folders folders total).
Proof.
  apply always_sync_folders;
    [apply trace_ext_refl | apply trace_ext_trans | | | ];
    intros; intros w; first [by exists es | by exists []].
Qed.

(** [main] writes the mapping file once, as its last effect, and goes
    on when that save raises. *)
Lemma main_sync_saves_last folders w n w' :
  main_sync folders w = (Ok n, w') ->
  exists new,
    w_trace w' = (if fs_write_ok MAPPING_FILE then EvSave (w_mapping w')
                  else EvSaveFailed) :: new ++ w_trace w /\
    Forall not_save new.
Proof.
  intros Hrun. unfold main_sync, bind in Hrun.
  pose proof (sync_folders_never_saves folders 0%nat w) as (new1 & Ht1 & Hn1).
  destruct (sync_folders folders 0%nat w) as [[total|] w1]; [|done].
  simpl in Ht1. unfold heal, backfill, bind, get_mapping, set_mapping, emits in Hrun.
  simpl in Hrun.
  pose proof (heal_loop_events [] (w_mapping w1)) as Hn2.
  unfold heal_pass in Hrun.
  destruct (hp_raised (heal_loop [] (w_mapping w1))); [done|]. simpl in Hrun.
  pose proof (backfill_loop_events (hp_store (heal_loop [] (w_mapping w1))))
    as Hn3.
  destruct (backfill_loop _) as [mapping' evs]. simpl in Hrun, Hn3.
  unfold try_except, save_json, bind, get_mapping, emit, throw, ret in Hrun.
  simpl in Hrun.
  exists (evs ++ hp_events (heal_loop [] (w_mapping w1)) ++ new1).
  split; [|repeat (apply Forall_app; split); done].
  destruct (fs_write_ok MAPPING_FILE); simpl in Hrun; inversion Hrun; subst;
    simpl; by rewrite Ht1, <- !app_assoc.
Qed.

(** One turn of the legacy album loop: it ends with the mapping file up
    to date, and if it raises with the file out of date, it is the save
    that raised. *)
Lemma sync_album_item_saves initial archive_name item w :
  file_up_to_date initial w ->
  match sync_album_item archive_name item w with
  | (Ok _, w') => file_up_to_date initial w'
  | (Raise, w') => file_up_to_date initial w' \/ save_cut_short initial w'
  end.
Proof.
  unfold file_up_to_date, save_cut_short. intros Hw.
  unfold sync_album_item, download_image, download_image_to, save_json.
  unfold bind, get_mapping, emit, lift, ret, throw, assign. simpl.
  repeat (case_match; simplify_eq/=); eauto 10;
    right; eexists _, _, _, _; (split; [reflexivity|]); simpl; eauto.
Qed.

Lemma sync_album_items_save initial archive_name items w :
  file_up_to_date initial w ->
  match sync_album_items archive_name items w with
  | (Ok _, w') => file_up_to_date initial w'
  | (Raise, w') => file_up_to_date initial w' \/ save_cut_short initial w'
  end.
Proof.
  revert w. induction items as [|item rest IH]; intros w Hw; [done|].
  simpl. unfold bind.
  pose proof (sync_album_item_saves initial archive_name item w Hw) as Hitem.
  destruct (sync_album_item archive_name item w) as [[[]|] w1]; [|done].
  by apply IH.
Qed.

Lemma sync_album_saves initial archive_name pages w :
  file_up_to_date initial w ->
  match sync_album archive_name pages w with
  | (Ok _, w') => file_up_to_date initial w'
  | (Raise, w') => file_up_to_date initial w' \/ save_cut_short initial w'
  end.
Proof.
  revert w. induction pages as [|[|item items] rest IH]; intros w Hw;
    [done | done |].
  simpl. unfold bind.
  pose proof (sync_album_items_save initial archive_name (item :: items) w Hw)
    as Hit.
  simpl in Hit. unfold bind in Hit.
  destruct (sync_album_item archive_name item w) as [[[]|] w1]; [|done].
  destruct (sync_album_items archive_name items w1) as [[[]|] w2]; [|done].
  by apply IH.
Qed.

(** C3 (amended).  The folder loop of the Drive orchestrator never
    writes the mapping file, however many matches it makes: the file is
    written once, as the last effect of [main], after the sync, the
    healing pass and the upload backfill; when that save raises, [main]
    goes on, and the file may be left empty or partial.  Only the legacy
    album loop saves right after each match.  Whatever file the process
    found at its start (none, or one holding a store): started with the
    file up to date, the album loop ends with the file up to date; and
    when an exception stops it, either the file is up to date, or the
    exception is that of the save after a match, which may have left
    the file empty or partial, the store in memory being one assignment
    ahead of what the file held. *)
Theorem store_saved_at_end_of_run pages folders archive_name album (w : world) :
  (saved_store (w_trace (snd (process_folder pages w)))
   = saved_store (w_trace w)) /\
  (forall initial,
      mapping_file initial (w_trace (snd (process_folder pages w)))
      = mapping_file initial (w_trace w)) /\
  (forall n w',
      main_sync folders w = (Ok n, w') ->
      exists new,
        w_trace w' = (if fs_write_ok MAPPING_FILE then EvSave (w_mapping w')
                      else EvSaveFailed) :: new ++ w_trace w /\
        Forall not_save new) /\
  (forall initial,
      file_up_to_date initial w ->
      match sync_album archive_name album w with
      | (Ok _, w') => file_up_to_date initial w'
      | (Raise, w') => file_up_to_date initial w' \/ save_cut_short initial w'
      end).
Proof.
  split; [|split; [|split]].
  - destruct (process_folder_never_saves pages w) as (new & -> & Hnew).
    by apply saved_store_ext.
  - intros initial.
    destruct (process_folder_never_saves pages w) as (new & -> & Hnew).
    by apply mapping_file_ext.
  - apply main_sync_saves_last.
  - intros initial. apply sync_album_saves.
Qed.
End Durability.

(** C3 (as stated), refuted: the folder loop matches P1 and P2 and
    returns with both in memory and nothing written to the mapping
    file. *)
Lemma folder_loop_holds_two_unsaved_matches :
  fst (@process_folder gallery [[item_a; item_d]] fresh_world) = Ok 2%nat /\
  dict_keys (w_mapping (snd (@process_folder gallery [[item_a; item_d]]
                               fresh_world))) = ["P1"; "P2"] /\
  saved_store (w_trace (snd (@process_folder gallery [[item_a; item_d]]
                               fresh_world))) = None.
Proof. vm_compute. done. Qed.

Lemma store_saved_at_end_of_run_witness :
  file_up_to_date NoFile fresh_world /\
  exists w',
    @sync_album gallery "album" [[media_a; media_d]] fresh_world = (Ok tt, w') /\
    dict_keys (w_mapping w') = ["P1"; "P2"] /\
    file_up_to_date NoFile w'.
Proof.
  split; [reflexivity|].
  destruct (@store_saved_at_end_of_run gallery [] [] "album"
              [[media_a; media_d]] fresh_world) as (_ & _ & _ & Hlegacy).
  specialize (Hlegacy NoFile eq_refl).
  destruct (@sync_album gallery "album" [[media_a; media_d]] fresh_world)
    as [[[]|] w'] eqn:E; [|vm_compute in E; discriminate E].
  exists w'. split; [reflexivity|]. split; [|exact Hlegacy].
  vm_compute in E. inversion E. vm_compute. reflexivity.
Defined.

(* ===================================================================== *)
(** ** What a second run fetches again *)
(* ===================================================================== *)

Section Idempotence.
Context `{P : Platform}.




Lemma download_run file_id w :
  download file_id w =
  (match dict_get file_id (w_drive w) with
   | Some data => Ok data
   | None => Raise
   end,
   mkWorld (w_mapping w) (w_drive w) (EvDownload file_id :: w_trace w)).
Proof.
  unfold download, bind, emit, get_drive, ret, throw. simpl.
  by destruct (dict_get file_id (w_drive w)).
Qed.





End Idempotence.



(* ===================================================================== *)
(** ** The ZIP container variant *)
(* ===================================================================== *)

Section ZipContainer.
Context `{P : Platform}.

Ltac run_monad :=
  unfold bind, get_mapping, lift, ret, throw, write_local, thumbnails,
    assign, emit, emits, writestr.

(** One member is either written to the new archive, or left out with
    [duplicates_removed] set. *)
Lemma process_zip_item_kept_or_removed z_old file_name creator z_item acc w
    acc' w' :
  process_zip_item z_old file_name creator z_item acc w = (Ok acc', w') ->
  (exists data, a_new acc' = a_new acc ++ [mkZ (z_name z_item) (Ok data)] /\
                a_removed acc' = a_removed acc) \/
  (a_new acc' = a_new acc /\ a_removed acc' = true).
Proof.
  unfold process_zip_item. run_monad.
  repeat (case_match; simplify_eq/=); intros; simplify_eq/=; eauto.
Qed.

Lemma process_zip_items_removed z_old file_name creator items acc w acc' w' :
  process_zip_items z_old file_name creator items acc w = (Ok acc', w') ->
  (length (a_new acc') <= length (a_new acc) + length items)%nat /\
  (a_removed acc' = true ->
   a_removed acc = true \/
   (length (a_new acc') < length (a_new acc) + length items)%nat).
Proof.
  revert acc w. induction items as [|z_item rest IH]; intros acc w; simpl.
  - intros [= <- <-]. split; [lia | by left].
  - unfold bind.
    destruct (process_zip_item z_old file_name creator z_item acc w)
      as [[acc1|] w1] eqn:E1; [|done].
    intros [Hlen Hrem]%IH.
    apply process_zip_item_kept_or_removed in E1
      as [(data & Hnew & Hsame) | [Hnew Hset]].
    + rewrite Hnew, length_app in *. simpl in *. rewrite Hsame in Hrem.
      split; [lia|]. intros Hr. destruct (Hrem Hr); [by left | right; lia].
    + rewrite Hnew in *. split; [lia|]. intros _. right. lia.
Qed.

(** The [try] block of [process_zip], step by step. *)
Lemma process_zip_body_run file_id file_name creator w :
  process_zip_body file_id file_name creator w =
  let w0 := mkWorld (w_mapping w) (w_drive w)
                    (EvDownload file_id :: w_trace w) in
  match dict_get file_id (w_drive w) with
  | None => (Raise, w0)
  | Some fh =>
      match zip_parse fh with
      | Raise => (Raise, w0)
      | Ok z_old =>
          match process_zip_items z_old file_name creator z_old
                  (mkAcc [] 0 false) w0 with
          | (Raise, w1) => (Raise, w1)
          | (Ok acc, w1) =>
              if a_removed acc then
                if drive_update_ok file_id (zip_build (a_new acc)) then
                  (Ok (a_matches acc),
                   mkWorld (w_mapping w1)
                     (dict_set file_id (zip_build (a_new acc)) (w_drive w1))
                     (EvUpdate file_id (zip_build (a_new acc)) :: w_trace w1))
                else (Raise, w1)
              else (Ok (a_matches acc), w1)
          end
      end
  end.
Proof.
  unfold process_zip_body. unfold bind at 1. rewrite download_run.
  destruct (dict_get file_id (w_drive w)) as [fh|]; [|done].
  unfold bind at 1, lift. destruct (zip_parse fh) as [z_old|]; [|done].
  unfold bind at 1. cbv zeta.
  destruct (process_zip_items _ _ _ _ _ _) as [[acc|] w1]; [|done].
  unfold bind, drive_update, replace_remote, emit, ret, throw.
  destruct (a_removed acc); [|done].
  by destruct (drive_update_ok _ _).
Qed.

(** C9.  [process_zip] always returns a count.  Either the remote
    objects are what they were, or the archive was fetched and opened,
    every member was processed without an exception, at least one member
    was left out, and the rewritten archive replaced the remote object
    as the very last effect.  If the body raises, wherever, the call
    returns 0 and the remote objects are untouched. *)
Theorem zip_replaced_only_after_full_pass file_id file_name creator (w : world) :
  let r := process_zip file_id file_name creator w in
  (exists n, fst r = Ok n) /\
  (w_drive (snd r) = w_drive w \/
   exists fh z_old acc w1,
     dict_get file_id (w_drive w) = Some fh /\
     zip_parse fh = Ok z_old /\
     process_zip_items z_old file_name creator z_old (mkAcc [] 0 false)
       (mkWorld (w_mapping w) (w_drive w) (EvDownload file_id :: w_trace w))
       = (Ok acc, w1) /\
     a_removed acc = true /\
     (length (a_new acc) < length z_old)%nat /\
     fst r = Ok (a_matches acc) /\
     w_drive (snd r) = dict_set file_id (zip_build (a_new acc)) (w_drive w) /\
     w_trace (snd r) = EvUpdate file_id (zip_build (a_new acc)) :: w_trace w1) /\
  (forall w'',
      process_zip_body file_id file_name creator w = (Raise, w'') ->
      r = (Ok 0%nat, w'') /\ w_drive w'' = w_drive w).
Proof.
  intros r. subst r. unfold process_zip, try_except.
  rewrite process_zip_body_run. cbv zeta.
  set (w0 := mkWorld (w_mapping w) (w_drive w) (EvDownload file_id :: w_trace w)).
  destruct (dict_get file_id (w_drive w)) as [fh|] eqn:Hfh.
  2:{ split; [by eexists|]. split; [by left|]. by intros w'' [= <-]. }
  destruct (zip_parse fh) as [z_old|] eqn:Hzip.
  2:{ split; [by eexists|]. split; [by left|]. by intros w'' [= <-]. }
  pose proof (process_zip_items_keeps_drive z_old file_name creator z_old
                (mkAcc [] 0 false) w0) as Hkeep.
  unfold keeps_drive in Hkeep.
  destruct (process_zip_items z_old file_name creator z_old (mkAcc [] 0 false) w0)
    as [[acc|] w1] eqn:Hitems; simpl in Hkeep.
  2:{ split; [by eexists|]. split; [by left|]. by intros w'' [= <-]. }
  apply process_zip_items_removed in Hitems as Hrem. simpl in Hrem.
  destruct Hrem as [_ Hrem].
  destruct (a_removed acc) eqn:Hremoved.
  2:{ split; [by eexists|]. split; [by left|]. done. }
  destruct (drive_update_ok file_id (zip_build (a_new acc))) eqn:Hup.
  2:{ split; [by eexists|]. split; [by left|]. by intros w'' [= <-]. }
  split; [by eexists|]. split; [|done]. right.
  exists fh, z_old, acc, w1. simpl. rewrite Hkeep.
  destruct (Hrem eq_refl) as [|Hlt]; [done|]. by repeat split.
Qed.
(** With pairwise distinct member names, reading by name reads the
    member itself. *)
Lemma zip_read_member (z_old : list zentry) (z_item : zentry) :
  NoDup (z_name <$> z_old) -> z_item ∈ z_old ->
  zip_read z_old (z_name z_item) = z_body z_item.
Proof.
  intros Hnd Hin. unfold zip_read.
  assert (filter (fun e => z_name e = z_name z_item) z_old = [z_item]) as ->;
    [|done].
  induction z_old as [|a z IH]; [by apply elem_of_nil in Hin|].
  rewrite fmap_cons in Hnd. apply NoDup_cons in Hnd as [Ha Hnd].
  apply elem_of_cons in Hin as [->|Hin].
  - rewrite filter_cons_True by done. f_equal.
    clear IH Hnd. induction z as [|b z IH]; [done|].
    rewrite fmap_cons, not_elem_of_cons in Ha. destruct Ha as [Hab Ha].
    rewrite filter_cons_False by congruence. by apply IH.
  - rewrite filter_cons_False; [by apply IH|].
    intros Heq. apply Ha. rewrite Heq. by apply list_elem_of_fmap_2.
Qed.

Lemma zip_entry_provenance img_name file_name local_path t q creator cam loc :
  let e := zip_entry img_name file_name local_path t q creator cam loc in
  get "source_zip" e = JStr file_name /\
  get "filename" e = JStr (basename img_name) /\
  e !! "drive_id" = None.
Proof.
  unfold zip_entry, get. simpl.
  repeat split; rewrite ?lookup_insert_ne by done;
    by rewrite ?lookup_insert_eq, ?lookup_empty.
Qed.

(** What one turn of the loop does to a member of an archive whose
    names are pairwise distinct: directories and non-image members are
    written as they are; an image already captured by file name is left
    out; an image that fails to match is written as it is; an image that
    matches is left out and its entry, stored under the identifier,
    points at the archive. *)
Lemma process_zip_item_distinct_names z_old file_name creator z_item acc w
    acc' w' :
  NoDup (z_name <$> z_old) -> z_item ∈ z_old ->
  process_zip_item z_old file_name creator z_item acc w = (Ok acc', w') ->
  if is_dir_name (z_name z_item) then
    acc' = writestr z_item "" acc /\ w' = w
  else if negb (is_image_name (z_name z_item)) then
    a_new acc' = a_new acc ++ [z_item] /\
    a_removed acc' = a_removed acc /\ w' = w
  else if already_captured (w_mapping w) (z_name z_item) then
    a_new acc' = a_new acc /\ a_removed acc' = true /\ w' = w
  else
    exists data,
      z_body z_item = Ok data /\
      match is_match (fst (detect_qr data)) with
      | None =>
          a_new acc' = a_new acc ++ [z_item] /\
          a_removed acc' = a_removed acc /\ w' = w
      | Some qr_id =>
          a_new acc' = a_new acc /\ a_removed acc' = true /\
          a_matches acc' = S (a_matches acc) /\
          exists e, dict_get qr_id (w_mapping w') = Some e /\
                    get "source_zip" e = JStr file_name /\
                    get "filename" e = JStr (basename (z_name z_item)) /\
                    e !! "drive_id" = None
      end.
Proof.
  intros Hnd Hin. unfold process_zip_item.
  rewrite (zip_read_member z_old z_item Hnd Hin).
  destruct (is_dir_name (z_name z_item)); [by intros [= <- <-]|].
  destruct (is_image_name (z_name z_item)); simpl.
  - change (bind get_mapping ?k w) with (k (w_mapping w) w). cbv beta.
    destruct (already_captured (w_mapping w) (z_name z_item)); simpl;
      [by intros [= <- <-]|].
    unfold bind at 1, lift. destruct z_item as [name [data|]]; simpl; [|done].
    intros Hrun. exists data. split; [done|]. revert Hrun.
    destruct (detect_qr data) as [qr rect]. simpl.
    destruct (is_match qr) as [qr_id|]; [|by intros [= <- <-]].
    run_monad. destruct (fs_write_ok _); [|done]. simpl.
    destruct (generate_thumbnails qr_id data rect) as [[tq|] evs]; simpl; [|done].
    destruct (extract_exif data) as [cam loc]. intros [= <- <-]. simpl.
    repeat split. eexists. split; [apply dict_get_set_eq|].
    apply zip_entry_provenance.
  - unfold bind, lift, ret, writestr.
    destruct z_item as [name [data|]]; simpl; [|done]. by intros [= <- <-].
Qed.

(** C4 (the code at the failing input).  The archive holds two members
    named notes.txt, with contents "first" and "second", and a
    photograph of P1.  The photograph is matched and left out, so the
    archive is rewritten; but both notes.txt members are read by name,
    which yields the last one: the first member is written back with the
    contents of the second instead of being copied through unchanged. *)
Theorem zip_same_name_members_not_copied_through :
  fst (@process_zip_items bundle archive_dup "bundle.zip" "Ann" archive_dup
         (mkAcc [] 0 false) zip_world) =
    Ok (mkAcc [mkZ "notes.txt" (Ok "second"); mkZ "notes.txt" (Ok "second")]
              1 true) /\
  dict_get "zip-2"
    (w_drive (snd (@process_zip bundle "zip-2" "bundle.zip" "Ann" zip_world))) =
    Some "ZIP|notes.txt=second|notes.txt=second".
Proof. vm_compute. done. Qed.
End ZipContainer.

Lemma zip_replaced_only_after_full_pass_witness :
  dict_get "zip-1"
    (w_drive (snd (@process_zip bundle "zip-1" "bundle.zip" "Ann" zip_world))) =
    Some "ZIP|docs/=|docs/notes.txt=first draft|scans/blank.jpg=photo-C" /\
  fst (@process_zip bundle "zip-3" "broken.zip" "Ann" zip_world) = Ok 0%nat /\
  w_drive (snd (@process_zip bundle "zip-3" "broken.zip" "Ann" zip_world)) =
    w_drive zip_world /\
  dict_keys (w_mapping (snd (@process_zip bundle "zip-3" "broken.zip" "Ann"
                               zip_world))) = ["P1"].
Proof.
  split; [vm_compute; reflexivity|].
  destruct (@zip_replaced_only_after_full_pass bundle "zip-3" "broken.zip" "Ann"
              zip_world) as (_ & _ & Hraise).
  destruct (@process_zip_body bundle "zip-3" "broken.zip" "Ann" zip_world)
    as [[n|] w''] eqn:E; [vm_compute in E; discriminate E|].
  destruct (Hraise w'' eq_refl) as [Hr Hd].
  rewrite Hr. simpl. split; [done|]. split; [done|].
  vm_compute in E. inversion E. vm_compute. reflexivity.
Defined.

(* ===================================================================== *)
(** ** The spreadsheet mirror: lists *)
(* ===================================================================== *)

Section LastIndex.
Context {A : Type}.
Implicit Types (p : A -> bool) (l : list A).

Lemma last_index_app p l1 l2 :
  last_index p (l1 ++ l2) =
  match last_index p l2 with
  | Some i => Some (length l1 + i)%nat
  | None => last_index p l1
  end.
Proof.
  induction l1 as [|x l1 IH]; simpl.
  - by destruct (last_index p l2).
  - rewrite IH. destruct (last_index p l2); [done|].
    by destruct (last_index p l1).
Qed.

Lemma last_index_None p l :
  last_index p l = None <-> Forall (fun x => p x = false) l.
Proof.
  induction l as [|x l IH]; simpl; [by split; [constructor|]|].
  destruct (last_index p l) as [i|] eqn:E.
  - split; [done|]. intros [_ Hl]%Forall_cons. by apply IH in Hl.
  - destruct (p x) eqn:Hx.
    + split; [done|]. intros [Hx' _]%Forall_cons. congruence.
    + split; [|done]. intros _. constructor; [done | by apply IH].
Qed.

(** The index found holds the last element that satisfies the test. *)
Lemma last_index_Some p l i :
  last_index p l = Some i ->
  exists x, l !! i = Some x /\ p x = true /\ last (filter (fun y => p y = true) l) = Some x.
Proof.
  revert i. induction l as [|x l IH]; intros i; simpl; [done|].
  destruct (last_index p l) as [i'|] eqn:E.
  - intros [= <-]. destruct (IH i' eq_refl) as (y & Hy & Hpy & Hlast).
    exists y. split; [done|]. split; [done|].
    rewrite filter_cons. destruct (decide (p x = true)); [|done].
    destruct (filter _ l); [done | by rewrite last_cons_cons].
  - destruct (p x) eqn:Hx; [|done]. intros [= <-]. exists x.
    split; [done|]. split; [done|].
    rewrite filter_cons_True by done.
    apply last_index_None in E.
    assert (filter (fun y => p y = true) l = []) as ->; [|done].
    clear -E. induction E as [|y l Hy _ IH]; [done|].
    rewrite filter_cons_False by congruence. done.
Qed.

Lemma last_index_lt p l i : last_index p l = Some i -> (i < length l)%nat.
Proof.
  intros (x & Hx & _)%last_index_Some. by eapply lookup_lt_Some.
Qed.

(** The search only looks at the outcome of the test on each element. *)
Lemma last_index_ext {B} p (q : B -> bool) l (l' : list B) :
  p <$> l = q <$> l' -> last_index p l = last_index q l'.
Proof.
  revert l'. induction l as [|x l IH]; intros [|y l']; simpl; try done.
  intros [= Hxy Hl]. rewrite (IH l' Hl). by rewrite Hxy.
Qed.

Lemma last_index_filter_nil p l :
  last_index p l = None <-> filter (fun y => p y = true) l = [].
Proof.
  rewrite last_index_None. induction l as [|x l IH]; [done|].
  rewrite Forall_cons, filter_cons. destruct (decide (p x = true)) as [Hx|Hx].
  - split; [intros [? _]; congruence | done].
  - rewrite <- IH. split; [tauto|]. intros Hl. split; [|done].
    by destruct (p x).
Qed.

(** Two lists with the same elements passing the test, in the same
    order, have the same last such element. *)
Lemma last_index_same_filter p l l' i :
  filter (fun y => p y = true) l' = filter (fun y => p y = true) l ->
  last_index p l = Some i ->
  exists i' x, last_index p l' = Some i' /\ l' !! i' = Some x /\ l !! i = Some x.
Proof.
  intros Hf (x & Hx & Hpx & Hlast)%last_index_Some.
  destruct (last_index p l') as [i'|] eqn:E.
  - destruct (last_index_Some _ _ _ E) as (x' & Hx' & _ & Hlast').
    rewrite Hf, Hlast in Hlast'. inversion Hlast'; subst. eauto.
  - apply last_index_filter_nil in E. rewrite Hf in E.
    by rewrite E in Hlast.
Qed.
End LastIndex.

Section Sorting.
Context {A : Type} (key : A -> string).
Implicit Types (l : list A).


Lemma string_leb_refl (s : string) : String.leb s s = true.
Proof. by destruct (String.leb_total s s). Qed.

Lemma insert_by_perm x l : insert_by key x l ≡ₚ x :: l.
Proof.
  induction l as [|y l IH]; simpl; [done|].
  destruct (String.leb (key x) (key y)); [done|].
  rewrite IH. apply Permutation_swap.
Qed.

Lemma sorted_by_perm l : sorted_by key l ≡ₚ l.
Proof.
  induction l as [|x l IH]; simpl; [done|].
  by rewrite insert_by_perm, IH.
Qed.

Lemma sorted_by_length l : length (sorted_by key l) = length l.
Proof. by rewrite sorted_by_perm. Qed.

Lemma insert_by_sorted x l :
  Sorted (key_le key) l -> Sorted (key_le key) (insert_by key x l).
Proof.
  induction 1 as [|y l Hl IH Hy]; simpl; [by repeat constructor|].
  destruct (String.leb (key x) (key y)) eqn:Hxy.
  - constructor; [by constructor | by constructor].
  - constructor; [done|].
    assert (key_le key y x) as Hyx.
    { unfold key_le. destruct (String.leb_total (key x) (key y)); congruence. }
    destruct l as [|z l]; simpl; [by constructor|].
    destruct (String.leb (key x) (key z)); constructor; [done|].
    by inversion Hy.
Qed.

Lemma sorted_by_sorted l : Sorted (key_le key) (sorted_by key l).
Proof.
  induction l as [|x l IH]; simpl; [constructor | by apply insert_by_sorted].
Qed.

(** Sorting a sorted list changes nothing. *)
Lemma sorted_by_id l : Sorted (key_le key) l -> sorted_by key l = l.
Proof.
  induction 1 as [|x l Hl IH Hx]; simpl; [done|]. rewrite IH.
  destruct Hx as [|y l Hxy]; simpl; [done|]. unfold key_le in Hxy.
  by rewrite Hxy.
Qed.

(** Stability: the elements of a given key keep their order. *)
Lemma insert_by_filter (k : string) x l :
  filter (fun y => key y = k) (insert_by key x l) =
  filter (fun y => key y = k) (x :: l).
Proof.
  induction l as [|y l IH]; simpl; [done|].
  destruct (String.leb (key x) (key y)) eqn:Hxy; [done|].
  rewrite filter_cons, IH, !filter_cons.
  destruct (decide (key y = k)) as [Hy|Hy];
    destruct (decide (key x = k)) as [Hx|Hx]; try done.
  rewrite Hx, Hy, string_leb_refl in Hxy. done.
Qed.

Lemma sorted_by_filter (k : string) l :
  filter (fun y => key y = k) (sorted_by key l) = filter (fun y => key y = k) l.
Proof.
  induction l as [|x l IH]; simpl; [done|].
  by rewrite insert_by_filter, !filter_cons, IH.
Qed.
End Sorting.

(** Sorting two lists whose elements are related and carry the same
    keys, position by position, yields related lists. *)
Lemma sorted_by_Forall2 {A B} (R : A -> B -> Prop) (key : A -> string)
    (key' : B -> string) (l : list A) (l' : list B) :
  (forall a b, R a b -> key a = key' b) ->
  Forall2 R l l' -> Forall2 R (sorted_by key l) (sorted_by key' l').
Proof.
  intros Hkey. induction 1 as [|x y l l' Hxy Hl IH]; simpl; [constructor|].
  revert IH. generalize (sorted_by key l) (sorted_by key' l').
  intros s s'. induction 1 as [|a b s s' Hab Hs IHs]; simpl.
  - by repeat constructor.
  - rewrite <- (Hkey _ _ Hxy), <- (Hkey _ _ Hab).
    destruct (String.leb (key x) (key a)); repeat constructor; done.
Qed.

(* ===================================================================== *)
(** ** The spreadsheet mirror: cells, rows and the header *)
(* ===================================================================== *)


Section Cells.
Implicit Types (r : list jval) (header : list jval) (c j : nat) (v : jval).

Lemma set_cell_length c v r : length (set_cell c v r) = max (length r) (S c).
Proof.
  unfold set_cell. rewrite length_insert, length_app, length_replicate. lia.
Qed.

Lemma set_cell_eq c v r : set_cell c v r !! c = Some v.
Proof.
  unfold set_cell. apply list_lookup_insert_eq.
  rewrite length_app, length_replicate. lia.
Qed.

Lemma set_cell_ne c v r j :
  j <> c -> (j < length r)%nat -> set_cell c v r !! j = r !! j.
Proof.
  intros Hne Hlt. unfold set_cell.
  rewrite list_lookup_insert_ne by done. by apply lookup_app_l.
Qed.

Lemma set_cell_id c v r : r !! c = Some v -> set_cell c v r = r.
Proof.
  intros Hc. unfold set_cell. apply lookup_lt_Some in Hc as Hlt.
  replace (S c - length r)%nat with 0%nat by lia. simpl.
  rewrite app_nil_r. by apply list_insert_id.
Qed.

Lemma set_cell_agree (A : nat -> Prop) c v v' r r' :
  agree_off A r r' -> v = v' \/ A c ->
  agree_off A (set_cell c v r) (set_cell c v' r').
Proof.
  intros [Hlen Hcells] Hv. split.
  - rewrite !set_cell_length. lia.
  - intros j Hj. destruct (decide (j = c)) as [->|Hne].
    + rewrite !set_cell_eq. destruct Hv; [by subst | done].
    + unfold set_cell. rewrite !list_lookup_insert_ne by done. rewrite Hlen.
      destruct (decide (j < length r)%nat) as [Hlt|Hge].
      * rewrite !lookup_app_l by lia. by apply Hcells.
      * rewrite !lookup_app_r by lia. by rewrite Hlen.
Qed.

Lemma agree_off_refl (A : nat -> Prop) r : agree_off A r r.
Proof. by split. Qed.

Lemma col_of_Some header (name : string) c :
  col_of header name = Some c -> header !! c = Some (JStr name).
Proof.
  intros (x & Hx & Hp & _)%last_index_Some.
  apply bool_decide_eq_true in Hp. by subst.
Qed.

Lemma col_of_lt header (name : string) c :
  col_of header name = Some c -> (c < length header)%nat.
Proof. intros H%col_of_Some. by eapply lookup_lt_Some. Qed.

(** Two names never share a column. *)
Lemma col_of_inj header (n n' : string) c :
  col_of header n = Some c -> col_of header n' = Some c -> n = n'.
Proof. intros H1%col_of_Some H2%col_of_Some. congruence. Qed.

Lemma col_of_elem header (name : string) :
  JStr name ∈ header -> is_Some (col_of header name).
Proof.
  intros Hin. destruct (col_of header name) as [c|] eqn:E; [done|].
  apply last_index_None in E. rewrite Forall_forall in E.
  apply E in Hin. by rewrite bool_decide_eq_true_2 in Hin.
Qed.

(** *** Writing the data of an entry into a row *)

Lemma write_row_cons header nv (data : list (string * jval)) r :
  write_row header (nv :: data) r =
  write_row header data
    match col_of header nv.1 with
    | Some c => set_cell c nv.2 r
    | None => r
    end.
Proof. done. Qed.

Lemma write_row_length_ge header (data : list (string * jval)) r :
  (length r <= length (write_row header data r))%nat.
Proof.
  revert r. induction data as [|nv data IH]; intros r; [done|].
  rewrite write_row_cons. etrans; [|apply IH].
  destruct (col_of header nv.1); [|done]. rewrite set_cell_length. lia.
Qed.

(** A column that no name of the data owns keeps its cell. *)
Lemma write_row_other header (data : list (string * jval)) r j :
  (j < length r)%nat ->
  (forall n, n ∈ data.*1 -> col_of header n <> Some j) ->
  write_row header data r !! j = r !! j.
Proof.
  revert r. induction data as [|[n v] data IH]; intros r Hlt Hcols; [done|].
  rewrite write_row_cons. simpl.
  assert (forall n', n' ∈ data.*1 -> col_of header n' <> Some j) as Hrest.
  { intros n' Hn'. apply Hcols. rewrite fmap_cons. by apply elem_of_cons; right. }
  destruct (col_of header n) as [c|] eqn:Hc; [|by apply IH].
  rewrite IH; [| rewrite set_cell_length; lia | done].
  apply set_cell_ne; [|done]. intros ->. apply (Hcols n); [|done].
  rewrite fmap_cons. apply elem_of_cons. by left.
Qed.

(** The column of a name holds the value written under that name. *)
Lemma write_row_written header (data : list (string * jval)) r n v c :
  NoDup data.*1 -> (n, v) ∈ data -> col_of header n = Some c ->
  write_row header data r !! c = Some v.
Proof.
  revert r. induction data as [|[n1 v1] data IH]; intros r Hnd Hin Hc.
  { by apply elem_of_nil in Hin. }
  rewrite fmap_cons in Hnd. apply NoDup_cons in Hnd as [Hn1 Hnd].
  rewrite write_row_cons. simpl.
  apply elem_of_cons in Hin as [[= <- <-]|Hin].
  - rewrite Hc. rewrite write_row_other.
    + apply set_cell_eq.
    + rewrite set_cell_length. lia.
    + intros n' Hn' Hc'. apply Hn1. by rewrite (col_of_inj _ _ _ _ Hc Hc').
  - by apply IH.
Qed.

(** A row that already holds the data is left as it is. *)
Lemma write_row_id header (data : list (string * jval)) r :
  (forall n v c, (n, v) ∈ data -> col_of header n = Some c -> r !! c = Some v) ->
  write_row header data r = r.
Proof.
  induction data as [|[n v] data IH]; intros Hheld; [done|].
  rewrite write_row_cons. simpl.
  assert (match col_of header n with
          | Some c => set_cell c v r
          | None => r
          end = r) as ->.
  { destruct (col_of header n) as [c|] eqn:Hc; [|done].
    apply set_cell_id. eapply Hheld; [|done]. apply elem_of_cons. by left. }
  apply IH. intros n' v' c' Hin. apply Hheld. apply elem_of_cons. by right.
Qed.

Lemma write_row_idem header (data : list (string * jval)) r :
  NoDup data.*1 ->
  write_row header data (write_row header data r) = write_row header data r.
Proof.
  intros Hnd. apply write_row_id. intros n v c Hin Hc.
  by eapply write_row_written.
Qed.

(** Rows that agree outside [A], written with data that differ only in
    columns of [A], still agree outside [A]. *)
Lemma write_row_agree (A : nat -> Prop) header
    (data data' : list (string * jval)) r r' :
  agree_off A r r' ->
  Forall2 (fun nv nv' =>
             nv.1 = nv'.1 /\
             (nv.2 = nv'.2 \/ forall c, col_of header nv.1 = Some c -> A c))
          data data' ->
  agree_off A (write_row header data r) (write_row header data' r').
Proof.
  intros Hr Hdata. revert r r' Hr.
  induction Hdata as [|[n v] [n' v'] data data' [Hn Hv] _ IH]; intros r r' Hr;
    [done|].
  rewrite !write_row_cons. simpl in *. subst n'. apply IH.
  destruct (col_of header n) as [c|]; [|done].
  apply set_cell_agree; [done|]. destruct Hv as [Hv|Hv]; [by left | right; eauto].
Qed.
End Cells.

(** *** The header *)

Lemma headers_NoDup : NoDup headers.
Proof. apply (bool_decide_unpack _). vm_compute. exact I. Qed.

Section Header.
Implicit Types (hs : list jval).


Lemma add_missing_spec (names : list string) hs :
  let hs' := fold_left add_header names hs in
  (exists ext, hs' = hs ++ ext) /\
  (forall n, n ∈ names -> JStr n ∈ hs') /\
  (forall x, x ∈ hs -> x ∈ hs').
Proof.
  revert hs. induction names as [|n names IH]; intros hs; simpl.
  - split; [by exists []; rewrite app_nil_r|]. split; [|done].
    intros n Hn. by apply elem_of_nil in Hn.
  - destruct (IH (add_header hs n)) as ((ext & Hext) & Hnames & Hkeep).
    assert (exists e, add_header hs n = hs ++ e /\ JStr n ∈ add_header hs n) as (e & He & Hn).
    { unfold add_header. case_bool_decide as Hin.
      - exists []. by rewrite app_nil_r.
      - eexists. split; [done|]. apply elem_of_app. right. by apply list_elem_of_singleton. }
    split; [|split].
    + exists (e ++ ext). by rewrite Hext, He, app_assoc.
    + intros n' [->|Hn']%elem_of_cons; [by apply Hkeep | by apply Hnames].
    + intros x Hx. apply Hkeep. rewrite He. apply elem_of_app. by left.
Qed.

Lemma add_missing_id (names : list string) hs :
  (forall n, n ∈ names -> JStr n ∈ hs) -> fold_left add_header names hs = hs.
Proof.
  induction names as [|n names IH]; intros Hall; simpl; [done|].
  assert (add_header hs n = hs) as ->.
  { unfold add_header. rewrite bool_decide_eq_true_2; [done|]. apply Hall, elem_of_cons. by left. }
  apply IH. intros n' Hn'. apply Hall, elem_of_cons. by right.
Qed.


Lemma ensure_headers_elem hs (n : string) :
  n ∈ headers -> JStr n ∈ ensure_headers hs.
Proof. apply (add_missing_spec headers hs). Qed.

Lemma ensure_headers_id hs :
  (forall n, n ∈ headers -> JStr n ∈ hs) -> ensure_headers hs = hs.
Proof. apply add_missing_id. Qed.

Lemma ensure_headers_idem hs :
  ensure_headers (ensure_headers hs) = ensure_headers hs.
Proof. apply ensure_headers_id. intros n. apply ensure_headers_elem. Qed.
End Header.


Lemma header_ok_ensure hs : header_ok (ensure_headers hs).
Proof. intros n. apply ensure_headers_elem. Qed.

Lemma header_ok_fresh : header_ok (map JStr headers).
Proof. intros n Hn. by apply (list_elem_of_fmap_2 JStr). Qed.

Lemma header_ok_col header (n : string) :
  header_ok header -> n ∈ headers -> is_Some (col_of header n).
Proof. intros Hok Hn. by apply col_of_elem, Hok. Qed.

Lemma row_data_names sync_date qid (item : gmap string jval) :
  (row_data sync_date qid item).*1 = headers.
Proof. done. Qed.

Lemma row_data_NoDup sync_date qid (item : gmap string jval) :
  NoDup (row_data sync_date qid item).*1.
Proof. rewrite row_data_names. apply headers_NoDup. Qed.

(** The identifier column of a written row holds the identifier. *)
Lemma write_row_id_key header sync_date qid (item : gmap string jval)
    (r : list jval) id_col :
  col_of header "Parchment ID" = Some id_col ->
  id_key id_col (write_row header (row_data sync_date qid item) r) = Some qid.
Proof.
  intros Hc. unfold id_key.
  rewrite (write_row_written header _ r "Parchment ID" (JStr qid) id_col);
    [done | apply row_data_NoDup | | done].
  apply elem_of_cons. by left.
Qed.

(* ===================================================================== *)
(** ** The spreadsheet mirror: the update loop in closed form *)
(* ===================================================================== *)




Section DictMore.
Context {V : Type}.
Implicit Types (d : list (string * V)) (k : string) (v : V).

Lemma dict_get_app k d1 d2 :
  dict_get k (d1 ++ d2) =
  match dict_get k d1 with
  | Some v => Some v
  | None => dict_get k d2
  end.
Proof.
  induction d1 as [|[k' v'] d1 IH]; simpl; [done|].
  by destruct (decide (k' = k)).
Qed.

Lemma dict_get_elem k v d : NoDup (dict_keys d) -> (k, v) ∈ d -> dict_get k d = Some v.
Proof.
  unfold dict_keys. induction d as [|[k' v'] d IH]; intros Hnd Hin.
  { by apply elem_of_nil in Hin. }
  rewrite fmap_cons in Hnd. apply NoDup_cons in Hnd as [Hk' Hnd]. simpl.
  apply elem_of_cons in Hin as [[= <- <-]|Hin]; [by rewrite decide_True|].
  rewrite decide_False; [by apply IH|]. intros ->. apply Hk'.
  by apply (list_elem_of_fmap_2 fst) in Hin.
Qed.

(** Lookup does not depend on the order of a dict. *)
Lemma dict_get_perm k d d' :
  NoDup (dict_keys d) -> d ≡ₚ d' -> dict_get k d' = dict_get k d.
Proof.
  intros Hnd Hperm.
  assert (NoDup (dict_keys d')) as Hnd'.
  { unfold dict_keys in *. by rewrite <- Hperm. }
  destruct (dict_get k d) as [v|] eqn:E.
  - apply dict_get_Some_elem in E. rewrite Hperm in E. by apply dict_get_elem.
  - destruct (dict_get k d') as [v'|] eqn:E'; [|done].
    apply dict_get_Some_elem in E'. rewrite <- Hperm in E'.
    apply dict_get_elem in E'; [congruence | done].
Qed.
End DictMore.

Section UpdateLoop.
Variables (sync_date : string) (header : list jval)
          (existing : list (list jval)) (id_col : nat).
Implicit Types (items : list (string * gmap string jval)) (r : list jval).

Lemma id_key_Some r (q : string) :
  id_key id_col r = Some q <-> r !! id_col = Some (JStr q).
Proof.
  unfold id_key. destruct (r !! id_col) as [[|s]|]; split; congruence.
Qed.

Lemma row_of_Some (rows : list (list jval)) (q : string) i :
  row_of rows id_col q = Some i ->
  exists r, rows !! i = Some r /\ id_key id_col r = Some q.
Proof.
  intros (r & Hr & Hp & _)%last_index_Some. exists r. split; [done|].
  apply bool_decide_eq_true in Hp. by apply id_key_Some.
Qed.

Lemma row_of_None (rows : list (list jval)) (q : string) r :
  row_of rows id_col q = None -> r ∈ rows -> id_key id_col r <> Some q.
Proof.
  intros Hnone Hin Hq. apply last_index_None in Hnone.
  rewrite Forall_forall in Hnone. apply Hnone in Hin.
  apply id_key_Some in Hq. by rewrite bool_decide_eq_true_2 in Hin.
Qed.

Lemma mirror_loop_gen (done todo : list (string * gmap string jval)) :
  NoDup (dict_keys (done ++ todo)) ->
  fold_left (mirror_entry sync_date header existing id_col) todo
    (imap (updated_row sync_date header existing id_col done) existing
       ++ appended_rows sync_date header existing id_col done) =
  imap (updated_row sync_date header existing id_col (done ++ todo)) existing
    ++ appended_rows sync_date header existing id_col (done ++ todo).
Proof.
  revert done. induction todo as [|[q e] todo IH]; intros done Hnd.
  { by rewrite app_nil_r. }
  replace (done ++ (q, e) :: todo) with ((done ++ [(q, e)]) ++ todo) in *
    by by rewrite <- app_assoc.
  rewrite <- (IH _ Hnd). cbn [fold_left]. f_equal.
  assert (dict_get q done = None) as Hfresh.
  { apply dict_get_None_keys. unfold dict_keys in *.
    rewrite !fmap_app in Hnd. apply NoDup_app in Hnd as [Hnd _].
    apply NoDup_app in Hnd as (_ & Hdisj & _). intros Hin.
    apply (Hdisj q Hin). apply list_elem_of_singleton. done. }
  assert (forall q', q' <> q ->
            dict_get q' (done ++ [(q, e)]) = dict_get q' done) as Hother.
  { intros q' Hne. rewrite dict_get_app. destruct (dict_get q' done); [done|].
    simpl. by rewrite decide_False. }
  unfold mirror_entry, appended_rows. rewrite omap_app.
  cbn [omap list_omap fst snd].
  destruct (row_of existing id_col q) as [i|] eqn:Hrow.
  - rewrite app_nil_r.
    destruct (row_of_Some _ _ _ Hrow) as (r0 & Hr0 & Hid).
    apply lookup_lt_Some in Hr0 as Hlt.
    rewrite lookup_app_l by by rewrite length_imap.
    rewrite list_lookup_imap, Hr0. simpl.
    rewrite insert_app_l by by rewrite length_imap. f_equal.
    apply list_eq. intros j. destruct (decide (j = i)) as [->|Hne].
    + rewrite list_lookup_insert_eq by by rewrite length_imap.
      rewrite list_lookup_imap, Hr0. simpl. f_equal.
      unfold updated_row. rewrite Hid, Hfresh, dict_get_app, Hfresh. simpl.
      by rewrite !decide_True.
    + rewrite list_lookup_insert_ne by done. rewrite !list_lookup_imap.
      destruct (existing !! j) as [rj|]; [simpl|done]. f_equal.
      unfold updated_row. destruct (id_key id_col rj) as [q'|]; [|done].
      destruct (decide (q' = q)) as [->|Hq']; [|by rewrite Hother].
      rewrite Hfresh, dict_get_app, Hfresh. simpl. rewrite decide_True by done.
      rewrite decide_False; [done|]. rewrite Hrow. congruence.
  - rewrite app_assoc. f_equal. f_equal.
    apply list_eq. intros j. rewrite !list_lookup_imap.
    destruct (existing !! j) as [rj|] eqn:Hrj; [simpl|done]. f_equal.
    unfold updated_row. destruct (id_key id_col rj) as [q'|] eqn:Hid; [|done].
    rewrite Hother; [done|]. intros ->.
    eapply row_of_None; [exact Hrow | | exact Hid].
    by eapply list_elem_of_lookup_2.
Qed.

Lemma updated_row_nil i r : updated_row sync_date header existing id_col [] i r = r.
Proof. unfold updated_row. by destruct (id_key id_col r). Qed.

(** The update loop: every row stays where it is, the last row that
    carries the identifier of an entry is rewritten with the data of
    that entry, and one row is appended per entry without a row. *)
Lemma mirror_loop items :
  NoDup (dict_keys items) ->
  fold_left (mirror_entry sync_date header existing id_col) items existing =
  imap (updated_row sync_date header existing id_col items) existing
    ++ appended_rows sync_date header existing id_col items.
Proof.
  intros Hnd. pose proof (mirror_loop_gen [] items Hnd) as Hgen.
  simpl in Hgen. rewrite <- Hgen.
  rewrite app_nil_r. f_equal. symmetry. apply list_eq. intros j.
  rewrite list_lookup_imap. destruct (existing !! j); [simpl|done].
  by rewrite updated_row_nil.
Qed.
End UpdateLoop.

Lemma filter_ext_Forall {A} (P Q : A -> Prop) `{forall x, Decision (P x)}
    `{forall x, Decision (Q x)} (l : list A) :
  Forall (fun x => P x <-> Q x) l -> filter P l = filter Q l.
Proof.
  induction 1 as [|x l Hx _ IH]; [done|]. rewrite !filter_cons, IH.
  destruct (decide (P x)), (decide (Q x)); tauto.
Qed.

Lemma last_index_of_last_filter {A} (p : A -> bool) (l : list A) (x : A) :
  last (filter (fun y => p y = true) l) = Some x ->
  exists i, last_index p l = Some i /\ l !! i = Some x.
Proof.
  intros Hlast. destruct (last_index p l) as [i|] eqn:E.
  - destruct (last_index_Some _ _ _ E) as (x' & Hx' & _ & Hlast').
    exists i. split; [done|]. congruence.
  - apply last_index_filter_nil in E. by rewrite E in Hlast.
Qed.

(** Being sorted only depends on the keys. *)
Lemma Sorted_same_keys {A} (key : A -> string) (l l' : list A) :
  key <$> l' = key <$> l -> Sorted (key_le key) l -> Sorted (key_le key) l'.
Proof.
  intros Hkeys Hs. revert l' Hkeys.
  induction Hs as [|x l Hl IH Hx]; intros l' Hkeys.
  - destruct l'; [constructor | done].
  - destruct l' as [|x' l']; [done|].
    rewrite !fmap_cons in Hkeys. injection Hkeys as Hx' Hl'.
    constructor; [by apply IH|].
    destruct Hx as [|y l0 Hxy]; destruct l' as [|y' l']; try done;
      constructor.
    rewrite !fmap_cons in Hl'. injection Hl' as Hy' _.
    unfold key_le in *. by rewrite Hx', Hy'.
Qed.

Section RowsOfTheLoop.
Variables (sync_date : string) (header : list jval)
          (existing : list (list jval)) (id_col : nat)
          (items : list (string * gmap string jval)).
Hypothesis Hheader : header_ok header.
Hypothesis Hid_col : col_of header "Parchment ID" = Some id_col.

Lemma updated_row_cases i (r0 : list jval) :
  updated_row sync_date header existing id_col items i r0 = r0 \/
  exists q e, id_key id_col r0 = Some q /\ dict_get q items = Some e /\
              row_of existing id_col q = Some i /\
              updated_row sync_date header existing id_col items i r0
              = write_row header (row_data sync_date q e) r0.
Proof.
  unfold updated_row. destruct (id_key id_col r0) as [q|] eqn:Hq; [|by left].
  destruct (dict_get q items) as [e|] eqn:He; [|by left].
  destruct (decide (row_of existing id_col q = Some i)) as [Hrow|]; [|by left].
  right. by exists q, e.
Qed.

(** The loop never changes the identifier of a row. *)
Lemma updated_row_id_key i (r0 : list jval) :
  id_key id_col (updated_row sync_date header existing id_col items i r0)
  = id_key id_col r0.
Proof.
  destruct (updated_row_cases i r0) as [->|(q & e & Hq & _ & _ & ->)]; [done|].
  rewrite Hq. by apply write_row_id_key.
Qed.

Lemma appended_rows_elem (r : list jval) :
  r ∈ appended_rows sync_date header existing id_col items <->
  exists q e, (q, e) ∈ items /\ row_of existing id_col q = None /\
              r = write_row header (row_data sync_date q e) (blank_row header).
Proof.
  unfold appended_rows. rewrite list_elem_of_omap. split.
  - intros ([q e] & Hin & Hr). simpl in Hr.
    destruct (row_of existing id_col q) eqn:E; [done|].
    inversion Hr. by exists q, e.
  - intros (q & e & Hin & Hnone & ->). exists (q, e). split; [done|].
    simpl. by rewrite Hnone.
Qed.

Lemma appended_rows_length :
  length (appended_rows sync_date header existing id_col items) =
  length (filter (fun qi => row_of existing id_col qi.1 = None) items).
Proof.
  unfold appended_rows. induction items as [|[q e] l IH]; [done|].
  rewrite filter_cons. cbn [omap list_omap fst snd].
  destruct (row_of existing id_col q) as [j|] eqn:E.
  - rewrite decide_False by done. apply IH.
  - rewrite decide_True by done. cbn [length]. f_equal. apply IH.
Qed.
End RowsOfTheLoop.

(* ===================================================================== *)
(** ** The spreadsheet mirror: one run *)
(* ===================================================================== *)





Section OneRun.
Implicit Types (rows : list (list jval))
               (mapping : list (string * gmap string jval)).

Lemma sorted_items_perm mapping : sorted_items mapping ≡ₚ mapping.
Proof. apply sorted_by_perm. Qed.

Lemma sorted_items_NoDup mapping :
  NoDup (dict_keys mapping) -> NoDup (dict_keys (sorted_items mapping)).
Proof. unfold dict_keys. by rewrite sorted_items_perm. Qed.

Lemma sorted_items_get mapping (q : string) :
  NoDup (dict_keys mapping) ->
  dict_get q (sorted_items mapping) = dict_get q mapping.
Proof. intros Hnd. apply dict_get_perm; [done|]. by rewrite sorted_items_perm. Qed.

Lemma header_of_nil : header_of [] = map JStr headers.
Proof. reflexivity. Qed.

Lemma header_of_cons h (data : list (list jval)) :
  header_of (h :: data) = ensure_headers h.
Proof. reflexivity. Qed.

Lemma sheet_with_header_cons rows :
  sheet_with_header rows = header_of rows :: tail (sheet_with_header rows).
Proof.
  destruct rows as [|h data]; [reflexivity|]. by rewrite header_of_cons.
Qed.

Lemma header_of_ok rows : header_ok (header_of rows).
Proof.
  unfold header_of. destruct rows; [apply header_ok_fresh | apply header_ok_ensure].
Qed.

Lemma id_col_of_col rows :
  col_of (header_of rows) "Parchment ID" = Some (id_col_of rows).
Proof.
  unfold id_col_of.
  destruct (header_ok_col (header_of rows) "Parchment ID") as [c ->];
    [apply header_of_ok | | done].
  apply elem_of_cons. by left.
Qed.

Lemma header_of_id_key rows :
  id_key (id_col_of rows) (header_of rows) = Some "Parchment ID".
Proof.
  apply id_key_Some. apply col_of_Some. apply id_col_of_col.
Qed.


(** [mirror], with the loop in closed form. *)
Lemma mirror_run sync_date rows mapping :
  NoDup (dict_keys mapping) ->
  mirror sync_date rows mapping =
  match sort_rows (id_col_of rows) (tail (loop_rows sync_date rows mapping)) with
  | Raise => Raise
  | Ok data_rows =>
      Ok (default [] (head (loop_rows sync_date rows mapping)) :: data_rows)
  end.
Proof.
  intros Hnd. unfold mirror, loop_rows.
  change (match rows with
          | [] => [map JStr headers]
          | current_headers :: data => ensure_headers current_headers :: data
          end) with (sheet_with_header rows).
  change (default [] (head (sheet_with_header rows))) with (header_of rows).
  change (default 0%nat (col_of (header_of rows) "Parchment ID"))
    with (id_col_of rows).
  cbv zeta. by rewrite mirror_loop by by apply sorted_items_NoDup.
Qed.

Lemma loop_rows_cons sync_date rows mapping :
  loop_rows sync_date rows mapping =
  updated_row sync_date (header_of rows) (sheet_with_header rows)
    (id_col_of rows) (sorted_items mapping) 0 (header_of rows)
  :: tail (loop_rows sync_date rows mapping).
Proof.
  unfold loop_rows. pose proof (sheet_with_header_cons rows) as Hcons.
  set (f := updated_row sync_date (header_of rows) (sheet_with_header rows)
              (id_col_of rows) (sorted_items mapping)).
  set (added := appended_rows sync_date (header_of rows)
                  (sheet_with_header rows) (id_col_of rows)
                  (sorted_items mapping)).
  clearbody f added. revert Hcons. generalize (sheet_with_header rows).
  by intros sheet ->.
Qed.

(** The header row is only rewritten when an identifier of the store is
    the text of the identifier column's header. *)
Lemma loop_rows_head sync_date rows mapping :
  NoDup (dict_keys mapping) -> "Parchment ID" ∉ dict_keys mapping ->
  head (loop_rows sync_date rows mapping) = Some (header_of rows).
Proof.
  intros Hnd Hkey. rewrite loop_rows_cons. simpl. f_equal.
  unfold updated_row. rewrite header_of_id_key, sorted_items_get by done.
  apply dict_get_None_keys in Hkey. by rewrite Hkey.
Qed.

(** What a run that completes returns. *)
Lemma mirror_Ok sync_date rows mapping (out : list (list jval)) :
  NoDup (dict_keys mapping) -> "Parchment ID" ∉ dict_keys mapping ->
  mirror sync_date rows mapping = Ok out ->
  out = header_of rows
        :: sorted_by (id_key_or_empty (id_col_of rows))
             (tail (loop_rows sync_date rows mapping)) /\
  Forall (fun r => is_Some (id_key (id_col_of rows) r))
         (tail (loop_rows sync_date rows mapping)).
Proof.
  intros Hnd Hkey. rewrite mirror_run by done. unfold sort_rows.
  destruct (forallb _ _) eqn:Hall; [|done]. intros [= <-].
  rewrite loop_rows_head by done. split; [done|].
  rewrite forallb_forall in Hall. apply Forall_forall.
  intros r Hr%list_elem_of_In. apply Hall in Hr.
  by apply bool_decide_eq_true in Hr.
Qed.
End OneRun.

Section HeldData.
Variables (sync_date : string) (rows : list (list jval))
          (mapping : list (string * gmap string jval)).
Hypothesis Hnd : NoDup (dict_keys mapping).

Abbreviation H := (header_of rows).
Abbreviation S := (sheet_with_header rows).
Abbreviation idc := (id_col_of rows).
Abbreviation items := (sorted_items mapping).


Lemma has_id_true id_col (q : string) (r : list jval) :
  has_id id_col q r = true <-> id_key id_col r = Some q.
Proof. unfold has_id. rewrite bool_decide_eq_true. symmetry. apply id_key_Some. Qed.

Lemma has_id_updated (q : string) :
  has_id idc q <$> imap (updated_row sync_date H S idc items) S = has_id idc q <$> S.
Proof.
  apply list_eq. intros j. rewrite !list_lookup_fmap, list_lookup_imap.
  destruct (S !! j) as [r|]; [simpl|done]. f_equal.
  apply eq_true_iff_eq. rewrite !has_id_true.
  by rewrite updated_row_id_key by apply id_col_of_col.
Qed.

Lemma last_elem {A} (l : list A) (x : A) : last l = Some x -> x ∈ l.
Proof.
  intros (l' & ->)%last_Some. apply elem_of_app. right.
  by apply list_elem_of_singleton.
Qed.

(** After the loop, the last row carrying the identifier of an entry
    holds the data of that entry. *)
Lemma loop_rows_hold (q : string) (e : gmap string jval) :
  dict_get q mapping = Some e ->
  exists r,
    last (filter (fun r => has_id idc q r = true)
                 (loop_rows sync_date rows mapping)) = Some r /\
    write_row H (row_data sync_date q e) r = r.
Proof.
  intros Hqe. unfold loop_rows. rewrite filter_app.
  assert (dict_get q items = Some e) as Hitem by by rewrite sorted_items_get.
  destruct (row_of S idc q) as [i|] eqn:Hrow.
  - assert (filter (fun r => has_id idc q r = true)
              (appended_rows sync_date H S idc items) = []) as ->.
    { apply (proj1 (last_index_filter_nil _ _)), last_index_None, Forall_forall.
      intros r (q' & e' & _ & Hnone & ->)%appended_rows_elem.
      apply not_true_is_false. rewrite has_id_true.
      rewrite write_row_id_key by apply id_col_of_col. congruence. }
    rewrite app_nil_r.
    assert (last_index (has_id idc q)
              (imap (updated_row sync_date H S idc items) S) = Some i) as Hlast.
    { rewrite <- Hrow. unfold row_of. apply last_index_ext, has_id_updated. }
    destruct (last_index_Some _ _ _ Hlast) as (x & Hx & _ & Hfl).
    exists x. split; [done|].
    destruct (row_of_Some _ _ _ _ Hrow) as (r0 & Hr0 & Hid).
    rewrite list_lookup_imap, Hr0 in Hx. simpl in Hx.
    unfold updated_row in Hx. rewrite Hid, Hitem, decide_True in Hx by done.
    assert (x = write_row H (row_data sync_date q e) r0) as -> by congruence.
    apply write_row_idem. apply row_data_NoDup.
  - assert (filter (fun r => has_id idc q r = true)
              (imap (updated_row sync_date H S idc items) S) = []) as ->.
    { apply (proj1 (last_index_filter_nil _ _)).
      rewrite (last_index_ext _ (has_id idc q) _ S) by apply has_id_updated.
      exact Hrow. }
    rewrite app_nil_l.
    set (row_q := write_row H (row_data sync_date q e) (blank_row H)).
    assert (row_q ∈ filter (fun r => has_id idc q r = true)
                     (appended_rows sync_date H S idc items)) as Hin.
    { apply list_elem_of_filter. split.
      - apply has_id_true. apply write_row_id_key, id_col_of_col.
      - apply appended_rows_elem. exists q, e.
        split; [by apply dict_get_Some_elem | done]. }
    destruct (last (filter _ (appended_rows sync_date H S idc items)))
      as [x|] eqn:Hx.
    2:{ apply last_None in Hx. rewrite Hx in Hin. by apply elem_of_nil in Hin. }
    exists x. split; [done|].
    apply last_elem, list_elem_of_filter in Hx as [Hid Hx].
    apply appended_rows_elem in Hx as (q' & e' & Hin' & _ & ->).
    apply has_id_true in Hid.
    rewrite write_row_id_key in Hid by apply id_col_of_col.
    assert (q' = q) as -> by congruence.
    apply dict_get_elem in Hin'; [|by apply sorted_items_NoDup].
    assert (e' = e) as -> by congruence.
    apply write_row_idem. apply row_data_NoDup.
Qed.

Hypothesis Hkey : "Parchment ID" ∉ dict_keys mapping.
Variable out : list (list jval).
Hypothesis Hrun : mirror sync_date rows mapping = Ok out.

Lemma has_id_filter (q : string) (l : list (list jval)) :
  Forall (fun r => is_Some (id_key idc r)) l ->
  filter (fun r => has_id idc q r = true) l =
  filter (fun r => id_key_or_empty idc r = q) l.
Proof.
  intros Hl. apply filter_ext_Forall. eapply Forall_impl; [exact Hl|].
  intros r [k Hk]. simpl. rewrite has_id_true. unfold id_key_or_empty.
  rewrite Hk. simpl. split; congruence.
Qed.

(** Sorting keeps, for every identifier, the rows that carry it and
    their order. *)
Lemma mirror_out_filter (q : string) :
  filter (fun r => has_id idc q r = true) out =
  filter (fun r => has_id idc q r = true) (loop_rows sync_date rows mapping).
Proof.
  destruct (mirror_Ok _ _ _ _ Hnd Hkey Hrun) as [-> Hids].
  rewrite (loop_rows_cons sync_date rows mapping) at 2.
  pose proof (loop_rows_head sync_date rows mapping Hnd Hkey) as Hhead.
  rewrite loop_rows_cons in Hhead. injection Hhead as ->.
  rewrite !(filter_cons _ H).
  assert (filter (fun r => has_id idc q r = true)
            (sorted_by (id_key_or_empty idc)
               (tail (loop_rows sync_date rows mapping))) =
          filter (fun r => has_id idc q r = true)
            (tail (loop_rows sync_date rows mapping))) as ->; [|done].
  rewrite !has_id_filter; [apply sorted_by_filter | done |].
  by rewrite sorted_by_perm.
Qed.

(** In the sheet a run returns, every entry of the store has a row, the
    last one with its identifier, and that row holds its data. *)
Lemma mirror_out_holds (q : string) (e : gmap string jval) :
  dict_get q mapping = Some e ->
  exists i r,
    row_of out idc q = Some i /\ out !! i = Some r /\
    write_row H (row_data sync_date q e) r = r.
Proof.
  intros Hqe. destruct (loop_rows_hold q e Hqe) as (r & Hlast & Hheld).
  rewrite <- mirror_out_filter in Hlast.
  apply last_index_of_last_filter in Hlast as (i & Hi & Hr).
  by exists i, r.
Qed.
End HeldData.

(* ===================================================================== *)
(** ** The spreadsheet mirror: running it again *)
(* ===================================================================== *)



Section RowData.
Variables (header : list jval) (q0 field : string).

Ltac same_or_field k :=
  split; [done|];
  destruct (decide (field = k)) as [->|Hne];
    [right; intros c Hc; right; split; [done | exact Hc]
    | left; unfold get_or, get; by rewrite lookup_insert_ne].

(** The data of the changed entry, before and after. *)
Lemma row_data_changed_field t t' (e : gmap string jval) (v : jval) :
  Forall2 (fun nv nv' =>
             nv.1 = nv'.1 /\
             (nv.2 = nv'.2 \/
              forall c, col_of header nv.1 = Some c ->
                        changed_cols header q0 field q0 c))
          (row_data t q0 e) (row_data t' q0 (<[field := v]> e)).
Proof.
  unfold row_data. repeat apply List.Forall2_cons; try apply List.Forall2_nil;
    simpl.
  - by split; [|left].
  - same_or_field "filename".
  - same_or_field "timestamp".
  - split; [done|]. right. intros c Hc. by left.
  - same_or_field "creator".
  - same_or_field "camera".
  - same_or_field "location".
  - same_or_field "drive_thumb_id".
  - same_or_field "drive_qr_id".
Qed.

(** The data of any other entry, at two times. *)
Lemma row_data_other_time t t' q (e : gmap string jval) :
  Forall2 (fun nv nv' =>
             nv.1 = nv'.1 /\
             (nv.2 = nv'.2 \/
              forall c, col_of header nv.1 = Some c ->
                        changed_cols header q0 field q c))
          (row_data t q e) (row_data t' q e).
Proof.
  unfold row_data. repeat apply List.Forall2_cons; try apply List.Forall2_nil;
    simpl; try (by split; [|left]).
  split; [done|]. right. intros c Hc. by left.
Qed.
End RowData.

Lemma sort_rows_Ok id_col (data_rows : list (list jval)) :
  Forall (fun r => is_Some (id_key id_col r)) data_rows ->
  sort_rows id_col data_rows
  = Ok (sorted_by (id_key_or_empty id_col) data_rows).
Proof.
  intros Hall. unfold sort_rows.
  assert (forallb (fun r => bool_decide (is_Some (id_key id_col r))) data_rows
          = true) as ->; [|done].
  apply forallb_forall. intros r Hr%list_elem_of_In.
  apply bool_decide_eq_true. by eapply Forall_forall in Hall.
Qed.

Lemma appended_rows_nil sync_date header existing id_col
    (items : list (string * gmap string jval)) :
  (forall q, q ∈ dict_keys items -> is_Some (row_of existing id_col q)) ->
  appended_rows sync_date header existing id_col items = [].
Proof.
  intros Hrows.
  destruct (appended_rows sync_date header existing id_col items)
    as [|r l] eqn:E; [done|].
  assert (r ∈ appended_rows sync_date header existing id_col items) as Hin
    by (rewrite E; apply elem_of_cons; by left).
  apply appended_rows_elem in Hin as (q & e & Hin & Hnone & _).
  destruct (Hrows q) as [i Hi]; [|congruence].
  unfold dict_keys. apply list_elem_of_fmap. by exists (q, e).
Qed.

Section Rerun.
Variables (sync_date : string) (rows : list (list jval))
          (mapping : list (string * gmap string jval)).
Hypothesis Hnd : NoDup (dict_keys mapping).
Hypothesis Hkey : "Parchment ID" ∉ dict_keys mapping.
Variable out : list (list jval).
Hypothesis Hrun : mirror sync_date rows mapping = Ok out.

Lemma out_cons : out = header_of rows :: tail out.
Proof. by destruct (mirror_Ok _ _ _ _ Hnd Hkey Hrun) as [-> _]. Qed.

Lemma out_sheet_with_header : sheet_with_header out = out.
Proof.
  rewrite out_cons. simpl. f_equal. apply ensure_headers_id, header_of_ok.
Qed.

Lemma out_header_of : header_of out = header_of rows.
Proof. unfold header_of. rewrite out_sheet_with_header. by rewrite out_cons. Qed.

Lemma out_id_col_of : id_col_of out = id_col_of rows.
Proof. unfold id_col_of. by rewrite out_header_of. Qed.

Lemma out_ids :
  Forall (fun r => is_Some (id_key (id_col_of rows) r)) (tail out).
Proof.
  destruct (mirror_Ok _ _ _ _ Hnd Hkey Hrun) as [-> Hids]. simpl.
  by rewrite sorted_by_perm.
Qed.

(** The data rows leave the run sorted by identifier. *)
Lemma out_sorted :
  Sorted (key_le (id_key_or_empty (id_col_of rows))) (tail out).
Proof.
  destruct (mirror_Ok _ _ _ _ Hnd Hkey Hrun) as [-> _]. simpl.
  apply sorted_by_sorted.
Qed.

Lemma out_row_of (q : string) :
  q ∈ dict_keys mapping -> is_Some (row_of out (id_col_of rows) q).
Proof.
  intros Hq. destruct (dict_get q mapping) as [e|] eqn:He.
  - destruct (mirror_out_holds _ _ _ Hnd Hkey _ Hrun q e He) as (i & _ & Hi & _).
    by exists i.
  - by apply dict_get_None_keys in He.
Qed.

(** A second run over the result, with a store that has the same
    identifiers: every row stays where it is. *)
Lemma mirror_again sync_date' (mapping' : list (string * gmap string jval)) :
  NoDup (dict_keys mapping') ->
  (forall q, q ∈ dict_keys mapping' -> q ∈ dict_keys mapping) ->
  mirror sync_date' out mapping'
  = Ok (imap (updated_row sync_date' (header_of rows) out (id_col_of rows)
                (sorted_items mapping')) out).
Proof.
  intros Hnd' Hsub. rewrite mirror_run by done. unfold loop_rows.
  rewrite out_sheet_with_header, out_header_of, out_id_col_of.
  rewrite appended_rows_nil, app_nil_r.
  2:{ intros q Hq. apply out_row_of, Hsub.
      unfold dict_keys in *. by rewrite sorted_items_perm in Hq. }
  set (f := updated_row sync_date' (header_of rows) out (id_col_of rows)
              (sorted_items mapping')).
  assert (forall l n, id_key (id_col_of rows) <$> imap (fun i => f (n + i)%nat) l
                      = id_key (id_col_of rows) <$> l) as Hkeys.
  { intros l n. apply list_eq. intros j.
    rewrite !list_lookup_fmap, list_lookup_imap.
    destruct (l !! j) as [r|]; [simpl|done]. f_equal.
    apply updated_row_id_key, id_col_of_col. }
  assert (imap f out
          = f 0%nat (header_of rows) :: imap (fun i => f (1 + i)%nat) (tail out))
    as ->.
  { rewrite out_cons at 1. by rewrite imap_cons. }
  cbn [tail head default].
  rewrite sort_rows_Ok.
  2:{ pose proof out_ids as Hids.
      apply (Forall_fmap (id_key (id_col_of rows)) is_Some).
      rewrite Hkeys. by apply Forall_fmap. }
  rewrite sorted_by_id.
  2:{ eapply Sorted_same_keys; [|exact out_sorted].
      unfold id_key_or_empty.
      rewrite !(list_fmap_compose (id_key (id_col_of rows)) (default "")).
      by rewrite Hkeys. }
  done.
Qed.
End Rerun.

Section RerunCells.
Variables (sync_date : string) (rows : list (list jval))
          (mapping : list (string * gmap string jval)).
Hypothesis Hnd : NoDup (dict_keys mapping).
Hypothesis Hkey : "Parchment ID" ∉ dict_keys mapping.
Variable out : list (list jval).
Hypothesis Hrun : mirror sync_date rows mapping = Ok out.

Variables (sync_date' : string)
          (mapping' : list (string * gmap string jval))
          (A : string -> nat -> Prop).
Hypothesis Hnd' : NoDup (dict_keys mapping').
Hypothesis Hdata : forall q e',
  dict_get q mapping' = Some e' ->
  exists e, dict_get q mapping = Some e /\
    Forall2 (fun nv nv' =>
               nv.1 = nv'.1 /\
               (nv.2 = nv'.2 \/
                forall c, col_of (header_of rows) nv.1 = Some c -> A q c))
            (row_data sync_date q e) (row_data sync_date' q e').

(** What the second run does to the row at index [i]. *)
Lemma rerun_row i (r1 : list jval) :
  out !! i = Some r1 ->
  updated_row sync_date' (header_of rows) out (id_col_of rows)
    (sorted_items mapping') i r1 = r1 \/
  exists q, id_key (id_col_of rows) r1 = Some q /\ q ∈ dict_keys mapping' /\
    agree_off (A q) r1
      (updated_row sync_date' (header_of rows) out (id_col_of rows)
         (sorted_items mapping') i r1).
Proof.
  intros Hr1.
  destruct (updated_row_cases sync_date' (header_of rows) out (id_col_of rows)
              (sorted_items mapping') i r1)
    as [->|(q & e' & Hq & Hget & Hrow & ->)]; [by left|right].
  rewrite sorted_items_get in Hget by done.
  exists q. split; [done|]. split.
  { apply dict_get_Some_elem in Hget. unfold dict_keys.
    apply list_elem_of_fmap. by exists (q, e'). }
  destruct (Hdata q e' Hget) as (e & He & Hrel).
  destruct (mirror_out_holds _ _ _ Hnd Hkey _ Hrun q e He)
    as (i' & r & Hi' & Hr & Hheld).
  assert (i' = i) as -> by congruence.
  assert (r = r1) as -> by congruence.
  pose proof (write_row_agree (A q) (header_of rows) _ _ r1 r1
                (agree_off_refl _ _) Hrel) as Hag.
  by rewrite Hheld in Hag.
Qed.
End RerunCells.


Lemma changed_cols_dec header q0 field q j :
  changed_cols header q0 field q j \/ ~ changed_cols header q0 field q j.
Proof.
  unfold changed_cols.
  destruct (decide (col_of header "Sync Date" = Some j)) as [|Hs];
    [by left; left|].
  destruct (decide (q = q0)) as [|Hq]; [|right; tauto].
  destruct (header_of_field field) as [name|]; [|right; tauto].
  destruct (decide (col_of header name = Some j)); [left; tauto | right; tauto].
Qed.

Lemma dict_keys_set_in {V} (k : string) (v v0 : V) (d : list (string * V)) :
  dict_get k d = Some v0 -> dict_keys (dict_set k v d) = dict_keys d.
Proof.
  intros Hk. rewrite dict_keys_set. destruct (decide _) as [|Hnin]; [done|].
  apply dict_get_None_keys in Hnin. congruence.
Qed.

(** X1.  Re-running against a store in which one field of one entry changed:
    rows keep their place and their length; the only cells that can
    differ are those of the "Sync Date" column and, in the row of the
    changed entry, the cell of the column that shows the field. *)
Theorem mirror_rerun_changes sync_date sync_date' rows mapping out
    (q0 field : string) (e0 : gmap string jval) (v : jval) :
  NoDup (dict_keys mapping) -> "Parchment ID" ∉ dict_keys mapping ->
  dict_get q0 mapping = Some e0 ->
  mirror sync_date rows mapping = Ok out ->
  exists out',
    mirror sync_date' out (dict_set q0 (<[field := v]> e0) mapping) = Ok out' /\
    length out' = length out /\
    forall i r r', out !! i = Some r -> out' !! i = Some r' ->
      length r' = length r /\
      forall j, r' !! j <> r !! j ->
        col_of (header_of rows) "Sync Date" = Some j \/
        (id_key (id_col_of rows) r = Some q0 /\
         exists n, header_of_field field = Some n /\
                   col_of (header_of rows) n = Some j).
Proof.
  intros Hnd Hkey Hq0 Hrun.
  set (mapping' := dict_set q0 (<[field := v]> e0) mapping).
  assert (dict_keys mapping' = dict_keys mapping) as Hkeys
    by by eapply dict_keys_set_in.
  assert (NoDup (dict_keys mapping')) as Hnd' by by rewrite Hkeys.
  eexists. split.
  { apply (mirror_again _ _ _ Hnd Hkey _ Hrun); [done|].
    intros q. by rewrite Hkeys. }
  split; [by rewrite length_imap|].
  intros i r r' Hr Hr'. rewrite list_lookup_imap, Hr in Hr'. simpl in Hr'.
  injection Hr' as <-.
  destruct (rerun_row sync_date rows mapping Hnd Hkey out Hrun sync_date'
              mapping' (changed_cols (header_of rows) q0 field) Hnd') with
    (i := i) (r1 := r) as [->|(q & Hq & _ & Hlen & Hag)]; [|done|done|].
  { intros q e' Hget. destruct (decide (q = q0)) as [->|Hne].
    - unfold mapping' in Hget. rewrite dict_get_set_eq in Hget.
      injection Hget as <-. exists e0. split; [done|].
      apply row_data_changed_field.
    - unfold mapping' in Hget. rewrite dict_get_set_ne in Hget by done.
      exists e'. split; [done|]. apply row_data_other_time. }
  split; [done|]. intros j Hj.
  destruct (changed_cols_dec (header_of rows) q0 field q j) as [Hc|Hc].
  - destruct Hc as [Hc|[-> Hc]]; [by left|right]. split; [done|].
    destruct (header_of_field field) as [n|]; [by exists n | done].
  - exfalso. apply Hj. symmetry. by apply Hag.
Qed.

(** X2.  Running the mirror again in the same minute, with the same store,
    writes back the values it read. *)
Theorem mirror_again_same_minute sync_date rows mapping out :
  NoDup (dict_keys mapping) -> "Parchment ID" ∉ dict_keys mapping ->
  mirror sync_date rows mapping = Ok out ->
  mirror sync_date out mapping = Ok out.
Proof.
  intros Hnd Hkey Hrun.
  rewrite (mirror_again _ _ _ Hnd Hkey _ Hrun) by done. f_equal.
  apply list_eq. intros i. rewrite list_lookup_imap.
  destruct (out !! i) as [r|] eqn:Hr; [simpl|done]. f_equal.
  destruct (rerun_row sync_date rows mapping Hnd Hkey out Hrun sync_date
              mapping (fun _ _ => False) Hnd) with (i := i) (r1 := r)
    as [->|(q & Hq & _ & Hlen & Hag)]; [|done|done|].
  { intros q e' Hget. exists e'. split; [done|].
    apply Forall2_same_length_lookup_2; [done|].
    intros k x y Hx Hy. assert (x = y) as -> by congruence.
    by split; [|left]. }
  apply list_eq. intros j. symmetry. apply Hag. tauto.
Qed.

Lemma add_headers_exact (names : list string) (hs : list jval) :
  NoDup names ->
  fold_left add_header names hs
  = hs ++ (JStr <$> filter (fun n => JStr n ∉ hs) names).
Proof.
  intros Hnd. revert hs. induction Hnd as [|n names Hn _ IH]; intros hs.
  - by rewrite app_nil_r.
  - cbn [fold_left]. rewrite IH, filter_cons. unfold add_header.
    case_bool_decide as Hin.
    + by rewrite decide_False by tauto.
    + rewrite decide_True by done. rewrite fmap_cons, <- app_assoc. simpl.
      do 3 f_equal. apply filter_ext_Forall, Forall_forall. intros m Hm. simpl.
      rewrite elem_of_app, list_elem_of_singleton.
      split; [tauto|]. intros Hnin [?|Heq]; [done|].
      injection Heq as ->. done.
Qed.

(** The header step appends exactly the managed names the header
    lacks, once each, in the order of the list of managed names. *)
Lemma ensure_headers_exact (hs : list jval) :
  ensure_headers hs = hs ++ (JStr <$> filter (fun n => JStr n ∉ hs) headers).
Proof. apply add_headers_exact, headers_NoDup. Qed.

(** X3.  The header row after a run: the columns of the sheet in their
    order, then exactly those managed columns that the header read
    lacks, each once and in the order of the list of managed columns;
    so every managed column is there. *)
Theorem mirror_keeps_columns sync_date rows mapping out :
  NoDup (dict_keys mapping) -> "Parchment ID" ∉ dict_keys mapping ->
  mirror sync_date rows mapping = Ok out ->
  exists ext,
    head out = Some (default [] (head rows) ++ ext) /\
    ext = (JStr <$> filter (fun n => JStr n ∉ default [] (head rows))
                           headers) /\
    NoDup ext /\
    forall n, n ∈ headers -> JStr n ∈ default [] (head rows) ++ ext.
Proof.
  intros Hnd Hkey Hrun.
  destruct (mirror_Ok _ _ _ _ Hnd Hkey Hrun) as [-> _].
  pose proof (header_of_ok rows) as Hok.
  change (head (header_of rows :: ?l)) with (Some (header_of rows)).
  assert (header_of rows
          = default [] (head rows)
              ++ (JStr <$> filter (fun n => JStr n ∉ default [] (head rows))
                                  headers)) as Hheader.
  { destruct rows as [|h data].
    - change (default [] (head [])) with (@nil jval).
      rewrite header_of_nil, app_nil_l. by f_equal.
    - change (default [] (head (h :: data))) with h.
      rewrite header_of_cons. apply ensure_headers_exact. }
  eexists. split; [by rewrite Hheader|]. split; [done|]. split.
  - assert (Inj eq eq JStr) as Hinj by (by intros ? ? [=]).
    apply (NoDup_fmap_2 JStr), NoDup_filter, headers_NoDup.
  - by rewrite <- Hheader.
Qed.

Lemma appended_rows_keys sync_date header existing id_col
    (items : list (string * gmap string jval)) :
  Forall2 (fun q r => exists e, (q, e) ∈ items /\
             r = write_row header (row_data sync_date q e) (blank_row header))
    (filter (fun q => row_of existing id_col q = None) (dict_keys items))
    (appended_rows sync_date header existing id_col items).
Proof.
  unfold appended_rows, dict_keys.
  induction items as [|[q e] l IH]; [constructor|].
  rewrite fmap_cons, filter_cons. cbn [omap list_omap fst snd].
  assert (Forall2 (fun q0 r => exists e0, (q0, e0) ∈ (q, e) :: l /\
             r = write_row header (row_data sync_date q0 e0) (blank_row header))
            (filter (fun q0 => row_of existing id_col q0 = None) l.*1)
            (omap (fun qi => match row_of existing id_col qi.1 with
                             | Some _ => None
                             | None => Some (write_row header
                                 (row_data sync_date qi.1 qi.2) (blank_row header))
                             end) l)) as IH'.
  { eapply Forall2_impl; [exact IH|]. intros q0 r (e0 & Hin & ->).
    exists e0. split; [|done]. apply elem_of_cons. by right. }
  destruct (row_of existing id_col q) eqn:E.
  - by rewrite decide_False.
  - rewrite decide_True by done. constructor; [|done].
    exists e. split; [|done]. apply elem_of_cons. by left.
Qed.

Lemma loop_rows_tail sync_date rows mapping :
  tail (loop_rows sync_date rows mapping)
  = imap (updated_row sync_date (header_of rows) (sheet_with_header rows)
            (id_col_of rows) (sorted_items mapping) ∘ S) (tail rows)
    ++ appended_rows sync_date (header_of rows) (sheet_with_header rows)
         (id_col_of rows) (sorted_items mapping).
Proof.
  unfold loop_rows. rewrite (sheet_with_header_cons rows) at 2.
  rewrite imap_cons. cbn [tail app]. by destruct rows.
Qed.

(** X4.  No row is deleted: up to the final sort, the data rows written are
    the data rows read, each either as it was or rewritten with the data
    of the entry it names, followed by one new row per entry that no row
    names. *)
Theorem mirror_keeps_rows sync_date rows mapping out :
  NoDup (dict_keys mapping) -> "Parchment ID" ∉ dict_keys mapping ->
  mirror sync_date rows mapping = Ok out ->
  exists kept added,
    tail out ≡ₚ kept ++ added /\
    Forall2 (fun r0 r =>
               r = r0 \/
               exists q e, id_key (id_col_of rows) r0 = Some q /\
                           dict_get q mapping = Some e /\
                           r = write_row (header_of rows)
                                 (row_data sync_date q e) r0)
            (tail rows) kept /\
    Forall2 (fun q r =>
               exists e, dict_get q mapping = Some e /\
                 r = write_row (header_of rows) (row_data sync_date q e)
                       (replicate (length (header_of rows)) (JStr "")))
            (filter (fun q => row_of (sheet_with_header rows)
                                (id_col_of rows) q = None)
                    (dict_keys (sorted_items mapping)))
            added.
Proof.
  intros Hnd Hkey Hrun.
  destruct (mirror_Ok _ _ _ _ Hnd Hkey Hrun) as [-> _].
  set (f := updated_row sync_date (header_of rows) (sheet_with_header rows)
              (id_col_of rows) (sorted_items mapping)).
  exists (imap (f ∘ S) (tail rows)),
         (appended_rows sync_date (header_of rows) (sheet_with_header rows)
            (id_col_of rows) (sorted_items mapping)).
  split; [|split].
  - cbn [tail]. by rewrite sorted_by_perm, loop_rows_tail.
  - apply Forall2_same_length_lookup_2; [by rewrite length_imap|].
    intros i r0 r Hr0 Hr. rewrite list_lookup_imap, Hr0 in Hr.
    injection Hr as <-. unfold f, compose.
    destruct (updated_row_cases sync_date (header_of rows)
                (sheet_with_header rows) (id_col_of rows)
                (sorted_items mapping) (S i) r0)
      as [->|(q & e & Hq & Hget & _ & ->)]; [by left|right].
    rewrite sorted_items_get in Hget by done. by exists q, e.
  - eapply Forall2_impl; [apply appended_rows_keys|].
    intros q r (e & Hin & ->). exists e. split; [|done].
    rewrite <- (sorted_items_get mapping q Hnd).
    apply dict_get_elem; [by apply sorted_items_NoDup | done].
Qed.

(** X5.  The data rows are written in the order of their identifiers; every
    one of them has an identifier. *)
Theorem mirror_sorts_rows sync_date rows mapping out :
  NoDup (dict_keys mapping) -> "Parchment ID" ∉ dict_keys mapping ->
  mirror sync_date rows mapping = Ok out ->
  Forall (fun r => is_Some (id_key (id_col_of rows) r)) (tail out) /\
  Sorted (fun r r' => String.leb (id_key_or_empty (id_col_of rows) r)
                                 (id_key_or_empty (id_col_of rows) r') = true)
         (tail out).
Proof.
  intros Hnd Hkey Hrun. split.
  - by apply (out_ids sync_date rows mapping).
  - by apply (out_sorted sync_date rows mapping).
Qed.

(** X6.  Every entry of the store is shown: the last row that carries its
    identifier holds, under each managed column, the value computed
    from the entry. *)
Theorem mirror_shows_every_entry sync_date rows mapping out
    (q : string) (e : gmap string jval) :
  NoDup (dict_keys mapping) -> "Parchment ID" ∉ dict_keys mapping ->
  mirror sync_date rows mapping = Ok out ->
  dict_get q mapping = Some e ->
  exists i r,
    row_of out (id_col_of rows) q = Some i /\ out !! i = Some r /\
    forall n v c, (n, v) ∈ row_data sync_date q e ->
                  col_of (header_of rows) n = Some c -> r !! c = Some v.
Proof.
  intros Hnd Hkey Hrun Hq.
  destruct (mirror_out_holds _ _ _ Hnd Hkey _ Hrun q e Hq)
    as (i & r & Hi & Hr & Hheld).
  exists i, r. split; [done|]. split; [done|]. intros n v c Hin Hc.
  rewrite <- Hheld. eapply write_row_written; [apply row_data_NoDup | done..].
Qed.

Lemma mirror_raises_without_id sync_date h data mapping (r : list jval) :
  NoDup (dict_keys mapping) -> r ∈ data ->
  id_key (id_col_of (h :: data)) r = None ->
  mirror sync_date (h :: data) mapping = Raise.
Proof.
  intros Hnd Hr Hid. rewrite mirror_run by done. rewrite loop_rows_tail.
  unfold sort_rows. cbn [tail].
  destruct (forallb _ _) eqn:Hall; [exfalso|done].
  rewrite forallb_forall in Hall.
  apply list_elem_of_lookup in Hr as [i Hi].
  assert (bool_decide (is_Some (id_key (id_col_of (h :: data)) r)) = true)
    as Hsome.
  { apply Hall, list_elem_of_In, elem_of_app. left.
    apply list_elem_of_lookup. exists i.
    rewrite list_lookup_imap, Hi. simpl. f_equal.
    unfold updated_row. by rewrite Hid. }
  apply bool_decide_eq_true in Hsome. rewrite Hid in Hsome.
  by destruct Hsome.
Qed.

(** X7.  A data row that is too short to have a cell in the identifier
    column (a blank row of the sheet, for instance, which is read as an
    empty list) makes the key function of the final sort raise an
    IndexError, however many rows there are: nothing is written, the
    sheet stays as it was read. *)
Theorem log_to_gsheet_blocked_by_short_row `{P : Platform}
    (sheet_id : string) h data mapping (r : list jval) :
  NoDup (dict_keys mapping) -> r ∈ data ->
  (length r <= id_col_of (h :: data))%nat ->
  log_to_gsheet sheet_id (h :: data) mapping = h :: data.
Proof.
  intros Hnd Hr Hshort. unfold log_to_gsheet.
  destruct (_ || _); [done|].
  rewrite (mirror_raises_without_id _ _ _ _ r); [done..|].
  unfold id_key. by rewrite lookup_ge_None_2.
Qed.



Ltac by_computation := apply (bool_decide_unpack _); vm_compute; exact I.

Lemma sample_store_NoDup : NoDup (dict_keys sample_store).
Proof. by_computation. Qed.

Lemma sample_store_no_header_id : "Parchment ID" ∉ dict_keys sample_store.
Proof. by_computation. Qed.

Lemma mirror_rerun_changes_witness :
  exists out',
    mirror "2026-01-02 09:30" sheet_after
      (dict_set "P2" (<["creator" := JStr "Cy"]> entry_complete) sample_store)
    = Ok out' /\
    length out' = length sheet_after /\
    forall i r r', sheet_after !! i = Some r -> out' !! i = Some r' ->
      length r' = length r /\
      forall j, r' !! j <> r !! j ->
        col_of (header_of sheet_seen) "Sync Date" = Some j \/
        (id_key (id_col_of sheet_seen) r = Some "P2" /\
         exists n, header_of_field "creator" = Some n /\
                   col_of (header_of sheet_seen) n = Some j).
Proof.
  apply (mirror_rerun_changes "2026-01-01 00:00" "2026-01-02 09:30"
           sheet_seen sample_store sheet_after "P2" "creator" entry_complete
           (JStr "Cy")).
  - apply sample_store_NoDup.
  - apply sample_store_no_header_id.
  - vm_compute. reflexivity.
  - vm_compute. reflexivity.
Defined.

Lemma mirror_again_same_minute_witness :
  mirror "2026-01-01 00:00" sheet_after sample_store = Ok sheet_after.
Proof.
  apply (mirror_again_same_minute "2026-01-01 00:00" sheet_seen sample_store).
  - apply sample_store_NoDup.
  - apply sample_store_no_header_id.
  - vm_compute. reflexivity.
Defined.

Lemma mirror_keeps_columns_witness :
  exists ext,
    head sheet_after
    = Some ([JStr "Notes"; JStr "Parchment ID"; JStr "Creator"] ++ ext) /\
    ext = (JStr <$> filter (fun n => JStr n ∉ [JStr "Notes";
                                               JStr "Parchment ID";
                                               JStr "Creator"])
                           headers) /\
    NoDup ext /\
    forall n, n ∈ headers ->
      JStr n ∈ [JStr "Notes"; JStr "Parchment ID"; JStr "Creator"] ++ ext.
Proof.
  apply (mirror_keeps_columns "2026-01-01 00:00" sheet_seen sample_store).
  - apply sample_store_NoDup.
  - apply sample_store_no_header_id.
  - vm_compute. reflexivity.
Defined.

Lemma mirror_keeps_rows_witness :
  exists kept added,
    tail sheet_after ≡ₚ kept ++ added /\
    Forall2 (fun r0 r =>
               r = r0 \/
               exists q e, id_key (id_col_of sheet_seen) r0 = Some q /\
                           dict_get q sample_store = Some e /\
                           r = write_row (header_of sheet_seen)
                                 (row_data "2026-01-01 00:00" q e) r0)
            (tail sheet_seen) kept /\
    Forall2 (fun q r =>
               exists e, dict_get q sample_store = Some e /\
                 r = write_row (header_of sheet_seen)
                       (row_data "2026-01-01 00:00" q e)
                       (replicate (length (header_of sheet_seen)) (JStr "")))
            (filter (fun q => row_of (sheet_with_header sheet_seen)
                                (id_col_of sheet_seen) q = None)
                    (dict_keys (sorted_items sample_store)))
            added.
Proof.
  apply (mirror_keeps_rows "2026-01-01 00:00" sheet_seen sample_store).
  - apply sample_store_NoDup.
  - apply sample_store_no_header_id.
  - vm_compute. reflexivity.
Defined.

Lemma mirror_sorts_rows_witness :
  Forall (fun r => is_Some (id_key (id_col_of sheet_seen) r))
         (tail sheet_after) /\
  Sorted (fun r r' => String.leb (id_key_or_empty (id_col_of sheet_seen) r)
                                 (id_key_or_empty (id_col_of sheet_seen) r')
                      = true)
         (tail sheet_after).
Proof.
  apply (mirror_sorts_rows "2026-01-01 00:00" sheet_seen sample_store).
  - apply sample_store_NoDup.
  - apply sample_store_no_header_id.
  - vm_compute. reflexivity.
Defined.

Lemma mirror_shows_every_entry_witness :
  exists i r,
    row_of sheet_after (id_col_of sheet_seen) "P1" = Some i /\
    sheet_after !! i = Some r /\
    forall n v c, (n, v) ∈ row_data "2026-01-01 00:00" "P1" entry_without_camera ->
                  col_of (header_of sheet_seen) n = Some c -> r !! c = Some v.
Proof.
  apply (mirror_shows_every_entry "2026-01-01 00:00" sheet_seen sample_store).
  - apply sample_store_NoDup.
  - apply sample_store_no_header_id.
  - vm_compute. reflexivity.
  - vm_compute. reflexivity.
Defined.

Lemma log_to_gsheet_blocked_witness :
  @log_to_gsheet studio "sheet-1" sheet_with_blank_row sample_store
  = sheet_with_blank_row.
Proof.
  apply (@log_to_gsheet_blocked_by_short_row studio "sheet-1"
           [JStr "Parchment ID"; JStr "Creator"]
           [[JStr "P2"; JStr "Bea"]; []; [JStr "P9"]] sample_store []).
  - apply sample_store_NoDup.
  - apply elem_of_cons. right. apply elem_of_cons. by left.
  - simpl. lia.
Defined.

(** X8.  A data row is written back as it was read unless it is the last row
    that carries an identifier of the store: the rows of parchments the
    store does not hold, and all but the last of several rows with the
    same identifier, keep their cells. *)
Theorem mirror_leaves_other_rows sync_date rows mapping out
    (i : nat) (r : list jval) :
  NoDup (dict_keys mapping) -> "Parchment ID" ∉ dict_keys mapping ->
  mirror sync_date rows mapping = Ok out ->
  rows !! S i = Some r ->
  (forall q, id_key (id_col_of rows) r = Some q -> q ∈ dict_keys mapping ->
             row_of (sheet_with_header rows) (id_col_of rows) q
             <> Some (S i)) ->
  r ∈ tail out.
Proof.
  intros Hnd Hkey Hrun Hr Hother.
  destruct (mirror_Ok _ _ _ _ Hnd Hkey Hrun) as [-> _]. cbn [tail].
  rewrite sorted_by_perm, loop_rows_tail. apply elem_of_app. left.
  apply list_elem_of_lookup. exists i.
  assert (tail rows !! i = Some r) as Ht by by destruct rows.
  rewrite list_lookup_imap, Ht. simpl. f_equal.
  destruct (updated_row_cases sync_date (header_of rows)
              (sheet_with_header rows) (id_col_of rows)
              (sorted_items mapping) (S i) r)
    as [->|(q & e & Hq & Hget & Hrow & _)]; [done|].
  exfalso. apply (Hother q Hq); [|done].
  rewrite sorted_items_get in Hget by done.
  apply dict_get_Some_elem in Hget. unfold dict_keys.
  apply list_elem_of_fmap. by exists (q, e).
Qed.

Lemma mirror_leaves_other_rows_witness :
  exists out,
    mirror "2026-01-01 00:00" sheet_with_duplicates sample_store = Ok out /\
    [JStr "P2"; JStr "first copy"] ∈ tail out.
Proof.
  destruct (mirror "2026-01-01 00:00" sheet_with_duplicates sample_store)
    as [out|] eqn:E; [|vm_compute in E; discriminate E].
  exists out. split; [reflexivity|].
  apply (mirror_leaves_other_rows "2026-01-01 00:00" sheet_with_duplicates
           sample_store out 0%nat [JStr "P2"; JStr "first copy"]).
  - apply sample_store_NoDup.
  - apply sample_store_no_header_id.
  - exact E.
  - reflexivity.
  - intros q Hq _. vm_compute in Hq. injection Hq as <-.
    vm_compute. discriminate.
Defined.

(* ===================================================================== *)
(** ** Thumbnail Generator: the crop box *)
(* ===================================================================== *)

(** X9.  For a rectangle that lies inside the picture the crop box holds the
    whole rectangle and stays inside the picture. *)
Theorem qr_box_holds_rect (img_h img_w : Z) (rect : Rect) :
  (0 <= r_left rect)%Z -> (0 <= r_top rect)%Z ->
  (0 <= r_width rect)%Z -> (0 <= r_height rect)%Z ->
  (r_left rect + r_width rect <= img_w)%Z ->
  (r_top rect + r_height rect <= img_h)%Z ->
  let '(y1, y2, x1, x2) := qr_box img_h img_w rect in
  (0 <= y1 <= r_top rect /\ r_top rect + r_height rect <= y2 <= img_h /\
   0 <= x1 <= r_left rect /\ r_left rect + r_width rect <= x2 <= img_w)%Z.
Proof.
  intros Hl Ht Hw Hh Hx Hy. unfold qr_box, pad20. cbv zeta.
  pose proof (Z.quot_pos (r_width rect) 5 Hw ltac:(lia)).
  pose proof (Z.quot_pos (r_height rect) 5 Hh ltac:(lia)).
  lia.
Qed.

Lemma qr_box_holds_rect_witness :
  let '(y1, y2, x1, x2) := qr_box 400 600 rect_inside_picture in
  (0 <= y1 <= 10 /\ 10 + 50 <= y2 <= 400 /\
   0 <= x1 <= 10 /\ 10 + 50 <= x2 <= 600)%Z.
Proof.
  apply (qr_box_holds_rect 400 600 rect_inside_picture); simpl; lia.
Defined.

(* ===================================================================== *)
(** ** Healing pass and upload backfill: what they leave alone *)
(* ===================================================================== *)

Section Frames.
Context `{P : Platform}.
Implicit Types (item : gmap string jval) (qid : string).

Lemma entry_fix_frame qid item (k : string) :
  k ∉ derived_fields -> entry_fix qid item !! k = item !! k.
Proof.
  intros Hk. unfold derived_fields in Hk.
  rewrite !not_elem_of_cons in Hk. destruct Hk as (H1 & H2 & H3 & H4 & H5 & _).
  unfold entry_fix. rewrite creator_fix_frame by done.
  destruct (get_or "local_path" (JStr "") item); [done|].
  destruct (fs_exists s); [|done]. by apply media_of_frame.
Qed.

(** X10.  The healing pass keeps the entries, their order and their
    identifiers, and writes no field other than the thumbnail paths, the
    camera, the location and the creator. *)
Theorem heal_writes_only_derived_fields
    (mapping : list (string * gmap string jval)) :
  Forall2 (fun qe qe' =>
             qe'.1 = qe.1 /\
             forall k, k ∉ derived_fields -> qe'.2 !! k = qe.2 !! k)
          mapping (hp_store (heal_pass mapping)).
Proof.
  unfold heal_pass. rewrite heal_loop_store by apply cache_ok_nil.
  induction mapping as [|[qid item] rest IH]; [constructor|]. simpl.
  destruct (get_or "local_path" (JStr "") item).
  - apply Forall2_same_length_lookup_2; [done|].
    intros i x y Hx Hy. by assert (y = x) as -> by congruence.
  - constructor; [|done]. split; [done|]. intros k Hk. by apply entry_fix_frame.
Qed.

Lemma backfill_entry_frame qid item (k : string) :
  k <> "drive_thumb_id" -> k <> "drive_qr_id" ->
  (backfill_entry qid item).1 !! k = item !! k.
Proof.
  intros H1 H2. unfold backfill_entry.
  repeat case_match; simplify_eq/=; rewrite ?lookup_insert_ne by done; done.
Qed.

(** X11.  The upload backfill keeps the entries, their order and their
    identifiers, and writes no field other than the two remote
    references. *)
Theorem backfill_writes_only_remote_refs
    (mapping : list (string * gmap string jval)) :
  Forall2 (fun qe qe' =>
             qe'.1 = qe.1 /\
             forall k, k <> "drive_thumb_id" -> k <> "drive_qr_id" ->
                       qe'.2 !! k = qe.2 !! k)
          mapping (backfill_loop mapping).1.
Proof.
  induction mapping as [|[qid item] rest IH]; [constructor|]. simpl.
  pose proof (backfill_entry_frame qid item) as Hframe.
  destruct (backfill_entry qid item) as [item' ev].
  destruct (backfill_loop rest) as [rest' evs]. simpl in *.
  constructor; [|done]. by split.
Qed.

Lemma upload_thumbnail_events (local_path : jval) qid (ty : string) (e : event) :
  e ∈ (upload_thumbnail local_path qid ty).2 ->
  exists path, local_path = JStr path /\
               e = EvCreate (qid ++ "_" ++ ty ++ ".jpg") path.
Proof.
  unfold upload_thumbnail. destruct (negb _); [by intros ?%elem_of_nil|].
  destruct local_path as [|path]; [by intros ?%elem_of_nil|].
  destruct (drive_create _ path); [|by intros ?%elem_of_nil].
  intros ->%list_elem_of_singleton. by exists path.
Qed.

Lemma truthy_JStr (v : jval) :
  truthy v = true -> exists s, v = JStr s /\ s <> "".
Proof.
  destruct v as [|s]; [done|]. simpl. intros Hs. exists s. split; [done|].
  intros ->. done.
Qed.

(** Every upload of the backfill is for a thumbnail whose entry has a
    path and no remote reference yet. *)
Lemma backfill_entry_uploads qid item (e : event) :
  e ∈ (backfill_entry qid item).2 ->
  exists path, path <> "" /\
    ((e = EvCreate (qid ++ "_thumb.jpg") path /\
      get "thumb_path" item = JStr path /\
      truthy (get "drive_thumb_id" item) = false) \/
     (e = EvCreate (qid ++ "_qr.jpg") path /\
      get "qr_path" item = JStr path /\
      truthy (get "drive_qr_id" item) = false)).
Proof.
  unfold backfill_entry.
  destruct (truthy (get "thumb_path" item)
            && negb (truthy (get "drive_thumb_id" item))) eqn:Ht.
  - apply andb_true_iff in Ht as [Htp Hd%negb_true_iff].
    apply truthy_JStr in Htp as (tp & Htp & Hne).
    pose proof (upload_thumbnail_events (get "thumb_path" item) qid "thumb")
      as Hev1.
    destruct (upload_thumbnail (get "thumb_path" item) qid "thumb")
      as [id1 ev1].
    rewrite !get_insert_ne by discriminate.
    destruct (truthy (get "qr_path" item)
              && negb (truthy (get "drive_qr_id" item))) eqn:Hq.
    + apply andb_true_iff in Hq as [Hqp Hdq%negb_true_iff].
      apply truthy_JStr in Hqp as (qp & Hqp & Hneq).
      pose proof (upload_thumbnail_events (get "qr_path" item) qid "qr")
        as Hev2.
      destruct (upload_thumbnail (get "qr_path" item) qid "qr") as [id2 ev2].
      simpl in *. intros [He|He]%elem_of_app.
      * destruct (Hev2 e He) as (path & Hp & ->). exists qp.
        split; [done|]. right. rewrite Hqp in Hp. by injection Hp as <-.
      * destruct (Hev1 e He) as (path & Hp & ->). exists tp.
        split; [done|]. left. rewrite Htp in Hp. by injection Hp as <-.
    + simpl. intros He. destruct (Hev1 e He) as (path & Hp & ->). exists tp.
      split; [done|]. left. rewrite Htp in Hp. by injection Hp as <-.
  - destruct (truthy (get "qr_path" item)
              && negb (truthy (get "drive_qr_id" item))) eqn:Hq.
    + apply andb_true_iff in Hq as [Hqp Hdq%negb_true_iff].
      apply truthy_JStr in Hqp as (qp & Hqp & Hneq).
      pose proof (upload_thumbnail_events (get "qr_path" item) qid "qr")
        as Hev2.
      destruct (upload_thumbnail (get "qr_path" item) qid "qr") as [id2 ev2].
      simpl. rewrite app_nil_r. intros He.
      destruct (Hev2 e He) as (path & Hp & ->). exists qp.
      split; [done|]. right. rewrite Hqp in Hp. by injection Hp as <-.
    + simpl. by intros ?%elem_of_nil.
Qed.

(** X12.  The upload backfill never uploads again what has a remote
    reference: each upload it performs is the thumbnail (or QR crop) of
    an entry of the store that has a path for it and no reference. *)
Theorem backfill_uploads_only_missing
    (mapping : list (string * gmap string jval)) (e : event) :
  e ∈ (backfill_loop mapping).2 ->
  exists qid item path,
    (qid, item) ∈ mapping /\ path <> "" /\
    ((e = EvCreate (qid ++ "_thumb.jpg") path /\
      get "thumb_path" item = JStr path /\
      truthy (get "drive_thumb_id" item) = false) \/
     (e = EvCreate (qid ++ "_qr.jpg") path /\
      get "qr_path" item = JStr path /\
      truthy (get "drive_qr_id" item) = false)).
Proof.
  induction mapping as [|[qid item] rest IH]; simpl.
  - by intros ?%elem_of_nil.
  - pose proof (backfill_entry_uploads qid item e) as Hentry.
    destruct (backfill_entry qid item) as [item' ev].
    destruct (backfill_loop rest) as [rest' evs]. simpl in *.
    intros [He|He]%elem_of_app.
    + destruct (IH He) as (q & it & path & Hin & Hrest).
      exists q, it, path. split; [|done]. apply elem_of_cons. by right.
    + destruct (Hentry He) as (path & Hrest).
      exists qid, item, path. split; [|done]. apply elem_of_cons. by left.
Qed.

Section UploadsSucceed.
Hypothesis Hfolder : truthy (jopt thumbs_folder_id) = true.
Hypothesis Hcreate : forall name path,
  exists id, drive_create name path = Ok (JStr id) /\ id <> "".

Lemma upload_thumbnail_ok (local_path : jval) qid (ty : string) :
  truthy local_path = true ->
  exists id evs, upload_thumbnail local_path qid ty = (JStr id, evs) /\
                 truthy (JStr id) = true.
Proof.
  intros (path & -> & _)%truthy_JStr. unfold upload_thumbnail.
  rewrite Hfolder.
  destruct (Hcreate (qid ++ "_" ++ ty ++ ".jpg") path) as (id & -> & Hid).
  exists id, [EvCreate (qid ++ "_" ++ ty ++ ".jpg") path]. split; [done|].
  simpl. by destruct id.
Qed.

Lemma backfill_entry_settled qid item :
  (truthy (get "thumb_path" item) = true ->
   truthy (get "drive_thumb_id" item) = true) ->
  (truthy (get "qr_path" item) = true ->
   truthy (get "drive_qr_id" item) = true) ->
  backfill_entry qid item = (item, []).
Proof.
  intros Ht Hq. unfold backfill_entry.
  destruct (truthy (get "thumb_path" item)) eqn:E1;
    [rewrite Ht by done|]; simpl;
    (destruct (truthy (get "qr_path" item)) eqn:E2;
       [rewrite Hq by done|]); done.
Qed.

Lemma backfill_entry_settles qid item :
  let item' := (backfill_entry qid item).1 in
  (truthy (get "thumb_path" item') = true ->
   truthy (get "drive_thumb_id" item') = true) /\
  (truthy (get "qr_path" item') = true ->
   truthy (get "drive_qr_id" item') = true).
Proof.
  unfold backfill_entry.
  destruct (truthy (get "thumb_path" item)) eqn:E1;
    destruct (truthy (get "drive_thumb_id" item)) eqn:E2; simpl;
    try (destruct (upload_thumbnail_ok (get "thumb_path" item) qid "thumb" E1)
           as (id1 & ev1 & -> & Hid1));
    rewrite ?get_insert_ne by discriminate;
    (destruct (truthy (get "qr_path" item)) eqn:E3;
     destruct (truthy (get "drive_qr_id" item)) eqn:E4; simpl;
     try (destruct (upload_thumbnail_ok (get "qr_path" item) qid "qr" E3)
            as (id2 & ev2 & -> & Hid2)));
    simpl; rewrite ?get_insert, ?get_insert_ne by discriminate;
    rewrite ?get_insert; split; intros; congruence.
Qed.

(** X13.  When the thumbnail folder is known and every upload succeeds, a
    second backfill over the result of the first uploads nothing and
    leaves the store as it is. *)
Theorem backfill_twice_uploads_nothing
    (mapping : list (string * gmap string jval)) :
  backfill_loop (backfill_loop mapping).1 = ((backfill_loop mapping).1, []).
Proof.
  induction mapping as [|[qid item] rest IH]; [done|]. simpl.
  pose proof (backfill_entry_settles qid item) as [Ht Hq].
  destruct (backfill_entry qid item) as [item' ev].
  destruct (backfill_loop rest) as [rest' evs]. simpl in *.
  rewrite (backfill_entry_settled qid item' Ht Hq), IH. done.
Qed.
End UploadsSucceed.

Lemma generate_thumbnails_no_upload qid data rect name path :
  EvCreate name path ∉ (generate_thumbnails qid data rect).2.
Proof.
  unfold generate_thumbnails, generate_thumbnails_try.
  repeat case_match; simplify_eq/=;
    rewrite ?not_elem_of_cons; repeat split; try done; apply not_elem_of_nil.
Qed.

Lemma heal_media_no_upload qid local_img (st : heal_st) name path :
  EvCreate name path ∈ hs_events (heal_media qid local_img st) ->
  EvCreate name path ∈ hs_events st.
Proof.
  unfold heal_media. destruct (_ || _); [|done].
  destruct (fs_read local_img) as [data|]; [|done].
  destruct (heal_thumbs qid data st) as [st'|] eqn:E; [|done].
  assert (EvCreate name path ∈ hs_events st' ->
          EvCreate name path ∈ hs_events st) as Hst'.
  { unfold heal_thumbs in E. destruct (negb _); [|by inversion E; subst].
    destruct (detect_qr data) as [qr rect].
    pose proof (generate_thumbnails_no_upload qid data rect name path) as Hev.
    destruct (generate_thumbnails qid data rect) as [r evs].
    destruct (unpack2 r) as [[t q]|]; [|done].
    inversion E; subst. simpl. intros [Hin|Hin]%elem_of_app; done. }
  unfold heal_exif. destruct (_ || _); [|done]. by destruct (extract_exif data).
Qed.

Lemma heal_loop_no_upload zip_owners
    (mapping : list (string * gmap string jval)) name path :
  EvCreate name path ∉ hp_events (heal_loop zip_owners mapping).
Proof.
  revert zip_owners. induction mapping as [|[qid item] rest IH]; intros zo; simpl.
  - apply not_elem_of_nil.
  - destruct (heal_entry zo qid item) as [[st zo']|] eqn:E;
      [|apply not_elem_of_nil].
    simpl. intros [Hin|Hin]%elem_of_app; [by eapply IH|].
    unfold heal_entry in E. destruct (path_exists _) as [ex|]; [|done].
    inversion E as [Heq]. apply (f_equal (fun x => hs_events (fst x))) in Heq.
    rewrite heal_creator_events in Heq. simpl in Heq. rewrite <- Heq in Hin.
    destruct ex; [|by apply elem_of_nil in Hin].
    destruct (get_or _ _ _) as [|p]; [by apply elem_of_nil in Hin|].
    apply heal_media_no_upload in Hin. by apply elem_of_nil in Hin.
Qed.

(** X14.  An entry whose [local_path] is null stops the healing loop with an
    exception that nothing catches: [main] ends there, the upload
    backfill does not run and the mapping file is not written. *)
Theorem null_local_path_aborts_main folders (w w1 : world) (total : nat) :
  sync_folders folders 0%nat w = (Ok total, w1) ->
  heal_raises (w_mapping w1) = true ->
  exists w',
    main_sync folders w = (Raise, w') /\
    saved_store (w_trace w') = saved_store (w_trace w) /\
    (forall name path, EvCreate name path ∈ w_trace w' ->
                       EvCreate name path ∈ w_trace w1).
Proof.
  intros Hsync Hraise. unfold main_sync, bind. rewrite Hsync.
  pose proof (sync_folders_never_saves folders 0%nat w) as (new1 & Ht1 & Hn1).
  rewrite Hsync in Ht1. simpl in Ht1.
  unfold heal, bind, get_mapping, set_mapping, emits, heal_pass. simpl.
  rewrite heal_loop_raised by apply cache_ok_nil. rewrite Hraise.
  eexists. split; [reflexivity|]. simpl. split.
  - rewrite Ht1, saved_store_ext by apply heal_loop_events.
    by apply saved_store_ext.
  - intros name path [Hin|Hin]%elem_of_app; [|done].
    by apply heal_loop_no_upload in Hin.
Qed.
End Frames.

(* ===================================================================== *)
(** ** The ZIP container variant: archives with distinct member names *)
(* ===================================================================== *)

Section ZipDistinct.
Context `{P : Platform}.

Lemma process_zip_items_distinct_names z_old file_name creator items acc w
    acc' w' :
  NoDup (z_name <$> z_old) -> items ⊆ z_old ->
  process_zip_items z_old file_name creator items acc w = (Ok acc', w') ->
  exists kept,
    a_new acc' = a_new acc ++ kept /\
    sublist kept (written_back <$> items) /\
    forall z_item, z_item ∈ items -> is_image_name (z_name z_item) = false ->
                   written_back z_item ∈ kept.
Proof.
  intros Hnd. revert acc w.
  induction items as [|z_item rest IH]; intros acc w Hsub; simpl.
  - intros [= <- <-]. exists []. rewrite app_nil_r. split; [done|].
    split; [done|]. by intros z ?%elem_of_nil.
  - unfold bind.
    destruct (process_zip_item z_old file_name creator z_item acc w)
      as [[acc1|] w1] eqn:E1; [|done].
    intros Hrest. apply IH in Hrest as (kept & Hnew & Hsl & Hall).
    2:{ intros z Hz. apply Hsub, elem_of_cons. by right. }
    assert (z_item ∈ z_old) as Hin by (apply Hsub, elem_of_cons; by left).
    pose proof (process_zip_item_distinct_names _ _ _ _ _ _ _ _ Hnd Hin E1)
      as Hone.
    assert ((a_new acc1 = a_new acc ++ [written_back z_item]) \/
            (a_new acc1 = a_new acc /\ is_image_name (z_name z_item) = true))
      as [Hkept|[Hleft Himg]].
    { unfold written_back. destruct (is_dir_name (z_name z_item)).
      - destruct Hone as [-> _]. by left.
      - destruct (is_image_name (z_name z_item)); simpl in Hone.
        + destruct (already_captured _ _); [right; by destruct Hone|].
          destruct Hone as (data & _ & Hone).
          destruct (is_match _);
            [right; by destruct Hone | left; by destruct Hone]. 
        + left. by destruct Hone. }
    + exists (written_back z_item :: kept). rewrite Hnew, Hkept, <- app_assoc.
      split; [done|]. split; [by constructor|].
      intros z [->|Hz]%elem_of_cons Hni; apply elem_of_cons; [by left|].
      right. by apply Hall.
    + exists kept. rewrite Hnew, Hleft. split; [done|].
      split; [by apply sublist_cons|].
      intros z [->|Hz]%elem_of_cons Hni; [congruence | by apply Hall].
Qed.

(** X15.  For an archive whose member names are pairwise distinct, a pass
    that completes writes back members of the archive only, each with
    its own contents and in the order of the archive, and leaves out no
    member that is not an image. *)
Theorem zip_distinct_names_copied_through z_old file_name creator w acc' w' :
  NoDup (z_name <$> z_old) ->
  process_zip_items z_old file_name creator z_old (mkAcc [] 0 false) w
    = (Ok acc', w') ->
  sublist (a_new acc') (written_back <$> z_old) /\
  forall z_item, z_item ∈ z_old -> is_image_name (z_name z_item) = false ->
                 written_back z_item ∈ a_new acc'.
Proof.
  intros Hnd Hrun.
  destruct (process_zip_items_distinct_names _ _ _ _ _ _ _ _ Hnd
              (reflexivity _) Hrun) as (kept & Hnew & Hsl & Hall).
  simpl in Hnew. by rewrite Hnew.
Qed.
End ZipDistinct.

Lemma backfill_uploads_only_missing_witness :
  exists qid item path,
    (qid, item) ∈ sample_store /\ path <> "" /\
    ((EvCreate "P1_thumb.jpg" "/srv/assets/thumbnails/P1_thumb.jpg"
      = EvCreate (qid ++ "_thumb.jpg") path /\
      get "thumb_path" item = JStr path /\
      truthy (get "drive_thumb_id" item) = false) \/
     (EvCreate "P1_thumb.jpg" "/srv/assets/thumbnails/P1_thumb.jpg"
      = EvCreate (qid ++ "_qr.jpg") path /\
      get "qr_path" item = JStr path /\
      truthy (get "drive_qr_id" item) = false)).
Proof.
  apply (@backfill_uploads_only_missing studio_with_folder sample_store).
  apply list_elem_of_In. vm_compute. tauto.
Defined.

Lemma backfill_twice_uploads_nothing_witness :
  @backfill_loop studio_with_folder
    (@backfill_loop studio_with_folder sample_store).1
  = ((@backfill_loop studio_with_folder sample_store).1, []).
Proof.
  apply (@backfill_twice_uploads_nothing studio_with_folder).
  - reflexivity.
  - intros name path. exists ("id-" ++ name)%string. split; [reflexivity|].
    discriminate.
Defined.

Lemma null_local_path_aborts_main_witness :
  exists w',
    @main_sync studio [] world_with_null_path = (Raise, w') /\
    saved_store (w_trace w') = saved_store (w_trace world_with_null_path) /\
    (forall name path, EvCreate name path ∈ w_trace w' ->
                       EvCreate name path ∈ w_trace world_with_null_path).
Proof.
  apply (@null_local_path_aborts_main studio [] world_with_null_path
           world_with_null_path 0%nat).
  - reflexivity.
  - vm_compute. reflexivity.
Defined.

Lemma zip_distinct_names_copied_through_witness :
  exists acc' w',
    @process_zip_items bundle archive_1 "bundle.zip" "Ann" archive_1
      (mkAcc [] 0 false) zip_world = (Ok acc', w') /\
    sublist (a_new acc') (written_back <$> archive_1) /\
    forall z_item, z_item ∈ archive_1 ->
                   is_image_name (z_name z_item) = false ->
                   written_back z_item ∈ a_new acc'.
Proof.
  destruct (@process_zip_items bundle archive_1 "bundle.zip" "Ann" archive_1
              (mkAcc [] 0 false) zip_world) as [[acc'|] w'] eqn:E;
    [|vm_compute in E; discriminate E].
  exists acc', w'. split; [reflexivity|].
  apply (@zip_distinct_names_copied_through bundle archive_1 "bundle.zip"
           "Ann" zip_world acc' w'); [|exact E].
  apply (bool_decide_unpack _). vm_compute. exact I.
Defined.

Section ZipKnownNames.
Context `{P : Platform}.

Lemma process_zip_items_known_names z_old file_name creator
    (items : list zentry) (acc : zip_acc) (w : world) :
  Forall (fun z => is_dir_name (z_name z) = false /\
                   is_image_name (z_name z) = true /\
                   already_captured (w_mapping w) (z_name z) = true) items ->
  process_zip_items z_old file_name creator items acc w
  = (Ok (mkAcc (a_new acc) (a_matches acc)
               (if items is [] then a_removed acc else true)), w).
Proof.
  intros Hall. revert acc. induction Hall as [|z items (Hd & Hi & Hc) _ IH];
    intros acc; simpl.
  - by destruct acc.
  - unfold bind at 1, process_zip_item. rewrite Hd, Hi.
    change (bind get_mapping ?k w) with (k (w_mapping w) w). cbv beta.
    rewrite Hc. simpl. rewrite IH. simpl. by destruct items.
Qed.

(** X16.  An archive whose members are all images with a base name that some
    entry of the store already has as its file name is replaced by an
    empty archive: no member is read or scanned, nothing is matched, and
    the count returned is 0. *)
Theorem zip_of_known_file_names_is_emptied file_id file_name creator
    (w : world) (fh : string) (z_old : list zentry) :
  dict_get file_id (w_drive w) = Some fh ->
  zip_parse fh = Ok z_old ->
  z_old <> [] ->
  Forall (fun z => is_dir_name (z_name z) = false /\
                   is_image_name (z_name z) = true /\
                   already_captured (w_mapping w) (z_name z) = true) z_old ->
  drive_update_ok file_id (zip_build []) = true ->
  process_zip file_id file_name creator w
  = (Ok 0%nat,
     mkWorld (w_mapping w)
             (dict_set file_id (zip_build []) (w_drive w))
             (EvUpdate file_id (zip_build [])
                :: EvDownload file_id :: w_trace w)).
Proof.
  intros Hfh Hzip Hne Hall Hup. unfold process_zip, try_except.
  rewrite process_zip_body_run, Hfh, Hzip. cbv zeta.
  rewrite process_zip_items_known_names by done. simpl.
  destruct z_old; [done|]. simpl. by rewrite Hup.
Qed.
End ZipKnownNames.

Lemma zip_of_known_file_names_is_emptied_witness :
  @process_zip depot "zip-9" "scans.zip" "Ann" depot_world
  = (Ok 0%nat,
     mkWorld (w_mapping depot_world)
             (dict_set "zip-9" (@zip_build depot []) (w_drive depot_world))
             (EvUpdate "zip-9" (@zip_build depot [])
                :: EvDownload "zip-9" :: w_trace depot_world)).
Proof.
  apply (@zip_of_known_file_names_is_emptied depot "zip-9" "scans.zip" "Ann"
           depot_world "zip-bytes-known" archive_known).
  - reflexivity.
  - reflexivity.
  - discriminate.
  - repeat constructor.
  - reflexivity.
Defined.

(* ===================================================================== *)
(** ** Gap analysis: what the pattern captures *)
(* ===================================================================== *)

Lemma alpha_dash_not_digit (c : ascii) :
  is_alpha_dash c = true -> is_digit c = false.
Proof.
  destruct c as [[] [] [] [] [] [] [] []]; vm_compute; congruence.
Qed.

Lemma alpha_dash_not_digit_rev (c : ascii) :
  is_digit c = true -> is_alpha_dash c = false.
Proof.
  destruct c as [[] [] [] [] [] [] [] []]; vm_compute; congruence.
Qed.

Section Runs.
Variable p : ascii -> bool.

Lemma span_app s : (fst (span p s) ++ snd (span p s))%string = s.
Proof.
  induction s as [|c s IH]; [done|]. simpl.
  destruct (p c); simpl; [|done].
  change (String c ((span p s).1 +:+ (span p s).2) = String c s).
  by rewrite IH.
Qed.

Lemma span_nonempty s :
  fst (span p s) <> EmptyString -> exists c r, s = String c r /\ p c = true.
Proof.
  destruct s as [|c s]; [done|]. simpl. destruct (p c) eqn:E; [|done].
  intros _. by exists c, s.
Qed.

Lemma span_empty s : fst (span p s) = EmptyString -> snd (span p s) = s.
Proof. intros He. pose proof (span_app s) as Ha. by rewrite He in Ha. Qed.

(** Backtracking order: the greedy reading comes first; every other
    reading stops in front of a character of the class. *)
Lemma runs_cases s :
  (runs p s = [] /\ fst (span p s) = EmptyString) \/
  (exists l, runs p s = span p s :: l /\ fst (span p s) <> EmptyString /\
             Forall (fun ar => exists c r, snd ar = String c r /\ p c = true) l).
Proof.
  induction s as [|c s IH]; [by left|]. simpl.
  destruct (p c) eqn:Hc; [right | by left].
  destruct IH as [[-> Hempty] | (l & -> & Hne & Hl)].
  - exists []. simpl. rewrite Hempty, (span_empty _ Hempty). done.
  - eexists. simpl. split; [reflexivity|]. split; [done|].
    apply Forall_app. split.
    + apply Forall_fmap. eapply Forall_impl; [exact Hl|]. by intros [a r].
    + constructor; [|done]. simpl. by apply span_nonempty.
Qed.
End Runs.

Lemma match_here_greedy (s : string) : match_here s = match_greedy s.
Proof.
  unfold match_here, match_greedy.
  destruct (span is_alpha_dash s) as [pref rest] eqn:Hspan.
  destruct (runs_cases is_alpha_dash s) as [[-> Hempty] | (l & -> & Hne & Hl)];
    rewrite Hspan in *; simpl in *.
  - subst pref. destruct (span is_digit rest).
    rewrite bool_decide_eq_false_2; [done | tauto].
  - assert (flat_map (fun pr => map (fun nr => (pr.1, nr.1))
                                    (runs is_digit pr.2)) l = []) as ->.
    { induction Hl as [|[a r] l (c & r' & Hr & Hc) _ IH]; [done|].
      simpl in *. subst r. simpl.
      by rewrite (alpha_dash_not_digit c Hc), IH. }
    rewrite app_nil_r.
    destruct (span is_digit rest) as [num rest'] eqn:Hnum.
    destruct (runs_cases is_digit rest) as [[-> Hempty] | (l' & -> & Hne' & _)];
      rewrite Hnum in *; simpl in *.
    + subst num. rewrite bool_decide_eq_false_2; [done | tauto].
    + by rewrite bool_decide_eq_true_2.
Qed.

(** X17.  The pattern needs no backtracking: tried at a given start, it
    succeeds exactly when the longest run of letters and hyphens there
    is non-empty and directly followed by a digit, and it captures that
    run and the longest run of digits after it. *)
Theorem pattern_captures_longest_runs (s : string) :
  match_here s =
  let '(pref, rest) := span is_alpha_dash s in
  let '(num, _) := span is_digit rest in
  if bool_decide (pref <> EmptyString /\ num <> EmptyString)
  then Some (pref, num) else None.
Proof. apply match_here_greedy. Qed.

Lemma match_greedy_cons (c : ascii) (s : string) :
  match_greedy (String c s) =
  if is_alpha_dash c then
    if bool_decide (fst (span is_alpha_dash s) = EmptyString) then
      if bool_decide (fst (span is_digit s) = EmptyString) then None
      else Some (String c EmptyString, fst (span is_digit s))
    else
      match match_greedy s with
      | Some (pref, num) => Some (String c pref, num)
      | None => None
      end
  else None.
Proof.
  unfold match_greedy. simpl. destruct (is_alpha_dash c); simpl.
  - destruct (span is_alpha_dash s) as [pref rest] eqn:Hspan. simpl.
    case_bool_decide as Hpref.
    + subst pref. pose proof (span_empty is_alpha_dash s) as Hrest.
      rewrite Hspan in Hrest. simpl in Hrest. rewrite Hrest by done.
      destruct (span is_digit s) as [num rest']. simpl.
      repeat case_bool_decide; try done; intuition congruence.
    + destruct (span is_digit rest) as [num rest'].
      repeat case_bool_decide; try done; intuition congruence.
  - by destruct (is_digit c).
Qed.

Lemma match_greedy_adjacent (s : string) :
  is_Some (match_greedy s) -> letter_then_digit s = true.
Proof.
  induction s as [|c s IH]; [by intros [? ?]|].
  rewrite match_greedy_cons. destruct (is_alpha_dash c) eqn:Hc; [|by intros [? ?]].
  case_bool_decide as Hpref.
  - case_bool_decide as Hnum; [by intros [? ?]|]. intros _.
    apply span_nonempty in Hnum as (d & r & -> & Hd). simpl.
    by rewrite Hc, Hd.
  - intros Hsome. apply span_nonempty in Hpref as (d & r & -> & Hd).
    change (letter_then_digit (String c (String d r)))
      with ((is_alpha_dash c && is_digit d) || letter_then_digit (String d r)).
    rewrite IH; [by rewrite orb_true_r|].
    by destruct (match_greedy (String d r)) as [[? ?]|]; [eexists | destruct Hsome].
Qed.

(** X18.  An identifier takes part in the analysis exactly when one of its
    letters or hyphens is directly followed by a digit; any other
    identifier is left out. *)
Theorem identifier_counts_iff_letter_then_digit (qid : string) :
  is_Some (re_search qid) <-> letter_then_digit qid = true.
Proof.
  induction qid as [|c s IH].
  - split; [by intros [? ?] | done].
  - change (re_search (String c s))
      with (match match_here (String c s) with
            | Some g => Some g
            | None => re_search s
            end).
    rewrite match_here_greedy.
    destruct (match_greedy (String c s)) as [g|] eqn:Hm.
    + split; [intros _ | by eexists].
      apply (match_greedy_adjacent (String c s)). rewrite Hm. by eexists.
    + rewrite IH. destruct s as [|d r]; [done|].
      change (letter_then_digit (String c (String d r)))
        with ((is_alpha_dash c && is_digit d) || letter_then_digit (String d r)).
      destruct (is_alpha_dash c && is_digit d) eqn:Hcd; [|done].
      exfalso. apply andb_true_iff in Hcd as [Hc Hd].
      rewrite match_greedy_cons, Hc in Hm. simpl in Hm.
      rewrite (alpha_dash_not_digit_rev d Hd) in Hm. simpl in Hm.
      rewrite Hd in Hm. simpl in Hm. discriminate Hm.
Qed.

(* ===================================================================== *)
(** ** Gap analysis: groups and missing numbers *)
(* ===================================================================== *)

Section SortedInts.
Implicit Types (l : list Z) (x y : Z).

Lemma ssorted_lt_unique l1 l2 :
  StronglySorted Z.lt l1 -> StronglySorted Z.lt l2 ->
  (forall x, x ∈ l1 <-> x ∈ l2) -> l1 = l2.
Proof.
  intros H1. revert l2. induction H1 as [|x l1 H1 IH Hx]; intros l2 H2 Hsame.
  - destruct l2 as [|y l2]; [done|]. exfalso.
    eapply not_elem_of_nil, Hsame, elem_of_cons. by left.
  - destruct H2 as [|y l2 H2 Hy].
    { exfalso. eapply not_elem_of_nil, Hsame, elem_of_cons. by left. }
    rewrite Forall_forall in Hx, Hy.
    assert (x = y) as ->.
    { pose proof (proj1 (Hsame x) ltac:(apply elem_of_cons; by left)) as Hxin.
      pose proof (proj2 (Hsame y) ltac:(apply elem_of_cons; by left)) as Hyin.
      apply elem_of_cons in Hxin as [?|Hxin]; [done|].
      apply elem_of_cons in Hyin as [?|Hyin]; [done|].
      apply Hx in Hyin. apply Hy in Hxin. lia. }
    f_equal. apply IH; [done|]. intros z. split; intros Hz.
    + pose proof (proj1 (Hsame z) ltac:(apply elem_of_cons; by right)) as Hin.
      apply elem_of_cons in Hin as [->|Hin]; [|done]. apply Hx in Hz. lia.
    + pose proof (proj2 (Hsame z) ltac:(apply elem_of_cons; by right)) as Hin.
      apply elem_of_cons in Hin as [->|Hin]; [|done]. apply Hy in Hz. lia.
Qed.

Lemma elem_of_insert_int x y l : y ∈ insert_int x l <-> y = x \/ y ∈ l.
Proof.
  induction l as [|z l IH]; simpl.
  - rewrite list_elem_of_singleton. rewrite elem_of_nil. tauto.
  - destruct (x <=? z)%Z; rewrite !elem_of_cons, ?IH; tauto.
Qed.

Lemma elem_of_sorted_ints y l : y ∈ sorted_ints l <-> y ∈ l.
Proof.
  induction l as [|z l IH]; simpl; [done|].
  rewrite elem_of_insert_int, elem_of_cons, IH. tauto.
Qed.

Lemma insert_int_ssorted x l :
  x ∉ l -> StronglySorted Z.lt l -> StronglySorted Z.lt (insert_int x l).
Proof.
  intros Hx Hl. induction Hl as [|z l Hl IH Hz]; simpl.
  - by repeat constructor.
  - apply not_elem_of_cons in Hx as [Hxz Hx].
    destruct (x <=? z)%Z eqn:E.
    + apply Z.leb_le in E. constructor; [by constructor|].
      constructor; [lia|]. eapply Forall_impl; [exact Hz|]. simpl. lia.
    + apply Z.leb_gt in E. constructor; [by apply IH|].
      apply Forall_forall. intros y [->|Hy]%elem_of_insert_int; [done|].
      by eapply Forall_forall in Hz.
Qed.

Lemma sorted_ints_ssorted l :
  NoDup l -> StronglySorted Z.lt (sorted_ints l).
Proof.
  induction 1 as [|x l Hx _ IH]; simpl; [constructor|].
  apply insert_int_ssorted; [|done]. by rewrite elem_of_sorted_ints.
Qed.

Lemma filter_ssorted (P : Z -> Prop) `{forall x, Decision (P x)} l :
  StronglySorted Z.lt l -> StronglySorted Z.lt (filter P l).
Proof.
  induction 1 as [|x l Hl IH Hx]; [constructor|].
  rewrite filter_cons. destruct (decide (P x)); [|done].
  constructor; [done|]. apply Forall_forall.
  intros y [_ Hy]%list_elem_of_filter. by eapply Forall_forall in Hx.
Qed.

Lemma seqZ_ssorted lo len : StronglySorted Z.lt (seqZ lo len).
Proof.
  destruct (decide (len <= 0)%Z) as [Hle|Hgt].
  { rewrite seqZ_nil by done. constructor. }
  rewrite <- (Z2Nat.id len) by lia. generalize (Z.to_nat len). clear.
  intros n. revert lo. induction n as [|n IH]; intros lo.
  - rewrite seqZ_nil by lia. constructor.
  - rewrite seqZ_cons by lia. constructor.
    + replace (Z.pred (Z.of_nat (S n))) with (Z.of_nat n) by lia. apply IH.
    + apply Forall_forall. intros y Hy%elem_of_seqZ. lia.
Qed.

(** The numbers a group lacks: those of the range that are not
    observed, in ascending order. *)
Lemma missing_between_filter range_fits lo hi (nums : list Z) :
  missing_between range_fits lo hi nums
  = if range_fits lo hi
    then Ok (filter (fun n => n ∉ nums) (seqZ lo (hi + 1 - lo)))
    else Raise.
Proof.
  unfold missing_between. destruct (range_fits lo hi); [f_equal|done].
  apply ssorted_lt_unique.
  - apply sorted_ints_ssorted, NoDup_elements.
  - apply filter_ssorted, seqZ_ssorted.
  - intros x. rewrite elem_of_sorted_ints, elem_of_elements,
      elem_of_difference, !elem_of_list_to_set, list_elem_of_filter. tauto.
Qed.

Lemma fold_min_spec (rest : list Z) n :
  fold_left Z.min rest n ∈ n :: rest /\
  forall x, x ∈ n :: rest -> (fold_left Z.min rest n <= x)%Z.
Proof.
  revert n. induction rest as [|m rest IH]; intros n; simpl.
  - split; [apply elem_of_cons; by left|].
    intros x ->%list_elem_of_singleton. lia.
  - destruct (IH (Z.min n m)) as [Hin Hle]. split.
    + apply elem_of_cons in Hin as [Heq|Hin].
      * rewrite Heq. destruct (Z.min_spec n m) as [[_ ->]|[_ ->]];
          rewrite !elem_of_cons; tauto.
      * rewrite !elem_of_cons. tauto.
    + intros x Hx.
      assert (x = n \/ x ∈ m :: rest) as [->|Hx'] by (by apply elem_of_cons).
      * specialize (Hle (Z.min n m) ltac:(apply elem_of_cons; by left)). lia.
      * apply elem_of_cons in Hx' as [->|Hx'].
        -- specialize (Hle (Z.min n m) ltac:(apply elem_of_cons; by left)). lia.
        -- apply Hle, elem_of_cons. by right.
Qed.

Lemma fold_max_spec (rest : list Z) n :
  fold_left Z.max rest n ∈ n :: rest /\
  forall x, x ∈ n :: rest -> (x <= fold_left Z.max rest n)%Z.
Proof.
  revert n. induction rest as [|m rest IH]; intros n; simpl.
  - split; [apply elem_of_cons; by left|].
    intros x ->%list_elem_of_singleton. lia.
  - destruct (IH (Z.max n m)) as [Hin Hle]. split.
    + apply elem_of_cons in Hin as [Heq|Hin].
      * rewrite Heq. destruct (Z.max_spec n m) as [[_ ->]|[_ ->]];
          rewrite !elem_of_cons; tauto.
      * rewrite !elem_of_cons. tauto.
    + intros x Hx.
      assert (x = n \/ x ∈ m :: rest) as [->|Hx'] by (by apply elem_of_cons).
      * specialize (Hle (Z.max n m) ltac:(apply elem_of_cons; by left)). lia.
      * apply elem_of_cons in Hx' as [->|Hx'].
        -- specialize (Hle (Z.max n m) ltac:(apply elem_of_cons; by left)). lia.
        -- apply Hle, elem_of_cons. by right.
Qed.
End SortedInts.

Section Groups.
Implicit Types (prefixes : list (string * list Z)) (ids : list string).



Lemma dict_set_Forall {V} (Q : string * V -> Prop) (k : string) (v : V)
    (d : list (string * V)) :
  Forall Q d -> Q (k, v) -> Forall Q (dict_set k v d).
Proof.
  intros Hd Hkv. induction Hd as [|[k' v'] d Hk' Hd IH]; simpl.
  - by constructor.
  - destruct (decide (k' = k)); by constructor.
Qed.

Lemma fold_add_number_nonempty ids prefixes :
  Forall (fun pn => pn.2 <> []) prefixes ->
  Forall (fun pn => pn.2 <> []) (fold_left add_number ids prefixes).
Proof.
  revert prefixes. induction ids as [|qid ids IH]; intros prefixes Hne; [done|].
  cbn [fold_left]. apply IH. unfold add_number.
  destruct (re_search qid) as [[p num]|]; [|done].
  apply dict_set_Forall; [done|]. simpl. by destruct (default _ _).
Qed.

Lemma prefixes_of_nonempty (mapping : list (string * gmap string jval)) :
  Forall (fun pn => pn.2 <> []) (prefixes_of mapping).
Proof. apply fold_add_number_nonempty. constructor. Qed.

Lemma bounds_unique (nums : list Z) lo hi lo' hi' :
  bounds_of nums lo hi -> bounds_of nums lo' hi' -> lo' = lo /\ hi' = hi.
Proof.
  intros (Hlo & Hhi & Hall) (Hlo' & Hhi' & Hall').
  pose proof (Hall lo' Hlo'). pose proof (Hall hi' Hhi').
  pose proof (Hall' lo Hlo). pose proof (Hall' hi Hhi). lia.
Qed.
End Groups.

Section GapRun.
Variable int_max_str_digits : nat.
Variable range_fits : Z -> Z -> bool.
Implicit Types (prefixes : list (string * list Z)) (ids : list string).

Lemma first_loop_turn_spec prefixes (qid : string) :
  first_loop_turn int_max_str_digits prefixes qid
  = if id_over_limit int_max_str_digits qid then Raise
    else Ok (add_number prefixes qid).
Proof.
  unfold first_loop_turn, id_over_limit, add_number, int_of.
  destruct (re_search qid) as [[pref num]|]; [|done].
  by destruct (over_digit_limit int_max_str_digits num).
Qed.

(** The first loop stops at the first number past the limit; when it
    completes, it has grouped every number. *)
Lemma first_loop_spec ids prefixes :
  first_loop int_max_str_digits ids prefixes
  = if existsb (id_over_limit int_max_str_digits) ids then Raise
    else Ok (fold_left add_number ids prefixes).
Proof.
  revert prefixes. induction ids as [|qid ids IH]; intros prefixes; [done|].
  cbn [first_loop existsb fold_left]. rewrite first_loop_turn_spec.
  destruct (id_over_limit int_max_str_digits qid); [done|]. apply IH.
Qed.

Lemma gap_line_of_nonempty (pref : string) (nums : list Z) :
  nums <> [] ->
  exists lo hi,
    bounds_of nums lo hi /\
    gap_line_of range_fits pref nums
    = if range_fits lo hi then
        Ok match filter (fun n => n ∉ nums) (seqZ lo (hi + 1 - lo)) with
           | [] => NoGaps pref
           | missing => GapsDetected pref (take 10 missing)
           end
      else Raise.
Proof.
  destruct nums as [|n rest]; [done|]. intros _.
  destruct (fold_min_spec rest n) as [Hlo Hmin].
  destruct (fold_max_spec rest n) as [Hhi Hmax].
  exists (fold_left Z.min rest n), (fold_left Z.max rest n). split.
  { split; [done|]. split; [done|].
    intros x Hx. split; [by apply Hmin | by apply Hmax]. }
  unfold gap_line_of, py_min, py_max. rewrite missing_between_filter.
  destruct (range_fits _ _); [|done]. by destruct (filter _ _).
Qed.

(** The second loop logs a line for each group until it meets a group
    whose range does not fit. *)
Lemma gap_lines_spec prefixes :
  Forall (fun pn => pn.2 <> []) prefixes ->
  let lines := (gap_lines range_fits prefixes).1 in
  let skipped := (gap_lines range_fits prefixes).2 in
  Forall2 (line_shows range_fits) (take (length lines) prefixes) lines /\
  (skipped = false -> length lines = length prefixes) /\
  (skipped = true ->
   exists pn, prefixes !! length lines = Some pn /\
              range_too_wide range_fits pn).
Proof.
  induction 1 as [|[pref nums] rest Hnums _ IH]; simpl.
  { split; [constructor|]. split; done. }
  destruct (gap_line_of_nonempty pref nums Hnums) as (lo & hi & Hb & ->).
  destruct (range_fits lo hi) eqn:Hfits.
  - destruct (gap_lines range_fits rest) as [lines skipped]. simpl in *.
    destruct IH as (Hlines & Hall & Hskip). split; [|split].
    + constructor; [|done]. by exists lo, hi.
    + intros Hs. by rewrite Hall.
    + done.
  - simpl. split; [constructor|]. split; [done|]. intros _.
    exists (pref, nums). split; [done|]. by exists lo, hi.
Qed.

Lemma gap_lines_skipped prefixes :
  Forall (fun pn => pn.2 <> []) prefixes ->
  (gap_lines range_fits prefixes).2 = true <->
  exists pn, pn ∈ prefixes /\ range_too_wide range_fits pn.
Proof.
  induction 1 as [|[pref nums] rest Hnums _ IH]; simpl.
  { split; [done|]. by intros (pn & ?%elem_of_nil & _). }
  destruct (gap_line_of_nonempty pref nums Hnums) as (lo & hi & Hb & ->).
  destruct (range_fits lo hi) eqn:Hfits.
  - destruct (gap_lines range_fits rest) as [lines skipped]. simpl in *.
    rewrite IH. split.
    + intros (pn & Hin & Hw). exists pn. split; [|done].
      apply elem_of_cons. by right.
    + intros (pn & [->|Hin]%elem_of_cons & Hw); [|by exists pn].
      destruct Hw as (lo' & hi' & Hb' & Hno). simpl in Hb'.
      destruct (bounds_unique _ _ _ _ _ Hb Hb') as [-> ->]. congruence.
  - simpl. split; [|done]. intros _. exists (pref, nums).
    split; [apply elem_of_cons; by left|]. by exists lo, hi.
Qed.

Lemma existsb_over_limit (mapping : list (string * gmap string jval)) :
  existsb (id_over_limit int_max_str_digits)
          (sorted_by (fun qid => qid) (dict_keys mapping)) = true <->
  exists qid, qid ∈ dict_keys mapping /\
              id_over_limit int_max_str_digits qid = true.
Proof.
  rewrite existsb_exists. split.
  - intros (qid & Hin%list_elem_of_In & Hover). exists qid. split; [|done].
    by rewrite sorted_by_perm in Hin.
  - intros (qid & Hin & Hover). exists qid. split; [|done].
    apply list_elem_of_In. by rewrite sorted_by_perm.
Qed.
End GapRun.

(** X20.  When no number is past the digit limit, the analysis logs, for the
    prefixes in the order in which they were first met, one line each
    until it meets a group whose range does not fit in memory: with
    [lo] and [hi] the least and the greatest number of the group, the
    line shows the first ten integers of [lo..hi] that are not in the
    group, in ascending order, or tells that there is no gap.  It ends
    without exception exactly when every group got its line. *)
Theorem gap_analysis_reports_missing (int_max_str_digits : nat)
    (range_fits : Z -> Z -> bool)
    (mapping : list (string * gmap string jval)) :
  (forall qid, qid ∈ dict_keys mapping ->
               id_over_limit int_max_str_digits qid = false) ->
  let lines := (run_gap_analysis int_max_str_digits range_fits mapping).1 in
  let skipped := (run_gap_analysis int_max_str_digits range_fits mapping).2 in
  Forall2 (line_shows range_fits)
          (take (length lines) (prefixes_of mapping)) lines /\
  (skipped = false -> length lines = length (prefixes_of mapping)) /\
  (skipped = true ->
   exists pn, prefixes_of mapping !! length lines = Some pn /\
              range_too_wide range_fits pn).
Proof.
  intros Hlimit. unfold run_gap_analysis. rewrite first_loop_spec.
  destruct (existsb _ _) eqn:Hex.
  { apply existsb_over_limit in Hex as (qid & Hin & Hover).
    rewrite Hlimit in Hover by done. done. }
  apply gap_lines_spec, prefixes_of_nonempty.
Qed.

(** X21.  The [except] branch of the analysis is taken, and the analysis
    reported as skipped, exactly when the number of some identifier has
    more digits than [int] converts, or the range of some group does
    not fit in memory.  Identifiers that do not follow the numerical
    pattern never cause it. *)
Theorem gap_analysis_skipped_iff (int_max_str_digits : nat)
    (range_fits : Z -> Z -> bool)
    (mapping : list (string * gmap string jval)) :
  (run_gap_analysis int_max_str_digits range_fits mapping).2 = true <->
  (exists qid pref num,
      qid ∈ dict_keys mapping /\ re_search qid = Some (pref, num) /\
      (0 < int_max_str_digits < String.length num)%nat) \/
  (exists pn, pn ∈ prefixes_of mapping /\ range_too_wide range_fits pn).
Proof.
  unfold run_gap_analysis. rewrite first_loop_spec.
  fold (prefixes_of mapping).
  assert (existsb (id_over_limit int_max_str_digits)
            (sorted_by (fun qid => qid) (dict_keys mapping)) = true <->
          exists qid pref num,
            qid ∈ dict_keys mapping /\ re_search qid = Some (pref, num) /\
            (0 < int_max_str_digits < String.length num)%nat) as Hover.
  { rewrite existsb_over_limit. unfold id_over_limit, over_digit_limit. split.
    - intros (qid & Hin & Ho).
      destruct (re_search qid) as [[pref num]|] eqn:Hs; [|done].
      apply andb_true_iff in Ho as [H1%Nat.ltb_lt H2%Nat.ltb_lt].
      by exists qid, pref, num.
    - intros (qid & pref & num & Hin & Hs & H1 & H2). exists qid.
      split; [done|]. rewrite Hs. apply andb_true_iff.
      by split; apply Nat.ltb_lt. }
  destruct (existsb _ _) eqn:Hex.
  - split; [intros _; left; by apply Hover | done].
  - rewrite gap_lines_skipped by apply prefixes_of_nonempty. split.
    + by right.
    + intros [Hbad|Hwide]; [|done]. apply Hover in Hbad. done.
Qed.

(** The two ways into the [except] branch: a number of five digits
    under a limit of four, and a group from 1 to 9000000 in a memory
    that holds a million integers (the group before it got its
    line). *)
Lemma gap_analysis_skipped_examples :
  run_gap_analysis 4 small_memory [("A-12345", ∅); ("B1", ∅)] = ([], true) /\
  run_gap_analysis 4300 small_memory
    [("A-1", ∅); ("B1", ∅); ("B9000000", ∅); ("C3", ∅)]
  = ([NoGaps "A-"], true).
Proof. split; vm_compute; reflexivity. Qed.

Lemma gap_analysis_reports_missing_witness :
  run_gap_analysis 4300 small_memory numbered_store
  = ([GapsDetected "A-" [3%Z]; NoGaps "B"], false) /\
  let lines := (run_gap_analysis 4300 small_memory numbered_store).1 in
  let skipped := (run_gap_analysis 4300 small_memory numbered_store).2 in
  Forall2 (line_shows small_memory)
          (take (length lines) (prefixes_of numbered_store)) lines /\
  (skipped = false -> length lines = length (prefixes_of numbered_store)) /\
  (skipped = true ->
   exists pn, prefixes_of numbered_store !! length lines = Some pn /\
              range_too_wide small_memory pn).
Proof.
  split; [vm_compute; reflexivity|].
  apply (gap_analysis_reports_missing 4300 small_memory numbered_store).
  intros qid Hin. apply list_elem_of_In in Hin. vm_compute in Hin.
  repeat (destruct Hin as [<-|Hin]; [vm_compute; reflexivity|]).
  destruct Hin.
Defined.


(* ===================================================================== *)
(** ** The batch report of the legacy variant *)
(* ===================================================================== *)

Section BatchReportFacts.
Variable parse_minute : string -> outcome string.
Implicit Types (item : batch_item)
               (batch_data : list (string * list batch_summary)).

Lemma update_batch_report_get (k : string) item batch_data :
  default [] (dict_get k (update_batch_report parse_minute item batch_data))
  = default [] (dict_get k batch_data) ++ summaries_at parse_minute k [item].
Proof.
  unfold update_batch_report, summaries_at. simpl.
  destruct (batch_key_of parse_minute item) as [[key t]|]; [|by rewrite app_nil_r].
  destruct (decide (key = k)) as [->|Hne].
  - by rewrite dict_get_set_eq.
  - rewrite dict_get_set_ne by done. by rewrite app_nil_r.
Qed.

Lemma update_batch_reports_get (k : string) (items : list batch_item)
    batch_data :
  default [] (dict_get k (update_batch_reports parse_minute items batch_data))
  = default [] (dict_get k batch_data) ++ summaries_at parse_minute k items.
Proof.
  unfold update_batch_reports. revert batch_data.
  induction items as [|item items IH]; intros batch_data.
  - by rewrite app_nil_r.
  - cbn [fold_left]. rewrite IH, update_batch_report_get, <- app_assoc.
    f_equal. unfold summaries_at. simpl.
    by destruct (batch_key_of parse_minute item) as [[key t]|];
      [destruct (decide (key = k))|].
Qed.

(** X22.  The batch report only grows: a call keeps every batch and its
    items, in order, and appends at most one summary, to the batch of
    the minute of the item. *)
Theorem batch_report_only_grows (k : string) item batch_data
    (batch : list batch_summary) :
  dict_get k batch_data = Some batch ->
  exists added,
    dict_get k (update_batch_report parse_minute item batch_data)
    = Some (batch ++ added) /\
    (length added <= 1)%nat /\
    (added <> [] -> exists t, batch_key_of parse_minute item = Some (k, t) /\
                              added = [summary_of item t]).
Proof.
  intros Hk. unfold update_batch_report.
  destruct (batch_key_of parse_minute item) as [[key t]|].
  - destruct (decide (key = k)) as [->|Hne].
    + rewrite dict_get_set_eq, Hk. simpl. eexists. split; [done|].
      split; [done|]. intros _. by exists t.
    + rewrite dict_get_set_ne by done. exists []. rewrite app_nil_r.
      split; [done|]. split; [simpl; lia | done].
  - exists []. rewrite app_nil_r. split; [done|]. split; [simpl; lia | done].
Qed.

(** X23.  There is no check for an item seen before: going through the same
    items a second time, as every run of the script does, records each
    of them again. *)
Theorem batch_report_records_every_visit (k : string)
    (items : list batch_item) batch_data :
  default []
    (dict_get k (update_batch_reports parse_minute items
                   (update_batch_reports parse_minute items batch_data)))
  = default [] (dict_get k batch_data)
      ++ summaries_at parse_minute k items
      ++ summaries_at parse_minute k items.
Proof. by rewrite !update_batch_reports_get, <- app_assoc. Qed.
End BatchReportFacts.

Lemma batch_report_only_grows_witness :
  exists added,
    dict_get "2026-01-01 10:00"
      (update_batch_report toy_parse_minute batch_item_b
         (update_batch_report toy_parse_minute batch_item_a []))
    = Some ([summary_of batch_item_a "2026-01-01T10:00:07Z"] ++ added) /\
    (length added <= 1)%nat /\
    (added <> [] ->
     exists t, batch_key_of toy_parse_minute batch_item_b
               = Some ("2026-01-01 10:00", t) /\
               added = [summary_of batch_item_b t]).
Proof.
  apply (batch_report_only_grows toy_parse_minute "2026-01-01 10:00"
           batch_item_b (update_batch_report toy_parse_minute batch_item_a [])).
  vm_compute. reflexivity.
Defined.

(* ===================================================================== *)
(** ** The spreadsheet mirror as a whole *)
(* ===================================================================== *)




